(** * The MIPS64 backend of the linker (elf/arch-mips64.cc)

    A shallow embedding of the relocation scanner and applier, of the
    MIPS GOT section ([MipsGotSection]) and of the CIE rewriter, followed
    by the properties proved about them.

    Machine integers are [Z] with the wrap-around written out; the output
    image is a byte-addressed memory; pointers to [Symbol] objects are
    identifiers into a symbol heap. *)

From Stdlib Require Import ZArith List Bool Lia Permutation Sorted.
From coqutil Require Import Byte Word.LittleEndianList.
Import ListNotations.
Local Open Scope Z_scope.

(* ================================================================== *)
(** * Part I: the embedding *)
(* ================================================================== *)

(** ** Fixed-width integers *)

Module Int.

(** Conversion to [u64], [u32] (reduction modulo the width) and to
    [i64] (two's complement reading of the low 64 bits). *)
Definition u64 (x : Z) : Z := x mod 2 ^ 64.
Definition u32 (x : Z) : Z := x mod 2 ^ 32.
Definition i64 (x : Z) : Z := (x + 2 ^ 63) mod 2 ^ 64 - 2 ^ 63.

(** Reading the low [16] (resp. [32]) bits as a signed quantity, as the
    processor does with an immediate field (resp. a [lui] result). *)
Definition sign_extend16 (x : Z) : Z := (x + 2 ^ 15) mod 2 ^ 16 - 2 ^ 15.
Definition sign_extend32 (x : Z) : Z := (x + 2 ^ 31) mod 2 ^ 32 - 2 ^ 31.

(** [sizeof(Word<E>)]: both instantiations (MIPS64LE, MIPS64BE) are
    64-bit targets. *)
Definition word_size : Z := 8.

End Int.

(** ** The output image

    [ctx.buf] is the memory-mapped output file; [U32<E>] and [U64<E>] are
    integer cells stored in the byte order of the target [E]. *)

Module Mem.

Definition image := Z -> byte.

Fixpoint store_bytes (off : Z) (bs : list byte) (m : image) : image :=
  match bs with
  | [] => m
  | b :: bs' =>
      store_bytes (off + 1) bs' (fun a => if a =? off then b else m a)
  end.

Fixpoint load_bytes (n : nat) (off : Z) (m : image) : list byte :=
  match n with
  | O => []
  | S k => m off :: load_bytes k (off + 1) m
  end.

(** Cell encodings: little-endian, or the same bytes reversed. *)
Definition encode (big_endian : bool) (n : nat) (v : Z) : list byte :=
  if big_endian then rev (le_split n v) else le_split n v.

Definition decode (big_endian : bool) (bs : list byte) : Z :=
  if big_endian then le_combine (rev bs) else le_combine bs.

Definition load (big_endian : bool) (n : nat) (off : Z) (m : image) : Z :=
  decode big_endian (load_bytes n off m).

Definition store (big_endian : bool) (n : nat) (off v : Z) (m : image)
  : image :=
  store_bytes off (encode big_endian n v) m.

End Mem.

(** ** ELF constants *)

Module Elf.

(** Modelled from the spec: the relocation numbers are declared in the
    ELF header of the repository, outside this file; the backend
    implements the MIPS psABI and the values are those the ABI assigns. *)
Definition R_NONE : Z := 0.
Definition R_MIPS_32 : Z := 2.
Definition R_MIPS_HI16 : Z := 5.
Definition R_MIPS_LO16 : Z := 6.
Definition R_MIPS_GPREL16 : Z := 7.
Definition R_MIPS_CALL16 : Z := 11.
Definition R_MIPS_GPREL32 : Z := 12.
Definition R_MIPS_64 : Z := 18.
Definition R_MIPS_GOT_DISP : Z := 19.
Definition R_MIPS_GOT_PAGE : Z := 20.
Definition R_MIPS_GOT_OFST : Z := 21.
Definition R_MIPS_GOT_HI16 : Z := 22.
Definition R_MIPS_GOT_LO16 : Z := 23.
Definition R_MIPS_SUB : Z := 24.
Definition R_MIPS_CALL_HI16 : Z := 30.
Definition R_MIPS_CALL_LO16 : Z := 31.
Definition R_MIPS_JALR : Z := 37.
Definition R_MIPS_TLS_GD : Z := 42.
Definition R_MIPS_TLS_LDM : Z := 43.
Definition R_MIPS_TLS_DTPREL_HI16 : Z := 44.
Definition R_MIPS_TLS_DTPREL_LO16 : Z := 45.
Definition R_MIPS_TLS_GOTTPREL : Z := 46.
Definition R_MIPS_TLS_TPREL_HI16 : Z := 49.
Definition R_MIPS_TLS_TPREL_LO16 : Z := 50.

(** The three combined types the backend recognises:
    [type | type2 << 8 | type3 << 16]. *)
Definition R_GPREL16_SUB_HI16 : Z :=
  Z.lor R_MIPS_GPREL16
        (Z.lor (Z.shiftl R_MIPS_SUB 8) (Z.shiftl R_MIPS_HI16 16)).
Definition R_GPREL16_SUB_LO16 : Z :=
  Z.lor R_MIPS_GPREL16
        (Z.lor (Z.shiftl R_MIPS_SUB 8) (Z.shiftl R_MIPS_LO16 16)).
Definition R_GPREL32_64 : Z :=
  Z.lor R_MIPS_GPREL32 (Z.shiftl R_MIPS_64 8).

(** Modelled from the spec: the pointer encodings of unwind records
    (absolute pointer, 4 and 8 byte data, PC-relative), declared in the
    same header with the values of the DWARF exception-handling
    encoding. *)
Definition DW_EH_PE_absptr : Z := 0.
Definition DW_EH_PE_udata4 : Z := 3.
Definition DW_EH_PE_udata8 : Z := 4.
Definition DW_EH_PE_sdata4 : Z := 11.
Definition DW_EH_PE_sdata8 : Z := 12.
Definition DW_EH_PE_pcrel : Z := 16.

(** A relocation record, [ElfRel<E>]; [r_type] is the combined type. *)
Record ElfRel := mkRel {
  r_offset : Z;
  r_type : Z;
  r_sym : Z;
  r_addend : Z
}.

End Elf.
Export Elf.

(** ** Symbols, diagnostics and outcomes *)

(** A [Symbol<E> *]: the identity of a symbol object. *)
Definition SymPtr := nat.

(** What the backend reads through a symbol pointer once addresses are
    frozen.  [file_priority] is [sym->file->priority]; [addr] and
    [addr_no_plt] are [get_addr(ctx)] and [get_addr(ctx, NO_PLT)]. *)
Record Symbol := mkSymbol {
  file_priority : Z;
  sym_idx : Z;
  is_imported : bool;
  is_relative : bool;
  is_local : bool;
  file_is_dso : bool;
  esym_is_undef : bool;
  addr : Z;
  addr_no_plt : Z;
  got_idx : Z;
  gottp_addr : Z;
  tlsgd_addr : Z;
  dynsym_idx : Z
}.

(** Messages sent to [Error(ctx)] (accumulated, the link goes on) or to
    [Fatal(ctx)] (the process exits). *)
Inductive diag :=
| OutOfRange (rel : ElfRel) (sym : SymPtr) (val lo hi : Z)
    (* "relocation R against S out of range: val is not in [lo, hi);
        recompile with -mxgot" *)
| UnknownRelocation (rel : ElfRel)
| InvalidNonallocRelocation (rel : ElfRel)
| UnsupportedEhFrameRelocation (rel : ElfRel)
| UnknownPointerSize
| UnknownAugmentation (c : byte).

(** Ways of leaving the defined behaviour of the program. *)
Inductive undefined :=
| UnreachableExecuted
| AssertionFailed
| ReadPastEnd
| OutOfFuel.

Inductive result (A : Type) :=
| Ok (a : A)
| Fatal (d : diag)
| Undefined (u : undefined).
Arguments Ok {A} a.
Arguments Fatal {A} d.
Arguments Undefined {A} u.

Definition bind {A B : Type} (r : result A) (k : A -> result B) : result B :=
  match r with
  | Ok a => k a
  | Fatal d => Fatal d
  | Undefined u => Undefined u
  end.

Notation "x <- r ;; k" := (bind r (fun x => k))
  (at level 61, r at next level, right associativity).

(** [assert(c)] *)
Definition assert (c : bool) : result unit :=
  if c then Ok tt else Undefined AssertionFailed.

(** ** The target [E] and the link-wide context

    [E] is a template parameter of every function of the backend; the
    members read here are its byte order and its two dynamic relocation
    types. *)
Record Target := mkTarget {
  big_endian : bool;
  R_RELATIVE : Z;
  R_DYNAMIC : Z
}.

(** [MipsGotSection<E>::SymbolAddend] *)
Record SymbolAddend := mkSymbolAddend {
  sym : SymPtr;
  addend : Z
}.
Arguments mkSymbolAddend sym%_nat addend%_Z.

(** [MipsGotSection<E>]: the two pools and the fields of the section
    header the backend reads and writes. *)
Record MipsGotSection := mkGot {
  got_syms : list SymbolAddend;
  gotpage_syms : list SymbolAddend;
  sh_addr : Z;
  sh_offset : Z;
  sh_size : Z;
  got_reldyn_offset : Z
}.

(** [Context<E>], restricted to what the backend touches. *)
Record Context := mkContext {
  arg_pic : bool;                          (* ctx.arg.pic *)
  dynsym_symbols : list (option SymPtr);   (* ctx.dynsym->symbols *)
  gp_addr : Z;                             (* ctx._gp->get_addr(ctx) *)
  got_sh_addr : Z;                         (* ctx.got->shdr.sh_addr *)
  got_tlsld_addr : Z;                      (* ctx.got->get_tlsld_addr(ctx) *)
  tp_addr : Z;
  dtp_addr : Z;
  reldyn_sh_offset : option Z;             (* ctx.reldyn, when present *)
  needs_tlsld : bool;
  extra_got : MipsGotSection;              (* ctx.extra.got *)
  sym_flags : SymPtr -> Z;                 (* sym.flags, per symbol object *)
  errors : list diag                       (* what Error(ctx) received *)
}.

Definition set_extra_got (ctx : Context) (g : MipsGotSection) : Context :=
  mkContext (arg_pic ctx) (dynsym_symbols ctx) (gp_addr ctx)
            (got_sh_addr ctx) (got_tlsld_addr ctx) (tp_addr ctx)
            (dtp_addr ctx) (reldyn_sh_offset ctx) (needs_tlsld ctx)
            g (sym_flags ctx) (errors ctx).

Definition set_needs_tlsld (ctx : Context) (b : bool) : Context :=
  mkContext (arg_pic ctx) (dynsym_symbols ctx) (gp_addr ctx)
            (got_sh_addr ctx) (got_tlsld_addr ctx) (tp_addr ctx)
            (dtp_addr ctx) (reldyn_sh_offset ctx) b
            (extra_got ctx) (sym_flags ctx) (errors ctx).

Definition set_sym_flags (ctx : Context) (f : SymPtr -> Z) : Context :=
  mkContext (arg_pic ctx) (dynsym_symbols ctx) (gp_addr ctx)
            (got_sh_addr ctx) (got_tlsld_addr ctx) (tp_addr ctx)
            (dtp_addr ctx) (reldyn_sh_offset ctx) (needs_tlsld ctx)
            (extra_got ctx) f (errors ctx).

(** [Error(ctx) << ...] *)
Definition report (ctx : Context) (d : diag) : Context :=
  mkContext (arg_pic ctx) (dynsym_symbols ctx) (gp_addr ctx)
            (got_sh_addr ctx) (got_tlsld_addr ctx) (tp_addr ctx)
            (dtp_addr ctx) (reldyn_sh_offset ctx) (needs_tlsld ctx)
            (extra_got ctx) (sym_flags ctx) (errors ctx ++ [d]).

(** [sym.flags |= bits] on the object [p] points to. *)
Definition or_flags (ctx : Context) (p : SymPtr) (bits : Z) : Context :=
  set_sym_flags ctx
    (fun q => if Nat.eqb q p then Z.lor (sym_flags ctx p) bits
              else sym_flags ctx q).

(** ** The MIPS GOT section *)

Module Got.
Section WithHeap.

Variable E : Target.
(** The symbol objects the pointers refer to. *)
Variable symtab : SymPtr -> Symbol.

(** Modelled from the spec: [NUM_RESERVED] is declared with the class,
    outside this file; "the first two slots are reserved". *)
Definition NUM_RESERVED : Z := 2.

(** [std::tuple<i64, i64, i64>::operator<], lexicographic. *)
Definition tuple_lt (a b : Z * Z * Z) : bool :=
  let '(a1, a2, a3) := a in
  let '(b1, b2, b3) := b in
  (a1 <? b1) ||
  (negb (b1 <? a1) && ((a2 <? b2) || (negb (b2 <? a2) && (a3 <? b3)))).

Definition sort_key (e : SymbolAddend) : Z * Z * Z :=
  (file_priority (symtab (sym e)), sym_idx (symtab (sym e)), addend e).

(** [SymbolAddend::operator<] *)
Definition operator_lt (a b : SymbolAddend) : bool :=
  tuple_lt (sort_key a) (sort_key b).

(** Modelled from the spec: [SymbolAddend::operator==] is declared with
    the class, outside this file.  "Order/dedup key = (symbol's file
    priority, symbol's per-file index, addend)": two entries are equal
    when they agree on the three components of the key. *)
Definition operator_eq (a b : SymbolAddend) : bool :=
  (file_priority (symtab (sym a)) =? file_priority (symtab (sym b)))
  && (sym_idx (symtab (sym a)) =? sym_idx (symtab (sym b)))
  && (addend a =? addend b).

(** Modelled from the spec: [sort] is a helper of the repository that
    is not in this file; "stable sort by the structural key".  An
    element goes in front of the first one that is not smaller than it,
    so equivalent elements keep their order of arrival. *)
Fixpoint insert (x : SymbolAddend) (l : list SymbolAddend)
  : list SymbolAddend :=
  match l with
  | [] => [x]
  | y :: l' => if operator_lt y x then y :: insert x l' else x :: l
  end.

Definition sort (l : list SymbolAddend) : list SymbolAddend :=
  fold_right insert [] l.

(** Modelled from the spec: [remove_duplicates] is a helper of the
    repository that is not in this file; "remove structurally-equal
    duplicates" of a sorted vector, as [std::unique] does: [x] is the
    entry kept last, the entries equal to it are dropped, and the first
    entry that differs is kept in its turn.  Of each run of equal
    entries the first stays. *)
Fixpoint unique_from (x : SymbolAddend) (l : list SymbolAddend)
  : list SymbolAddend :=
  match l with
  | [] => [x]
  | y :: l' =>
      if operator_eq x y then unique_from x l'
      else x :: unique_from y l'
  end.

Definition remove_duplicates (l : list SymbolAddend) : list SymbolAddend :=
  match l with
  | [] => []
  | x :: l' => unique_from x l'
  end.

(** [std::lower_bound(v.begin(), v.end(), x) - v.begin()] on a sorted
    vector: the number of leading elements smaller than [x]. *)
Fixpoint lower_bound (l : list SymbolAddend) (x : SymbolAddend) : nat :=
  match l with
  | [] => O
  | y :: l' => if operator_lt y x then S (lower_bound l' x) else O
  end.

(** A pool is sorted when no entry is smaller than one in front of it,
    and strictly sorted when every entry is smaller than those behind
    it. *)
Definition sorted (l : list SymbolAddend) : Prop :=
  StronglySorted (fun a b => operator_lt b a = false) l.

Definition strictly_sorted (l : list SymbolAddend) : Prop :=
  StronglySorted (fun a b => operator_lt a b = true) l.

(** "Finalize got_syms": the two steps [update_shdr] applies to each
    pool. *)
Definition finalize (l : list SymbolAddend) : list SymbolAddend :=
  remove_duplicates (sort l).

(** The linker's invariant on the symbol objects a pool refers to: a
    symbol is the entry [sym_idx] of the symbol table of its file and
    files have distinct priorities, so two pointers whose objects agree
    on both are the same pointer. *)
Definition symbols_identified (l : list SymbolAddend) : Prop :=
  forall a b, In a l -> In b l ->
    file_priority (symtab (sym a)) = file_priority (symtab (sym b)) ->
    sym_idx (symtab (sym a)) = sym_idx (symtab (sym b)) ->
    sym a = sym b.

(** [SymbolAddend::get_addr(ctx, flags)], [flags] being [0] or
    [NO_PLT]. *)
Definition get_addr (no_plt : bool) (e : SymbolAddend) : Z :=
  Int.u64 ((if no_plt then addr_no_plt (symtab (sym e))
            else addr (symtab (sym e))) + addend e).

Definition get_got_addr (ctx : Context) (this : MipsGotSection)
           (s : SymPtr) (a : Z) : result Z :=
  let it := lower_bound (got_syms this) (mkSymbolAddend s a) in
  _ <- assert (Nat.ltb it (length (got_syms this))) ;;
  let idx := Int.i64 (NUM_RESERVED
                      + Z.of_nat (length (dynsym_symbols ctx))
                      + Z.of_nat it) in
  Ok (Int.u64 (sh_addr this + Int.u64 (idx * Int.word_size))).

Definition get_gotpage_got_addr (ctx : Context) (this : MipsGotSection)
           (s : SymPtr) (a : Z) : result Z :=
  let it := lower_bound (gotpage_syms this) (mkSymbolAddend s a) in
  _ <- assert (Nat.ltb it (length (gotpage_syms this))) ;;
  let idx := Int.i64 (NUM_RESERVED
                      + Z.of_nat (length (dynsym_symbols ctx))
                      + Z.of_nat (length (got_syms this))
                      + Z.of_nat it) in
  Ok (Int.u64 (sh_addr this + Int.u64 (idx * Int.word_size))).

Definition get_gotpage_page_addr (ctx : Context) (this : MipsGotSection)
           (s : SymPtr) (a : Z) : result Z :=
  let it := lower_bound (gotpage_syms this) (mkSymbolAddend s a) in
  match nth_error (gotpage_syms this) it with
  | Some e => Ok (get_addr false e)
  | None => Undefined AssertionFailed
  end.

(** [GotEntry]: [{val, r_type = R_NONE, sym = nullptr}] *)
Record GotEntry := mkGotEntry {
  ent_val : Z;
  ent_r_type : Z;
  ent_sym : option SymPtr
}.

(** The body of the first loop of [get_got_entries]. *)
Definition got_entry (ctx : Context) (ent : SymbolAddend) : GotEntry :=
  if is_imported (symtab (sym ent)) then
    mkGotEntry 0 (R_DYNAMIC E) (Some (sym ent))
  else if arg_pic ctx && is_relative (symtab (sym ent)) then
    mkGotEntry (get_addr true ent) (R_RELATIVE E) None
  else
    mkGotEntry (get_addr true ent) R_NONE None.

(** The body of the second loop. *)
Definition gotpage_entry (ctx : Context) (ent : SymbolAddend) : GotEntry :=
  if arg_pic ctx && is_relative (symtab (sym ent)) then
    mkGotEntry (get_addr false ent) (R_RELATIVE E) None
  else
    mkGotEntry (get_addr false ent) R_NONE None.

Definition get_got_entries (ctx : Context) (this : MipsGotSection)
  : list GotEntry :=
  let entries := [] in
  let entries :=
    fold_left (fun es ent => es ++ [got_entry ctx ent])
              (got_syms this) entries in
  let entries :=
    fold_left (fun es ent => es ++ [gotpage_entry ctx ent])
              (gotpage_syms this) entries in
  entries.

Definition update_shdr (ctx : Context) (this : MipsGotSection)
  : MipsGotSection :=
  let got := finalize (got_syms this) in
  let gotpage := finalize (gotpage_syms this) in
  let n := Int.i64 (NUM_RESERVED
                    + Z.of_nat (length (dynsym_symbols ctx))
                    + Z.of_nat (length got)
                    + Z.of_nat (length gotpage)) in
  mkGot got gotpage (sh_addr this) (sh_offset this)
        (Int.u64 (n * Int.word_size)) (got_reldyn_offset this).

Definition get_reldyn_size (ctx : Context) (this : MipsGotSection) : Z :=
  fold_left
    (fun n ent => if negb (ent_r_type ent =? R_NONE) then n + 1 else n)
    (get_got_entries ctx this) 0.

(** State of [copy_buf]: the image, the slot counter [i] and the
    records written through the cursor [dynrel] so far. *)
Record CopyState := mkCopy {
  cs_image : Mem.image;
  cs_i : Z;
  cs_dynrel : list ElfRel
}.

(** [buf[i] = v] for [U64<E> *buf = ctx.buf + sh_offset]. *)
Definition store_slot (this : MipsGotSection) (i v : Z) (m : Mem.image)
  : Mem.image :=
  Mem.store (big_endian E) 8 (sh_offset this + 8 * i) v m.

(** The body of the loop over the dynamic symbol table. *)
Definition copy_dynsym (this : MipsGotSection)
           (st : Z * Mem.image) (s : option SymPtr) : Z * Mem.image :=
  let '(i, m) := st in
  match s with
  | Some p =>
      if negb (file_is_dso (symtab p)) && negb (esym_is_undef (symtab p))
      then (i + 1, store_slot this (i + NUM_RESERVED)
                              (addr_no_plt (symtab p)) m)
      else (i + 1, m)
  | None => (i + 1, m)
  end.

(** An entry together with the index [i] of the slot it fills. *)
Definition needs_dynrel (ie : Z * GotEntry) : bool :=
  negb (ent_r_type (snd ie) =? R_NONE).

(** [ElfRel<E>(sh_addr + i * sizeof(Word<E>), ent.r_type,
              ent.sym ? ent.sym->get_dynsym_idx(ctx) : 0, ent.val)]:
    the offset is a [u64], the addend of the record is an [i64], so
    the [u64] value of the entry is read as a signed number. *)
Definition dynrel_for (this : MipsGotSection) (ie : Z * GotEntry) : ElfRel :=
  mkRel (Int.u64 (sh_addr this + Int.u64 (fst ie * Int.word_size)))
        (ent_r_type (snd ie))
        (match ent_sym (snd ie) with
         | Some p => dynsym_idx (symtab p)
         | None => 0
         end)
        (Int.i64 (ent_val (snd ie))).

(** The body of the loop over [get_got_entries]. *)
Definition copy_entry (this : MipsGotSection)
           (st : CopyState) (ent : GotEntry) : CopyState :=
  let dynrel :=
    if needs_dynrel (cs_i st, ent)
    then cs_dynrel st ++ [dynrel_for this (cs_i st, ent)]
    else cs_dynrel st in
  mkCopy (store_slot this (cs_i st) (ent_val ent) (cs_image st))
         (cs_i st + 1)
         dynrel.

(** The entries paired with consecutive slot indices from [i] on. *)
Fixpoint numbered (i : Z) (es : list GotEntry) : list (Z * GotEntry) :=
  match es with
  | [] => []
  | e :: es' => (i, e) :: numbered (i + 1) es'
  end.

Definition copy_buf (ctx : Context) (this : MipsGotSection)
           (m : Mem.image) : CopyState :=
  let m := Mem.store_bytes (sh_offset this)
             (repeat Byte.x00 (Z.to_nat (sh_size this))) m in
  let m := store_slot this 1 (2 ^ 63) m in
  let m := snd (fold_left (copy_dynsym this) (dynsym_symbols ctx) (0, m)) in
  fold_left (copy_entry this) (get_got_entries ctx this)
    (mkCopy m (NUM_RESERVED + Z.of_nat (length (dynsym_symbols ctx))) []).

End WithHeap.
End Got.

(** ** Input sections and the relocation passes *)

(** [ObjectFile<E>], restricted to what the passes read. *)
Record ObjectFile := mkFile {
  file_symbols : Z -> SymPtr;   (* file.symbols[r_sym] *)
  file_gp0 : Z;                 (* file.extra.gp0 *)
  file_num_dynrel : Z;
  file_reldyn_offset : Z
}.

Record InputSection := mkIsec {
  isec_file : ObjectFile;
  isec_rels : list ElfRel;      (* get_rels(ctx) *)
  isec_addr : Z;                (* get_addr() *)
  isec_is_alloc : bool;         (* shdr().sh_flags & SHF_ALLOC *)
  isec_reldyn_offset : Z
}.

(** [SectionFragment<E>] *)
Record SectionFragment := mkFrag {
  frag_addr : Z;                (* frag->get_addr(ctx) *)
  frag_is_alive : bool
}.

(** The image being patched, the context and the cursor [dynrel]
    ([None] for [nullptr]). *)
Record ApplyState := mkApply {
  ap_ctx : Context;
  ap_image : Mem.image;
  ap_dynrel : option Z
}.

Module Reloc.

Definition BIAS : Z := 32768.

(** The immediate fields [write_hi16] and [write_lo16] OR into the
    instruction word, for a [u64] argument:
    [((val + BIAS) >> 16) & 0xffff] and [val & 0xffff]. *)
Definition hi16 (val : Z) : Z :=
  Z.land (Z.shiftr (Int.u64 (val + BIAS)) 16) 65535.

Definition lo16 (val : Z) : Z := Z.land val 65535.

(** [sizeof(ElfRel<E>)] for the 64-bit record with an addend. *)
Definition sizeof_ElfRel : Z := 24.

(** The arms of the [switch] of [scan_relocations]; case labels that
    share a body share an arm. *)
Inductive scan_case :=
| SC_64 | SC_GOT_DISP | SC_CALL_GOT | SC_GOT_PAGE | SC_TLS_GOTTPREL
| SC_TLS_TPREL | SC_TLS_GD | SC_TLS_LDM | SC_nothing | SC_default.

Definition scan_dispatch (ty : Z) : scan_case :=
  if ty =? R_MIPS_64 then SC_64
  else if ty =? R_MIPS_GOT_DISP then SC_GOT_DISP
  else if (ty =? R_MIPS_CALL16) || (ty =? R_MIPS_CALL_HI16)
          || (ty =? R_MIPS_CALL_LO16) || (ty =? R_MIPS_GOT_HI16)
          || (ty =? R_MIPS_GOT_LO16) then SC_CALL_GOT
  else if (ty =? R_MIPS_GOT_PAGE) || (ty =? R_MIPS_GOT_OFST)
    then SC_GOT_PAGE
  else if ty =? R_MIPS_TLS_GOTTPREL then SC_TLS_GOTTPREL
  else if (ty =? R_MIPS_TLS_TPREL_HI16) || (ty =? R_MIPS_TLS_TPREL_LO16)
    then SC_TLS_TPREL
  else if ty =? R_MIPS_TLS_GD then SC_TLS_GD
  else if ty =? R_MIPS_TLS_LDM then SC_TLS_LDM
  else if (ty =? R_GPREL16_SUB_HI16) || (ty =? R_GPREL16_SUB_LO16)
          || (ty =? R_GPREL32_64) || (ty =? R_MIPS_JALR)
          || (ty =? R_MIPS_TLS_DTPREL_HI16)
          || (ty =? R_MIPS_TLS_DTPREL_LO16) then SC_nothing
  else SC_default.

(** The arms of the [switch] of [apply_reloc_alloc]. *)
Inductive apply_case :=
| AC_64 | AC_GPREL_HI16 | AC_GPREL_LO16 | AC_GPREL32_64 | AC_GOT_DISP
| AC_GOT_HI16 | AC_GOT_LO16 | AC_GOT_PAGE | AC_GOT_OFST | AC_JALR
| AC_TLS_TPREL_HI16 | AC_TLS_TPREL_LO16 | AC_TLS_GOTTPREL
| AC_TLS_DTPREL_HI16 | AC_TLS_DTPREL_LO16 | AC_TLS_GD | AC_TLS_LDM
| AC_default.

Definition apply_dispatch (ty : Z) : apply_case :=
  if ty =? R_MIPS_64 then AC_64
  else if ty =? R_GPREL16_SUB_HI16 then AC_GPREL_HI16
  else if ty =? R_GPREL16_SUB_LO16 then AC_GPREL_LO16
  else if ty =? R_GPREL32_64 then AC_GPREL32_64
  else if ty =? R_MIPS_GOT_DISP then AC_GOT_DISP
  else if (ty =? R_MIPS_CALL_HI16) || (ty =? R_MIPS_GOT_HI16)
    then AC_GOT_HI16
  else if (ty =? R_MIPS_CALL16) || (ty =? R_MIPS_CALL_LO16)
          || (ty =? R_MIPS_GOT_LO16) then AC_GOT_LO16
  else if ty =? R_MIPS_GOT_PAGE then AC_GOT_PAGE
  else if ty =? R_MIPS_GOT_OFST then AC_GOT_OFST
  else if ty =? R_MIPS_JALR then AC_JALR
  else if ty =? R_MIPS_TLS_TPREL_HI16 then AC_TLS_TPREL_HI16
  else if ty =? R_MIPS_TLS_TPREL_LO16 then AC_TLS_TPREL_LO16
  else if ty =? R_MIPS_TLS_GOTTPREL then AC_TLS_GOTTPREL
  else if ty =? R_MIPS_TLS_DTPREL_HI16 then AC_TLS_DTPREL_HI16
  else if ty =? R_MIPS_TLS_DTPREL_LO16 then AC_TLS_DTPREL_LO16
  else if ty =? R_MIPS_TLS_GD then AC_TLS_GD
  else if ty =? R_MIPS_TLS_LDM then AC_TLS_LDM
  else AC_default.

Section WithCollaborators.

Variable E : Target.
Variable symtab : SymPtr -> Symbol.

(** The symbol flags, declared with [Symbol]. *)
Variables NEEDS_GOT NEEDS_GOTTP NEEDS_TLSGD : Z.

(** Routines shared with the other backends, defined outside this
    file.  [record_undef_error] says whether the record refers to an
    undefined symbol (and records that); the others act on the state
    they are given. *)
Variable record_undef_error :
  Context -> InputSection -> ElfRel -> bool * Context.
Variable scan_toc_rel :
  Context -> InputSection -> SymPtr -> ElfRel -> Context.
Variable check_tlsle :
  Context -> InputSection -> SymPtr -> ElfRel -> Context.
Variable apply_toc_rel :
  ApplyState -> InputSection -> SymPtr -> ElfRel ->
  Z (* loc *) -> Z (* S *) -> Z (* A *) -> Z (* P *) -> ApplyState.
Variable get_fragment :
  Context -> InputSection -> ElfRel -> option SectionFragment * Z.
Variable get_tombstone :
  InputSection -> SymPtr -> option SectionFragment -> option Z.
Variable get_addend : Mem.image -> Z -> ElfRel -> Z.

(** *** [scan_relocations] *)

(** [ctx.extra.got->got_syms.push_back(e)], under the lock. *)
Definition push_got_sym (ctx : Context) (e : SymbolAddend) : Context :=
  let g := extra_got ctx in
  set_extra_got ctx
    (mkGot (got_syms g ++ [e]) (gotpage_syms g) (sh_addr g)
           (sh_offset g) (sh_size g) (got_reldyn_offset g)).

Definition push_gotpage_sym (ctx : Context) (e : SymbolAddend) : Context :=
  let g := extra_got ctx in
  set_extra_got ctx
    (mkGot (got_syms g) (gotpage_syms g ++ [e]) (sh_addr g)
           (sh_offset g) (sh_size g) (got_reldyn_offset g)).

(** The [switch] on [rel.r_type]. *)
Definition scan_switch (isec : InputSection) (ctx : Context)
           (s : SymPtr) (rel : ElfRel) : result Context :=
  match scan_dispatch (r_type rel) with
  | SC_64 => Ok (scan_toc_rel ctx isec s rel)
  | SC_GOT_DISP =>
      if r_addend rel =? 0 then Ok (or_flags ctx s NEEDS_GOT)
      else Ok (push_got_sym ctx (mkSymbolAddend s (r_addend rel)))
  | SC_CALL_GOT =>
      _ <- assert (r_addend rel =? 0) ;;
      Ok (or_flags ctx s NEEDS_GOT)
  | SC_GOT_PAGE =>
      Ok (push_gotpage_sym ctx (mkSymbolAddend s (r_addend rel)))
  | SC_TLS_GOTTPREL =>
      _ <- assert (r_addend rel =? 0) ;;
      Ok (or_flags ctx s NEEDS_GOTTP)
  | SC_TLS_TPREL => Ok (check_tlsle ctx isec s rel)
  | SC_TLS_GD =>
      _ <- assert (r_addend rel =? 0) ;;
      Ok (or_flags ctx s NEEDS_TLSGD)
  | SC_TLS_LDM => Ok (set_needs_tlsld ctx true)
  | SC_nothing => Ok ctx
  | SC_default => Ok (report ctx (UnknownRelocation rel))
  end.

(** One iteration of the loop. *)
Definition scan_reloc (isec : InputSection) (ctx : Context)
           (rel : ElfRel) : result Context :=
  if r_type rel =? R_NONE then Ok ctx
  else
    let '(undef, ctx) := record_undef_error ctx isec rel in
    if undef then Ok ctx
    else scan_switch isec ctx
           (file_symbols (isec_file isec) (r_sym rel)) rel.

Fixpoint scan_loop (isec : InputSection) (rels : list ElfRel)
         (ctx : Context) : result Context :=
  match rels with
  | [] => Ok ctx
  | rel :: rels' =>
      ctx' <- scan_reloc isec ctx rel ;;
      scan_loop isec rels' ctx'
  end.

Definition scan_relocations (isec : InputSection) (ctx : Context)
  : result (InputSection * Context) :=
  _ <- assert (isec_is_alloc isec) ;;
  let isec :=
    mkIsec (isec_file isec) (isec_rels isec) (isec_addr isec)
           (isec_is_alloc isec)
           (file_num_dynrel (isec_file isec) * sizeof_ElfRel) in
  ctx' <- scan_loop isec (isec_rels isec) ctx ;;
  Ok (isec, ctx').

(** *** [apply_reloc_alloc] *)

(** [*(U32<E> * )loc |= bits] *)
Definition or32 (loc bits : Z) (m : Mem.image) : Mem.image :=
  Mem.store (big_endian E) 4 loc
            (Z.lor (Mem.load (big_endian E) 4 loc m) bits) m.

(** The lambdas of the loop body; [val] arrives as a [u64] and [check]
    reads it as an [i64]. *)
Definition check (isec : InputSection) (rel : ElfRel) (s : SymPtr)
           (val lo hi : Z) (ctx : Context) : Context :=
  if (val <? lo) || (hi <=? val)
  then report ctx (OutOfRange rel s val lo hi)
  else ctx.

Definition write_hi16 (isec : InputSection) (rel : ElfRel) (s : SymPtr)
           (loc val : Z) (st : ApplyState) : ApplyState :=
  let ctx := check isec rel s (Int.i64 val) (- 2 ^ 31) (2 ^ 31)
                   (ap_ctx st) in
  mkApply ctx
    (or32 loc (hi16 val) (ap_image st))
    (ap_dynrel st).

Definition write_lo16 (isec : InputSection) (rel : ElfRel) (s : SymPtr)
           (loc val : Z) (st : ApplyState) : ApplyState :=
  let ctx := check isec rel s (Int.i64 val) (- 2 ^ 15) (2 ^ 15)
                   (ap_ctx st) in
  mkApply ctx (or32 loc (lo16 val) (ap_image st)) (ap_dynrel st).

Definition write_lo16_nc (loc val : Z) (st : ApplyState) : ApplyState :=
  mkApply (ap_ctx st) (or32 loc (lo16 val) (ap_image st))
          (ap_dynrel st).

(** One iteration of the loop; [base] is the offset of the section's
    bytes in the image. *)
Definition apply_reloc (isec : InputSection) (base : Z)
           (st : ApplyState) (rel : ElfRel) : result ApplyState :=
  let ctx := ap_ctx st in
  let GP := gp_addr ctx in
  let GP0 := file_gp0 (isec_file isec) in
  if r_type rel =? R_NONE then Ok st
  else
    let s := file_symbols (isec_file isec) (r_sym rel) in
    let loc := base + r_offset rel in
    let S := addr (symtab s) in
    let A := Int.u64 (r_addend rel) in
    let P := Int.u64 (isec_addr isec + r_offset rel) in
    let G := Int.u64 (got_idx (symtab s) * Int.word_size) in
    let GOT := got_sh_addr ctx in
    match apply_dispatch (r_type rel) with
    | AC_64 => Ok (apply_toc_rel st isec s rel loc S A P)
    | AC_GPREL_HI16 =>
        let val := if is_local (symtab s)
                   then Int.u64 (S + A + GP0 - GP)
                   else Int.u64 (S + A - GP) in
        Ok (write_hi16 isec rel s loc (Int.u64 (- val)) st)
    | AC_GPREL_LO16 =>
        let val := if is_local (symtab s)
                   then Int.u64 (S + A + GP0 - GP)
                   else Int.u64 (S + A - GP) in
        Ok (write_lo16_nc loc (Int.u64 (- val)) st)
    | AC_GPREL32_64 =>
        Ok (mkApply ctx
              (Mem.store (big_endian E) 8 loc
                         (Int.u64 (S + A + GP0 - GP)) (ap_image st))
              (ap_dynrel st))
    | AC_GOT_DISP =>
        if A =? 0 then
          Ok (write_lo16 isec rel s loc (Int.u64 (G + GOT - GP)) st)
        else
          a <- Got.get_got_addr symtab ctx (extra_got ctx) s
                 (Int.i64 A) ;;
          Ok (write_lo16 isec rel s loc (Int.u64 (a - GP)) st)
    | AC_GOT_HI16 =>
        Ok (write_hi16 isec rel s loc (Int.u64 (G + GOT - GP)) st)
    | AC_GOT_LO16 =>
        Ok (write_lo16 isec rel s loc (Int.u64 (G + GOT - GP)) st)
    | AC_GOT_PAGE =>
        a <- Got.get_gotpage_got_addr symtab ctx (extra_got ctx) s
               (Int.i64 A) ;;
        Ok (write_lo16 isec rel s loc (Int.u64 (a - GP)) st)
    | AC_GOT_OFST => Ok (write_lo16 isec rel s loc 0 st)
    | AC_JALR => Ok st
    | AC_TLS_TPREL_HI16 =>
        Ok (write_hi16 isec rel s loc (Int.u64 (S + A - tp_addr ctx)) st)
    | AC_TLS_TPREL_LO16 =>
        Ok (write_lo16_nc loc (Int.u64 (S + A - tp_addr ctx)) st)
    | AC_TLS_GOTTPREL =>
        Ok (write_lo16 isec rel s loc
                       (Int.u64 (gottp_addr (symtab s) - GP)) st)
    | AC_TLS_DTPREL_HI16 =>
        Ok (write_hi16 isec rel s loc (Int.u64 (S + A - dtp_addr ctx)) st)
    | AC_TLS_DTPREL_LO16 =>
        Ok (write_lo16_nc loc (Int.u64 (S + A - dtp_addr ctx)) st)
    | AC_TLS_GD =>
        Ok (write_lo16 isec rel s loc
                       (Int.u64 (tlsgd_addr (symtab s) - GP)) st)
    | AC_TLS_LDM =>
        Ok (write_lo16 isec rel s loc
                       (Int.u64 (got_tlsld_addr ctx - GP)) st)
    | AC_default => Undefined UnreachableExecuted
    end.

(** The relocations of allocated sections whose 16-bit field is
    range-checked, and the value the specification (section 4.4) gives
    for the field of each: [G + GOT - GP] for the call and GOT forms, the
    address of the pool slot, of the TLS slot or of the module slot
    minus [GP] for the others. *)
Definition lo16_checked : list Z :=
  [R_MIPS_CALL16; R_MIPS_CALL_LO16; R_MIPS_GOT_LO16; R_MIPS_GOT_DISP;
   R_MIPS_GOT_PAGE; R_MIPS_TLS_GOTTPREL; R_MIPS_TLS_GD; R_MIPS_TLS_LDM].

Definition lo16_value (isec : InputSection) (ctx : Context) (rel : ElfRel)
  : result Z :=
  let s := file_symbols (isec_file isec) (r_sym rel) in
  let GP := gp_addr ctx in
  let slot := Int.u64 (Int.u64 (got_idx (symtab s) * Int.word_size)
                       + got_sh_addr ctx - GP) in
  let ty := r_type rel in
  if ty =? R_MIPS_GOT_DISP then
    if r_addend rel =? 0 then Ok slot
    else a <- Got.get_got_addr symtab ctx (extra_got ctx) s (r_addend rel) ;;
         Ok (Int.u64 (a - GP))
  else if ty =? R_MIPS_GOT_PAGE then
    a <- Got.get_gotpage_got_addr symtab ctx (extra_got ctx) s
           (r_addend rel) ;;
    Ok (Int.u64 (a - GP))
  else if ty =? R_MIPS_TLS_GOTTPREL then
    Ok (Int.u64 (gottp_addr (symtab s) - GP))
  else if ty =? R_MIPS_TLS_GD then
    Ok (Int.u64 (tlsgd_addr (symtab s) - GP))
  else if ty =? R_MIPS_TLS_LDM then
    Ok (Int.u64 (got_tlsld_addr ctx - GP))
  else Ok slot.

Fixpoint apply_loop (isec : InputSection) (base : Z)
         (rels : list ElfRel) (st : ApplyState) : result ApplyState :=
  match rels with
  | [] => Ok st
  | rel :: rels' =>
      st' <- apply_reloc isec base st rel ;;
      apply_loop isec base rels' st'
  end.

Definition apply_reloc_alloc (isec : InputSection) (base : Z)
           (ctx : Context) (m : Mem.image) : result ApplyState :=
  let dynrel :=
    match reldyn_sh_offset ctx with
    | Some off =>
        Some (off + file_reldyn_offset (isec_file isec)
              + isec_reldyn_offset isec)
    | None => None
    end in
  apply_loop isec base (isec_rels isec) (mkApply ctx m dynrel).

(** *** [apply_reloc_nonalloc] *)

Definition apply_nonalloc_reloc (isec : InputSection) (base : Z)
           (st : Context * Mem.image) (rel : ElfRel)
  : result (Context * Mem.image) :=
  let '(ctx, m) := st in
  if r_type rel =? R_NONE then Ok (ctx, m)
  else
    let '(undef, ctx) := record_undef_error ctx isec rel in
    if undef then Ok (ctx, m)
    else
      let s := file_symbols (isec_file isec) (r_sym rel) in
      let loc := base + r_offset rel in
      let '(frag, frag_addend) := get_fragment ctx isec rel in
      let S := match frag with
               | Some f => frag_addr f
               | None => addr (symtab s)
               end in
      let A := match frag with
               | Some _ => Int.u64 frag_addend
               | None => Int.u64 (get_addend m loc rel)
               end in
      if r_type rel =? R_MIPS_64 then
        match get_tombstone isec s frag with
        | Some val => Ok (ctx, Mem.store (big_endian E) 8 loc val m)
        | None => Ok (ctx, Mem.store (big_endian E) 8 loc
                                     (Int.u64 (S + A)) m)
        end
      else if r_type rel =? R_MIPS_32 then
        Ok (ctx, Mem.store (big_endian E) 4 loc (Int.u64 (S + A)) m)
      else Fatal (InvalidNonallocRelocation rel).

Fixpoint apply_nonalloc_loop (isec : InputSection) (base : Z)
         (rels : list ElfRel) (st : Context * Mem.image)
  : result (Context * Mem.image) :=
  match rels with
  | [] => Ok st
  | rel :: rels' =>
      st' <- apply_nonalloc_reloc isec base st rel ;;
      apply_nonalloc_loop isec base rels' st'
  end.

Definition apply_reloc_nonalloc (isec : InputSection) (base : Z)
           (ctx : Context) (m : Mem.image)
  : result (Context * Mem.image) :=
  apply_nonalloc_loop isec base (isec_rels isec) (ctx, m).

(** *** [EhFrameSection::apply_eh_reloc]

    [eh_offset] and [eh_addr] are the [sh_offset] and [sh_addr] of the
    section. *)
Definition apply_eh_reloc (eh_offset eh_addr : Z) (rel : ElfRel)
           (offset val : Z) (m : Mem.image) : result Mem.image :=
  let loc := eh_offset + offset in
  if r_type rel =? R_NONE then Ok m
  else if r_type rel =? R_MIPS_64 then
    Ok (Mem.store (big_endian E) 8 loc
                  (Int.u64 (val - eh_addr - offset)) m)
  else Fatal (UnsupportedEhFrameRelocation rel).

End WithCollaborators.
End Reloc.

(** ** The CIE rewriter *)

Module Cie.

(** [buf] points to a CIE record; the record is a finite sequence of
    bytes and reading past its end leaves the defined behaviour. *)
Definition read (buf : list byte) (i : nat) : result Z :=
  match nth_error buf i with
  | Some b => Ok (byte.unsigned b)
  | None => Undefined ReadPastEnd
  end.

(** [*ptr = v], for a [ptr] that was just read. *)
Fixpoint write (buf : list byte) (i : nat) (v : byte) : list byte :=
  match buf, i with
  | [], _ => []
  | _ :: t, O => v :: t
  | h :: t, S k => h :: write t k v
  end.

(** [strlen] *)
Fixpoint strlen (s : list byte) : result nat :=
  match s with
  | [] => Undefined ReadPastEnd
  | b :: s' =>
      if byte.unsigned b =? 0 then Ok O
      else n <- strlen s' ;; Ok (S n)
  end.

(** Modelled from the spec: [read_uleb] is a helper of the repository
    that is not in this file; it is used here to skip a ULEB128 number,
    whose last byte is the first one with the top bit clear.  Only the
    movement of the cursor is modelled. *)
Fixpoint uleb_length (s : list byte) : result nat :=
  match s with
  | [] => Undefined ReadPastEnd
  | b :: s' =>
      if Z.testbit (byte.unsigned b) 7
      then n <- uleb_length s' ;; Ok (S n)
      else Ok 1%nat
  end.

Definition read_uleb (buf : list byte) (p : nat) : result nat :=
  n <- uleb_length (skipn p buf) ;; Ok (p + n)%nat.

(** The first [switch] of the lambda [rewrite]: the size of a value
    with encoding [b]. *)
Definition pointer_size (b : Z) : result Z :=
  let n := Z.land b 15 in
  if n =? DW_EH_PE_absptr then Ok Int.word_size
  else if (n =? DW_EH_PE_udata4) || (n =? DW_EH_PE_sdata4) then Ok 4
  else if (n =? DW_EH_PE_udata8) || (n =? DW_EH_PE_sdata8) then Ok 8
  else Fatal UnknownPointerSize.

(** The lambda [rewrite]: the new bytes and the size it returns. *)
Definition rewrite (buf : list byte) (ptr : nat)
  : result (list byte * Z) :=
  b <- read buf ptr ;;
  sz <- pointer_size b ;;
  if Z.land b 112 =? DW_EH_PE_absptr then
    if sz =? 4 then
      Ok (write buf ptr
            (byte.of_Z (Z.lor (Z.lor (Z.land b 128) DW_EH_PE_pcrel)
                              DW_EH_PE_sdata4)), sz)
    else
      Ok (write buf ptr
            (byte.of_Z (Z.lor (Z.lor (Z.land b 128) DW_EH_PE_pcrel)
                              DW_EH_PE_sdata8)), sz)
  else Ok (buf, sz).

(** The loop over the augmentation string: [aug] and [p] are offsets
    into the record.  Every iteration reads [buf[aug]] and moves [aug]
    forward, so a fuel of one more than the length of the record is
    never used up. *)
Fixpoint aug_loop (fuel : nat) (ctx : Context) (buf : list byte)
         (aug p : nat) : result (Context * list byte) :=
  match fuel with
  | O => Undefined OutOfFuel
  | S fuel' =>
      c <- read buf aug ;;
      if c =? 0 then Ok (ctx, buf)
      else if (c =? 76 (* 'L' *)) || (c =? 82 (* 'R' *)) then
        r <- rewrite buf p ;;
        aug_loop fuel' ctx (fst r) (S aug) (S p)
      else if c =? 80 (* 'P' *) then
        r <- rewrite buf p ;;
        aug_loop fuel' ctx (fst r) (S aug) (p + Z.to_nat (snd r) + 1)%nat
      else if (c =? 83 (* 'S' *)) || (c =? 66 (* 'B' *)) then
        aug_loop fuel' ctx buf (S aug) p
      else
        aug_loop fuel' (report ctx (UnknownAugmentation (byte.of_Z c)))
                 buf (S aug) p
  end.

Definition mips_rewrite_cie (ctx : Context) (buf : list byte)
  : result (Context * list byte) :=
  let aug := 9%nat in
  c <- read buf aug ;;
  if negb (c =? 122 (* 'z' *)) then Ok (ctx, buf)
  else
    let aug := S aug in
    n <- strlen (skipn aug buf) ;;
    let p := (aug + n + 1)%nat in
    p <- read_uleb buf p ;;
    p <- read_uleb buf p ;;
    let p := S p in
    p <- read_uleb buf p ;;
    aug_loop (S (length buf)) ctx buf aug p.

End Cie.

(** ** A small link, used to exercise the definitions *)

Module Sample.

Definition E : Target := mkTarget false 4611 4611.

(** Symbol objects: pointers [2k] and [2k+1] are the entries [1] and
    [2] of the file of priority [2 + k]; pointer [1] is imported from a
    shared object. *)
Definition symtab (p : SymPtr) : Symbol :=
  mkSymbol (2 + Z.of_nat (Nat.div p 2))         (* file_priority *)
           (1 + Z.of_nat (Nat.modulo p 2))      (* sym_idx *)
           (Nat.eqb p 1)                        (* is_imported *)
           true                                 (* is_relative *)
           (Nat.eqb p 0)                        (* is_local *)
           (Nat.eqb p 1)                        (* file_is_dso *)
           false                                (* esym_is_undef *)
           (65536 + 16 * Z.of_nat p)            (* addr *)
           (65536 + 16 * Z.of_nat p)            (* addr_no_plt *)
           (3000 * Z.of_nat p)                  (* got_idx *)
           (131200 + 8 * Z.of_nat p)            (* gottp_addr *)
           (131264 + 16 * Z.of_nat p)           (* tlsgd_addr *)
           (1 + Z.of_nat p).                    (* dynsym_idx *)

(** The pools as the scanners left them, and the same pairs appended in
    the opposite order. *)
Definition got : MipsGotSection :=
  mkGot [mkSymbolAddend 2 8; mkSymbolAddend 0 4;
         mkSymbolAddend 2 8; mkSymbolAddend 1 16]
        [mkSymbolAddend 3 0; mkSymbolAddend 0 0; mkSymbolAddend 3 0]
        131072 4096 0 0.

Definition got_reversed : MipsGotSection :=
  mkGot (rev (got_syms got)) (rev (gotpage_syms got))
        131072 4096 0 0.

Definition ctx : Context :=
  mkContext true [None; Some 0%nat; Some 1%nat]
            163824 131072 131328 196608 163840 (Some 8192) false
            got (fun _ => 0) [].

(** The context once the GOT section is laid out. *)
Definition ctx_final : Context :=
  set_extra_got ctx (Got.update_shdr symtab ctx got).

Definition file : ObjectFile := mkFile Z.to_nat 0 0 0.

Definition isec : InputSection := mkIsec file [] 65536 true 0.

(** Flag values and collaborators for a link without undefined symbols,
    fragments or tombstones. *)
Definition NEEDS_GOT : Z := 1.
Definition NEEDS_GOTTP : Z := 8.
Definition NEEDS_TLSGD : Z := 16.

Definition record_undef_error (c : Context) (_ : InputSection)
           (_ : ElfRel) : bool * Context := (false, c).

Definition scan_toc_rel (c : Context) (_ : InputSection) (_ : SymPtr)
           (_ : ElfRel) : Context := c.

Definition check_tlsle (c : Context) (_ : InputSection) (_ : SymPtr)
           (_ : ElfRel) : Context := c.

Definition apply_toc_rel (st : ApplyState) (_ : InputSection) (_ : SymPtr)
           (_ : ElfRel) (_ _ _ _ : Z) : ApplyState := st.

Definition get_fragment (_ : Context) (_ : InputSection) (_ : ElfRel)
  : option SectionFragment * Z := (None, 0).

Definition get_tombstone (_ : InputSection) (_ : SymPtr)
           (_ : option SectionFragment) : option Z := None.

Definition get_addend (_ : Mem.image) (_ : Z) (rel : ElfRel) : Z :=
  r_addend rel.

Definition image : Mem.image := fun _ => Byte.x00.

Definition state : ApplyState := mkApply ctx_final image (Some 8192).

(** A call through the GOT slot of symbol [2], one through a slot too
    far from [GP], a GOT reference with and without addend, and an
    absolute reference. *)
Definition rel_call16 : ElfRel := mkRel 16 R_MIPS_CALL16 2 0.
Definition rel_call16_far : ElfRel := mkRel 20 R_MIPS_CALL16 3 0.
Definition rel_got_disp : ElfRel := mkRel 24 R_MIPS_GOT_DISP 1 0.
Definition rel_got_disp_addend : ElfRel := mkRel 28 R_MIPS_GOT_DISP 2 8.
Definition rel_abs64 : ElfRel := mkRel 32 R_MIPS_64 3 4.

(** A CIE without augmentation, and one with the augmentation ["zR"]:
    length, CIE id, version, augmentation string, code and data
    alignment, return address register, augmentation data. *)
Definition cie_plain : list byte :=
  map byte.of_Z [16; 0; 0; 0; 0; 0; 0; 0; 1; 0; 1; 120; 31; 12; 29; 0].

Definition cie_zR : list byte :=
  map byte.of_Z [20; 0; 0; 0; 0; 0; 0; 0; 1; 122; 82; 0; 1; 120; 31;
                 1; 0; 12; 29; 0].

(** The augmentation ["zXR"], with a character the rewriter does not
    know in front of the encoding of the FDE pointers, and ["zR"] with an
    encoding of unknown size ([DW_EH_PE_udata2]). *)
Definition cie_zXR : list byte :=
  map byte.of_Z [20; 0; 0; 0; 0; 0; 0; 0; 1; 122; 88; 82; 0; 1; 120; 31;
                 1; 0; 12; 29; 0].

Definition cie_zR_udata2 : list byte :=
  map byte.of_Z [20; 0; 0; 0; 0; 0; 0; 0; 1; 122; 82; 0; 1; 120; 31;
                 1; 2; 12; 29; 0].

End Sample.

(* ================================================================== *)
(** * Part II: properties *)
(* ================================================================== *)

(** ** Fixed-width arithmetic *)

Module IntFacts.

Lemma u64_range x : 0 <= Int.u64 x < 2 ^ 64.
Proof. unfold Int.u64. apply Z.mod_pos_bound. lia. Qed.

Lemma u64_small x : 0 <= x < 2 ^ 64 -> Int.u64 x = x.
Proof. intros H. unfold Int.u64. apply Z.mod_small. exact H. Qed.

Lemma u64_idem x : Int.u64 (Int.u64 x) = Int.u64 x.
Proof. unfold Int.u64. apply Z.mod_mod. lia. Qed.

Lemma u64_add_l x y : Int.u64 (Int.u64 x + y) = Int.u64 (x + y).
Proof. unfold Int.u64. apply Zplus_mod_idemp_l. Qed.

Lemma u64_add_r x y : Int.u64 (x + Int.u64 y) = Int.u64 (x + y).
Proof. unfold Int.u64. apply Zplus_mod_idemp_r. Qed.

Lemma i64_range x : - 2 ^ 63 <= Int.i64 x < 2 ^ 63.
Proof.
  unfold Int.i64.
  pose proof (Z.mod_pos_bound (x + 2 ^ 63) (2 ^ 64)). lia.
Qed.

Lemma i64_small x : - 2 ^ 63 <= x < 2 ^ 63 -> Int.i64 x = x.
Proof.
  intros H. unfold Int.i64. rewrite Z.mod_small; lia.
Qed.

(** Reading a [u64] conversion back as an [i64] gives the [i64]. *)
Lemma i64_u64 x : Int.i64 (Int.u64 x) = Int.i64 x.
Proof.
  unfold Int.i64, Int.u64. rewrite Zplus_mod_idemp_l. reflexivity.
Qed.

Lemma u64_i64 x : Int.u64 (Int.i64 x) = Int.u64 x.
Proof.
  unfold Int.i64, Int.u64.
  rewrite Zminus_mod_idemp_l.
  f_equal. lia.
Qed.

Lemma sign_extend16_low x :
  Int.sign_extend16 (Z.land x 65535) = Int.sign_extend16 x.
Proof.
  unfold Int.sign_extend16.
  change 65535 with (Z.ones 16). rewrite Z.land_ones by lia.
  rewrite Zplus_mod_idemp_l. reflexivity.
Qed.

End IntFacts.

(** ** The split of a 32-bit value into immediate halves *)

Module SplitFacts.

Lemma lo16_u64 val : Reloc.lo16 (Int.u64 val) = val mod 2 ^ 16.
Proof.
  unfold Reloc.lo16, Int.u64.
  change 65535 with (Z.ones 16). rewrite Z.land_ones by lia.
  apply Z.mod_mod_divide. exists (2 ^ 48). lia.
Qed.

Lemma hi16_u64 val :
  Reloc.hi16 (Int.u64 val) = ((val + Reloc.BIAS) / 2 ^ 16) mod 2 ^ 16.
Proof.
  unfold Reloc.hi16.
  rewrite IntFacts.u64_add_l.
  change 65535 with (Z.ones 16). rewrite Z.land_ones by lia.
  rewrite Z.shiftr_div_pow2 by lia.
  unfold Int.u64.
  set (x := val + Reloc.BIAS).
  pose proof (Z.div_mod x (2 ^ 64) ltac:(lia)) as Hx.
  pose proof (Z.mod_pos_bound x (2 ^ 64) ltac:(lia)) as Hb.
  assert (Hq : x mod 2 ^ 64 / 2 ^ 16 = x / 2 ^ 16 - 2 ^ 48 * (x / 2 ^ 64)).
  { symmetry. apply Z.div_unique with (r := x mod 2 ^ 16).
    - left. apply Z.mod_pos_bound. lia.
    - pose proof (Z.div_mod x (2 ^ 16) ltac:(lia)). lia. }
  rewrite Hq.
  replace (x / 2 ^ 16 - 2 ^ 48 * (x / 2 ^ 64))
    with (x / 2 ^ 16 + (- (2 ^ 32 * (x / 2 ^ 64))) * 2 ^ 16) by lia.
  apply Z.mod_add. lia.
Qed.

(** C4.  For every 32-bit signed value [val], with
    [hi = (val + 0x8000) >> 16] and [lo = val & 0xffff], the sum
    [(hi << 16) + sign_extend16(lo)] is [val].  The fields that
    [write_hi16] and [write_lo16] store for the 64-bit form of [val]
    are the low 16 bits of [hi] and [lo] itself, and the processor's
    32-bit reconstruction from the stored fields is [val] again. *)
Theorem hi_lo_split_reconstructs (val : Z) :
  - 2 ^ 31 <= val < 2 ^ 31 ->
  let hi := Z.shiftr (val + Reloc.BIAS) 16 in
  let lo := Z.land val 65535 in
  Z.shiftl hi 16 + Int.sign_extend16 lo = val
  /\ Reloc.hi16 (Int.u64 val) = Z.land hi 65535
  /\ Reloc.lo16 (Int.u64 val) = lo
  /\ Int.sign_extend32
       (Z.shiftl (Reloc.hi16 (Int.u64 val)) 16
        + Int.sign_extend16 (Reloc.lo16 (Int.u64 val))) = val.
Proof.
  intros Hr hi lo. subst hi lo.
  rewrite hi16_u64, lo16_u64.
  change 65535 with (Z.ones 16). rewrite !Z.land_ones by lia.
  rewrite Z.shiftr_div_pow2 by lia.
  rewrite !Z.shiftl_mul_pow2 by lia.
  unfold Int.sign_extend16, Int.sign_extend32, Reloc.BIAS.
  rewrite Zplus_mod_idemp_l.
  pose proof (Z.div_mod val (2 ^ 16) ltac:(lia)) as Hv.
  pose proof (Z.mod_pos_bound val (2 ^ 16) ltac:(lia)) as Hb.
  set (q := val / 2 ^ 16) in *. set (r := val mod 2 ^ 16) in *.
  assert (Hhi : (val + 32768) / 2 ^ 16 = if r <? 32768 then q else q + 1).
  { destruct (Z.ltb_spec r 32768).
    - symmetry. apply Z.div_unique with (r := r + 32768); lia.
    - symmetry. apply Z.div_unique with (r := r - 32768); lia. }
  assert (Hlo : (val + 2 ^ 15) mod 2 ^ 16 - 2 ^ 15
                = if r <? 32768 then r else r - 2 ^ 16).
  { destruct (Z.ltb_spec r 32768).
    - rewrite <- (Z.mod_unique (val + 2 ^ 15) (2 ^ 16) q (r + 2 ^ 15));
        lia.
    - rewrite <- (Z.mod_unique (val + 2 ^ 15) (2 ^ 16) (q + 1)
                               (r - 2 ^ 15)); lia. }
  rewrite Hhi, Hlo.
  assert (Hsum : (if r <? 32768 then q else q + 1) * 2 ^ 16
                 + (if r <? 32768 then r else r - 2 ^ 16) = val).
  { destruct (r <? 32768); lia. }
  split; [exact Hsum|]. split; [reflexivity|]. split; [reflexivity|].
  set (h := if r <? 32768 then q else q + 1) in *.
  set (l := if r <? 32768 then r else r - 2 ^ 16) in *.
  pose proof (Z.div_mod h (2 ^ 16) ltac:(lia)) as Hh.
  pose proof (Z.mod_pos_bound h (2 ^ 16) ltac:(lia)) as Hhb.
  rewrite <- (Z.mod_unique (h mod 2 ^ 16 * 2 ^ 16 + l + 2 ^ 31) (2 ^ 32)
                           (- (h / 2 ^ 16)) (val + 2 ^ 31)); lia.
Qed.

(** The values the specification lists. *)
Lemma hi_lo_split_reconstructs_witness :
  (Z.shiftl (Z.shiftr (0 + Reloc.BIAS) 16) 16
   + Int.sign_extend16 (Z.land 0 65535) = 0)
  /\ (Z.shiftl (Z.shiftr (32767 + Reloc.BIAS) 16) 16
      + Int.sign_extend16 (Z.land 32767 65535) = 32767)
  /\ (Z.shiftl (Z.shiftr (32768 + Reloc.BIAS) 16) 16
      + Int.sign_extend16 (Z.land 32768 65535) = 32768)
  /\ (Z.shiftl (Z.shiftr (-1 + Reloc.BIAS) 16) 16
      + Int.sign_extend16 (Z.land (-1) 65535) = -1)
  /\ (Z.shiftl (Z.shiftr (-32768 + Reloc.BIAS) 16) 16
      + Int.sign_extend16 (Z.land (-32768) 65535) = -32768)
  /\ (Z.shiftl (Z.shiftr (2147483647 + Reloc.BIAS) 16) 16
      + Int.sign_extend16 (Z.land 2147483647 65535) = 2147483647)
  /\ (Z.shiftl (Z.shiftr (-2147483648 + Reloc.BIAS) 16) 16
      + Int.sign_extend16 (Z.land (-2147483648) 65535) = -2147483648).
Proof.
  split; [apply (proj1 (hi_lo_split_reconstructs 0 ltac:(lia)))|].
  split; [apply (proj1 (hi_lo_split_reconstructs 32767 ltac:(lia)))|].
  split; [apply (proj1 (hi_lo_split_reconstructs 32768 ltac:(lia)))|].
  split; [apply (proj1 (hi_lo_split_reconstructs (-1) ltac:(lia)))|].
  split; [apply (proj1 (hi_lo_split_reconstructs (-32768) ltac:(lia)))|].
  split; [apply (proj1 (hi_lo_split_reconstructs 2147483647 ltac:(lia)))|].
  apply (proj1 (hi_lo_split_reconstructs (-2147483648) ltac:(lia))).
Defined.

End SplitFacts.

(** ** The pools of the GOT section *)

Module PoolFacts.
Section WithHeap.

Variable symtab : SymPtr -> Symbol.

Abbreviation lt := (Got.operator_lt symtab).
Abbreviation key := (Got.sort_key symtab).

(** *** The order on keys *)

Lemma tuple_lt_spec (a b : Z * Z * Z) :
  Got.tuple_lt a b = true <->
  (fst (fst a) < fst (fst b)
   \/ (fst (fst a) = fst (fst b)
       /\ (snd (fst a) < snd (fst b)
           \/ (snd (fst a) = snd (fst b) /\ snd a < snd b)))).
Proof.
  destruct a as [[a1 a2] a3], b as [[b1 b2] b3]. simpl.
  rewrite !orb_true_iff, !andb_true_iff, !negb_true_iff.
  rewrite !orb_true_iff, !andb_true_iff, !negb_true_iff.
  rewrite !Z.ltb_lt, !Z.ltb_ge. lia.
Qed.

Lemma tuple_lt_false (a b : Z * Z * Z) :
  Got.tuple_lt a b = false <->
  ~ (fst (fst a) < fst (fst b)
     \/ (fst (fst a) = fst (fst b)
         /\ (snd (fst a) < snd (fst b)
             \/ (snd (fst a) = snd (fst b) /\ snd a < snd b)))).
Proof.
  rewrite <- tuple_lt_spec. destruct (Got.tuple_lt a b); split; intros H.
  - discriminate.
  - exfalso. apply H. reflexivity.
  - discriminate.
  - reflexivity.
Qed.

Lemma lt_irrefl a : lt a a = false.
Proof. unfold Got.operator_lt. apply tuple_lt_false. lia. Qed.

Lemma lt_trans a b c : lt a b = true -> lt b c = true -> lt a c = true.
Proof.
  unfold Got.operator_lt. rewrite !tuple_lt_spec. lia.
Qed.

Lemma lt_asym a b : lt a b = true -> lt b a = false.
Proof.
  unfold Got.operator_lt. rewrite tuple_lt_spec, tuple_lt_false. lia.
Qed.

(** [a <= b], that is [!(b < a)], composes with itself and with [<]. *)
Lemma le_trans a b c : lt b a = false -> lt c b = false -> lt c a = false.
Proof.
  unfold Got.operator_lt. rewrite !tuple_lt_false. lia.
Qed.

Lemma lt_le_trans a b c : lt a b = true -> lt c b = false -> lt a c = true.
Proof.
  unfold Got.operator_lt. rewrite tuple_lt_false, !tuple_lt_spec. lia.
Qed.

(** Entries that compare equivalent have the same key. *)
Lemma equivalent_same_key a b :
  lt a b = false -> lt b a = false -> key a = key b.
Proof.
  unfold Got.operator_lt. rewrite !tuple_lt_false.
  destruct (key a) as [[a1 a2] a3], (key b) as [[b1 b2] b3]. simpl.
  intros H1 H2.
  assert (a1 = b1) by lia. assert (a2 = b2) by lia. assert (a3 = b3) by lia.
  congruence.
Qed.

Lemma operator_eq_spec a b :
  Got.operator_eq symtab a b = true <-> key a = key b.
Proof.
  unfold Got.operator_eq, Got.sort_key.
  rewrite !andb_true_iff, !Z.eqb_eq. split.
  - intros [[Hp Hi] Ha]. rewrite Hp, Hi, Ha. reflexivity.
  - intros H. injection H as Hp Hi Ha. split; [split|]; assumption.
Qed.

(** The order reads the keys only. *)
Lemma lt_key_l a a' b : key a = key a' -> lt a b = lt a' b.
Proof. unfold Got.operator_lt. intros Hk. rewrite Hk. reflexivity. Qed.

Lemma lt_key_r a b b' : key b = key b' -> lt a b = lt a b'.
Proof. unfold Got.operator_lt. intros Hk. rewrite Hk. reflexivity. Qed.

Lemma lt_keys_differ a b : lt a b = true -> key a <> key b.
Proof.
  intros Hlt Hk. rewrite (lt_key_l a b b Hk), lt_irrefl in Hlt.
  discriminate.
Qed.

Lemma lt_not_eq a b : lt a b = true -> Got.operator_eq symtab a b = false.
Proof.
  intros Hlt. destruct (Got.operator_eq symtab a b) eqn:He; [|reflexivity].
  apply operator_eq_spec in He. destruct (lt_keys_differ a b Hlt He).
Qed.

(** Under the invariant on symbol objects, entries with one key are one
    entry. *)
Lemma same_key_same_entry l a b :
  Got.symbols_identified symtab l -> In a l -> In b l ->
  key a = key b -> a = b.
Proof.
  intros Hid Ha Hb Hk. unfold Got.sort_key in Hk. inversion Hk.
  destruct a as [sa aa], b as [sb ab]. simpl in *.
  f_equal; [|assumption].
  apply (Hid _ _ Ha Hb); assumption.
Qed.

(** *** [sort] *)

Lemma insert_perm x l : Permutation (Got.insert symtab x l) (x :: l).
Proof.
  induction l as [|y l IH]; simpl.
  - apply Permutation_refl.
  - destruct (lt y x).
    + apply Permutation_trans with (y :: x :: l).
      * apply perm_skip. exact IH.
      * apply perm_swap.
    + apply Permutation_refl.
Qed.

Lemma sort_perm l : Permutation (Got.sort symtab l) l.
Proof.
  induction l as [|x l IH]; simpl.
  - apply perm_nil.
  - apply Permutation_trans with (x :: Got.sort symtab l).
    + apply insert_perm.
    + apply perm_skip. exact IH.
Qed.

Abbreviation sorted := (Got.sorted symtab).
Abbreviation strictly_sorted := (Got.strictly_sorted symtab).

Lemma insert_sorted x l : sorted l -> sorted (Got.insert symtab x l).
Proof.
  unfold Got.sorted. induction l as [|y l IH]; simpl; intros Hs.
  - constructor; constructor.
  - inversion Hs as [|? ? Hl Hy]; subst.
    destruct (lt y x) eqn:Hyx.
    + constructor.
      * apply IH. exact Hl.
      * apply (Permutation_Forall (Permutation_sym (insert_perm x l))).
        constructor; [|exact Hy]. apply lt_asym. exact Hyx.
    + constructor; [exact Hs|].
      constructor; [exact Hyx|].
      rewrite Forall_forall in *. intros z Hz.
      apply le_trans with y; [exact Hyx|]. apply Hy. exact Hz.
Qed.

Lemma sort_sorted l : sorted (Got.sort symtab l).
Proof.
  induction l as [|x l IH]; simpl.
  - constructor.
  - apply insert_sorted. exact IH.
Qed.

(** *** [remove_duplicates] *)

Lemma unique_from_incl l : forall x z,
  In z (Got.unique_from symtab x l) -> z = x \/ In z l.
Proof.
  induction l as [|y l IH]; intros x z; cbn [Got.unique_from].
  - intros [Hz|[]]. left. symmetry. exact Hz.
  - destruct (Got.operator_eq symtab x y).
    + intros H. destruct (IH x z H) as [Hz|Hz];
        [left; exact Hz|right; right; exact Hz].
    + intros [Hz|H]; [left; symmetry; exact Hz|].
      destruct (IH y z H) as [Hz|Hz];
        [right; left; symmetry; exact Hz|right; right; exact Hz].
Qed.

(** Every entry is represented in the result by one with its key. *)
Lemma unique_from_represents l : forall x z,
  z = x \/ In z l ->
  exists z', In z' (Got.unique_from symtab x l) /\ key z' = key z.
Proof.
  induction l as [|y l IH]; intros x z Hz; cbn [Got.unique_from].
  - destruct Hz as [Hz|[]]. subst z.
    exists x. split; [left; reflexivity|reflexivity].
  - destruct (Got.operator_eq symtab x y) eqn:Hxy.
    + apply operator_eq_spec in Hxy.
      destruct Hz as [Hz|[Hz|Hz]].
      * apply IH. left. exact Hz.
      * subst z. destruct (IH x x (or_introl eq_refl)) as [z' [Hin Hk]].
        exists z'. split; [exact Hin|]. rewrite Hk. exact Hxy.
      * apply IH. right. exact Hz.
    + destruct Hz as [Hz|Hz].
      * subst z. exists x. split; [left; reflexivity|reflexivity].
      * assert (Hz' : z = y \/ In z l).
        { destruct Hz as [Hz|Hz]; [left; symmetry; exact Hz|right; exact Hz]. }
        destruct (IH y z Hz') as [z' [Hin Hk]].
        exists z'. split; [right; exact Hin|exact Hk].
Qed.

Lemma remove_duplicates_incl l x :
  In x (Got.remove_duplicates symtab l) -> In x l.
Proof.
  destruct l as [|a l]; cbn [Got.remove_duplicates]; [tauto|].
  intros H. destruct (unique_from_incl _ _ _ H) as [Hx|Hx];
    [left; symmetry; exact Hx|right; exact Hx].
Qed.

Lemma remove_duplicates_represents l x :
  In x l ->
  exists x', In x' (Got.remove_duplicates symtab l) /\ key x' = key x.
Proof.
  destruct l as [|a l]; cbn [Got.remove_duplicates]; [intros []|].
  intros H. apply unique_from_represents.
  destruct H as [Hx|Hx]; [left; symmetry; exact Hx|right; exact Hx].
Qed.

(** On a sorted sequence, the entries that stay are strictly
    increasing: no two of them have one key. *)
Lemma unique_from_strict l : forall x,
  sorted (x :: l) -> strictly_sorted (Got.unique_from symtab x l).
Proof.
  unfold Got.sorted, Got.strictly_sorted.
  induction l as [|y l IH]; intros x Hs; cbn [Got.unique_from].
  - constructor; constructor.
  - inversion Hs as [|? ? Hyl Hx]; subst.
    inversion Hx as [|? ? Hyx Hxl]; subst.
    inversion Hyl as [|? ? Hl Hy]; subst.
    destruct (Got.operator_eq symtab x y) eqn:Hxy.
    + apply IH. constructor; [exact Hl|exact Hxl].
    + constructor; [apply IH; exact Hyl|].
      assert (Hlt : lt x y = true).
      { destruct (lt x y) eqn:Hlt; [reflexivity|]. exfalso.
        assert (Hk : key x = key y)
          by (apply equivalent_same_key; assumption).
        apply operator_eq_spec in Hk. congruence. }
      rewrite Forall_forall. intros z Hz.
      destruct (unique_from_incl _ _ _ Hz) as [Hzy|Hzl];
        [subst z; exact Hlt|].
      apply lt_le_trans with y; [exact Hlt|].
      rewrite Forall_forall in Hy. apply Hy. exact Hzl.
Qed.

Lemma remove_duplicates_strict l :
  sorted l -> strictly_sorted (Got.remove_duplicates symtab l).
Proof.
  destruct l as [|a l]; cbn [Got.remove_duplicates].
  - intros _. constructor.
  - apply unique_from_strict.
Qed.

(** *** Strictly sorted sequences *)

Lemma strictly_sorted_sorted l : strictly_sorted l -> sorted l.
Proof.
  unfold Got.sorted, Got.strictly_sorted.
  induction 1 as [|a l Hl IH Ha]; constructor; [exact IH|].
  rewrite Forall_forall in *. intros b Hb. apply lt_asym. apply Ha. exact Hb.
Qed.

Lemma strictly_sorted_NoDup l : strictly_sorted l -> NoDup l.
Proof.
  unfold Got.strictly_sorted. induction 1 as [|a l Hl IH Ha]; constructor.
  - intros Hin. rewrite Forall_forall in Ha.
    specialize (Ha a Hin). rewrite lt_irrefl in Ha. discriminate.
  - exact IH.
Qed.

Lemma strictly_sorted_nth l :
  strictly_sorted l ->
  forall i j a b, (i < j)%nat ->
    nth_error l i = Some a -> nth_error l j = Some b -> lt a b = true.
Proof.
  unfold Got.strictly_sorted.
  induction 1 as [|c l Hl IH Hc]; intros i j a b Hij Hi Hj.
  - destruct i; discriminate Hi.
  - destruct j as [|j]; [lia|]. cbn [nth_error] in Hj.
    destruct i as [|i]; cbn [nth_error] in Hi.
    + injection Hi as <-. rewrite Forall_forall in Hc.
      apply Hc. apply (nth_error_In _ _ Hj).
    + apply (IH i j); [lia|exact Hi|exact Hj].
Qed.

(** Two strictly sorted sequences over the same keys carry the same
    keys at the same positions. *)
Lemma strictly_sorted_same_keys l1 :
  strictly_sorted l1 -> forall l2, strictly_sorted l2 ->
  (forall x, In x l1 -> exists y, In y l2 /\ key y = key x) ->
  (forall y, In y l2 -> exists x, In x l1 /\ key x = key y) ->
  Forall2 (fun a b => key a = key b) l1 l2.
Proof.
  unfold Got.strictly_sorted.
  induction 1 as [|a l1 Hl1 IH Ha]; intros l2 H2 H12 H21.
  - destruct l2 as [|b l2]; [constructor|].
    destruct (H21 b (or_introl eq_refl)) as [x [[] _]].
  - destruct H2 as [|b l2 Hl2 Hb].
    + destruct (H12 a (or_introl eq_refl)) as [y [[] _]].
    + rewrite Forall_forall in Ha, Hb.
      assert (Hab : key a = key b).
      { destruct (H12 a (or_introl eq_refl)) as [y [[Hy|Hy] Hky]];
          [subst y; symmetry; exact Hky|].
        destruct (H21 b (or_introl eq_refl)) as [x [[Hx|Hx] Hkx]];
          [subst x; exact Hkx|].
        exfalso. pose proof (Hb y Hy) as Hby. pose proof (Ha x Hx) as Hax.
        rewrite (lt_key_r b y a Hky) in Hby.
        rewrite (lt_key_r a x b Hkx) in Hax.
        apply lt_asym in Hby. congruence. }
      constructor; [exact Hab|]. apply IH; [exact Hl2| |].
      * intros x Hx. destruct (H12 x (or_intror Hx)) as [y [[Hy|Hy] Hky]].
        -- subst y. exfalso. apply (lt_keys_differ a x (Ha x Hx)). congruence.
        -- exists y. split; assumption.
      * intros y Hy. destruct (H21 y (or_intror Hy)) as [x [[Hx|Hx] Hkx]].
        -- subst x. exfalso. apply (lt_keys_differ b y (Hb y Hy)). congruence.
        -- exists x. split; assumption.
Qed.

(** Sequences with the same keys whose symbols are identified are the
    same sequence. *)
Lemma same_keys_identified l l1 : forall l2,
  Got.symbols_identified symtab l ->
  (forall x, In x l1 -> In x l) -> (forall x, In x l2 -> In x l) ->
  Forall2 (fun a b => key a = key b) l1 l2 -> l1 = l2.
Proof.
  intros l2 Hid H1 H2 HF. induction HF as [|a b l1 l2 Hab HF IH];
    [reflexivity|].
  f_equal.
  - apply (same_key_same_entry l); [exact Hid| | |exact Hab].
    + apply H1. left. reflexivity.
    + apply H2. left. reflexivity.
  - apply IH; intros x Hx; [apply H1|apply H2]; right; exact Hx.
Qed.

(** *** Finalization *)

Lemma finalize_strict l : strictly_sorted (Got.finalize symtab l).
Proof.
  unfold Got.finalize. apply remove_duplicates_strict. apply sort_sorted.
Qed.

Lemma finalize_sorted l : sorted (Got.finalize symtab l).
Proof. apply strictly_sorted_sorted. apply finalize_strict. Qed.

Lemma finalize_incl l x : In x (Got.finalize symtab l) -> In x l.
Proof.
  unfold Got.finalize. intros H.
  apply (Permutation_in _ (sort_perm l)).
  apply remove_duplicates_incl. exact H.
Qed.

Lemma finalize_represents l x :
  In x l -> exists x', In x' (Got.finalize symtab l) /\ key x' = key x.
Proof.
  unfold Got.finalize. intros H. apply remove_duplicates_represents.
  apply (Permutation_in _ (Permutation_sym (sort_perm l))). exact H.
Qed.

Lemma finalize_In l x :
  Got.symbols_identified symtab l ->
  (In x (Got.finalize symtab l) <-> In x l).
Proof.
  intros Hid. split; [apply finalize_incl|]. intros H.
  destruct (finalize_represents l x H) as [x' [Hin Hk]].
  rewrite <- (same_key_same_entry l x' x Hid
                (finalize_incl l x' Hin) H Hk).
  exact Hin.
Qed.

Lemma symbols_identified_perm l l' :
  Permutation l l' ->
  Got.symbols_identified symtab l -> Got.symbols_identified symtab l'.
Proof.
  intros Hp Hid a b Ha Hb. apply Hid.
  - apply (Permutation_in _ (Permutation_sym Hp)). exact Ha.
  - apply (Permutation_in _ (Permutation_sym Hp)). exact Hb.
Qed.

(** The keys of the finalized pool, position by position, do not depend
    on the order of arrival. *)
Lemma finalize_same_keys l l' :
  Permutation l l' ->
  Forall2 (fun a b => key a = key b)
          (Got.finalize symtab l) (Got.finalize symtab l').
Proof.
  intros Hp. apply strictly_sorted_same_keys; try apply finalize_strict.
  - intros x Hx. apply finalize_represents.
    apply (Permutation_in _ Hp). apply finalize_incl. exact Hx.
  - intros y Hy. apply finalize_represents.
    apply (Permutation_in _ (Permutation_sym Hp)).
    apply finalize_incl. exact Hy.
Qed.

Lemma finalize_perm l l' :
  Got.symbols_identified symtab l -> Permutation l l' ->
  Got.finalize symtab l = Got.finalize symtab l'.
Proof.
  intros Hid Hp. apply (same_keys_identified l); [exact Hid| | |].
  - apply finalize_incl.
  - intros x Hx. apply (Permutation_in _ (Permutation_sym Hp)).
    apply finalize_incl. exact Hx.
  - apply finalize_same_keys. exact Hp.
Qed.

(** *** [std::lower_bound] on a finalized pool *)

(** On a sorted pool, looking up an entry that is at position [i] gives
    the position of the first entry with its key. *)
Lemma lower_bound_first_with_key l :
  sorted l ->
  forall i e, nth_error l i = Some e ->
    let j := Got.lower_bound symtab l e in
    (j <= i)%nat
    /\ (exists e', nth_error l j = Some e' /\ key e' = key e)
    /\ (forall k e'', (k < j)%nat -> nth_error l k = Some e'' ->
          lt e'' e = true).
Proof.
  unfold Got.sorted. induction 1 as [|a l Hl IH Ha]; intros i e Hi.
  - destruct i; discriminate.
  - cbn [Got.lower_bound]. destruct (lt a e) eqn:Hae.
    + destruct i as [|i].
      * simpl in Hi. inversion Hi; subst.
        rewrite lt_irrefl in Hae. discriminate.
      * simpl in Hi. destruct (IH i e Hi) as [Hle [[e' [He' Hk]] Hbefore]].
        split; [lia|]. split.
        -- exists e'. split; [exact He'|exact Hk].
        -- intros k e'' Hk' Hnth. destruct k as [|k].
           ++ simpl in Hnth. inversion Hnth; subst. exact Hae.
           ++ simpl in Hnth. apply (Hbefore k); [lia|exact Hnth].
    + split; [lia|]. split.
      * exists a. split; [reflexivity|].
        destruct i as [|i].
        -- simpl in Hi. inversion Hi. reflexivity.
        -- simpl in Hi. apply equivalent_same_key; [exact Hae|].
           rewrite Forall_forall in Ha. apply Ha.
           apply (nth_error_In _ _ Hi).
      * intros k e'' Hk'. lia.
Qed.


Lemma lower_bound_position l :
  strictly_sorted l ->
  forall i e, nth_error l i = Some e -> Got.lower_bound symtab l e = i.
Proof.
  unfold Got.strictly_sorted. induction 1 as [|a l Hl IH Ha]; intros i e Hi.
  - destruct i; discriminate.
  - destruct i as [|i]; simpl in *.
    + inversion Hi; subst. rewrite lt_irrefl. reflexivity.
    + rewrite Forall_forall in Ha.
      rewrite (Ha e (nth_error_In _ _ Hi)).
      f_equal. apply IH. exact Hi.
Qed.

(** The lookup reads the key of the pair only. *)
Lemma lower_bound_key l x y :
  key x = key y -> Got.lower_bound symtab l x = Got.lower_bound symtab l y.
Proof.
  intros Hk. induction l as [|a l IH]; cbn [Got.lower_bound]; [reflexivity|].
  rewrite (lt_key_r a x y Hk), IH. reflexivity.
Qed.

End WithHeap.
End PoolFacts.

(** ** Layout of the GOT section *)

Module GotFacts.
Section WithHeap.

Variable symtab : SymPtr -> Symbol.

Lemma update_shdr_got_syms ctx this :
  got_syms (Got.update_shdr symtab ctx this)
  = Got.finalize symtab (got_syms this).
Proof. reflexivity. Qed.

Lemma update_shdr_gotpage_syms ctx this :
  gotpage_syms (Got.update_shdr symtab ctx this)
  = Got.finalize symtab (gotpage_syms this).
Proof. reflexivity. Qed.

(** C1.  Whatever the order in which the pairs were appended,
    [update_shdr] leaves each pool sorted by (file priority, symbol
    index, addend), strictly, so that no two of its entries are
    structurally equal; its entries are appended pairs and every
    appended pair is represented by an entry equal to it; and for two
    orders of arrival of the same pairs the two finalized pools are the
    same sequence: equal entry by entry, with the same keys at the same
    positions.  For the symbol objects of a link, which are identified
    by (file priority, symbol index), the two pools are the same list of
    (symbol, addend) pairs and hold exactly the appended pairs. *)
Theorem finalized_pools_sorted_deduplicated_order_independent
        (ctx : Context) (this this' : MipsGotSection) :
  Permutation (got_syms this) (got_syms this') ->
  Permutation (gotpage_syms this) (gotpage_syms this') ->
  let fin := Got.update_shdr symtab ctx this in
  let fin' := Got.update_shdr symtab ctx this' in
  let canonical (appended pool pool' : list SymbolAddend) :=
    Got.strictly_sorted symtab pool
    /\ (forall i j a b, (i < j)%nat ->
          nth_error pool i = Some a -> nth_error pool j = Some b ->
          Got.operator_lt symtab a b = true
          /\ Got.operator_eq symtab a b = false)
    /\ NoDup pool
    /\ (forall e, In e pool -> In e appended)
    /\ (forall e, In e appended ->
          exists e', In e' pool /\ Got.operator_eq symtab e' e = true)
    /\ Forall2 (fun a b => Got.operator_eq symtab a b = true) pool pool'
    /\ map (Got.sort_key symtab) pool = map (Got.sort_key symtab) pool'
    /\ (Got.symbols_identified symtab appended ->
          pool' = pool /\ forall e, In e pool <-> In e appended) in
  canonical (got_syms this) (got_syms fin) (got_syms fin')
  /\ canonical (gotpage_syms this) (gotpage_syms fin) (gotpage_syms fin').
Proof.
  intros Hgot Hpage fin fin' canonical.
  assert (H : forall l l', Permutation l l' ->
            canonical l (Got.finalize symtab l) (Got.finalize symtab l')).
  { intros l l' Hp.
    pose proof (PoolFacts.finalize_strict symtab l) as Hs.
    pose proof (PoolFacts.finalize_same_keys symtab l l' Hp) as Hk.
    split; [exact Hs|].
    split.
    { intros i j a b Hij Hi Hj.
      pose proof (PoolFacts.strictly_sorted_nth symtab _ Hs i j a b Hij Hi Hj)
        as Hlt.
      split; [exact Hlt|apply PoolFacts.lt_not_eq; exact Hlt]. }
    split; [apply (PoolFacts.strictly_sorted_NoDup symtab); exact Hs|].
    split; [intros e; apply PoolFacts.finalize_incl|].
    split.
    { intros e He.
      destruct (PoolFacts.finalize_represents symtab l e He) as [e' [Hin Hke]].
      exists e'. split; [exact Hin|].
      apply PoolFacts.operator_eq_spec. exact Hke. }
    split.
    { clear -Hk. induction Hk as [|a b l1 l2 Hab Hk IH]; constructor;
        [apply PoolFacts.operator_eq_spec; exact Hab|exact IH]. }
    split.
    { clear -Hk. induction Hk as [|a b l1 l2 Hab Hk IH]; [reflexivity|].
      cbn [map]. rewrite Hab, IH. reflexivity. }
    intros Hid. split.
    - symmetry. apply PoolFacts.finalize_perm; assumption.
    - intros e. apply PoolFacts.finalize_In. exact Hid. }
  subst fin fin'.
  rewrite !update_shdr_got_syms, !update_shdr_gotpage_syms.
  split; apply H; assumption.
Qed.

(** *** Slot addresses *)

Lemma u64_mul_i64 x k : Int.u64 (Int.i64 x * k) = Int.u64 (x * k).
Proof.
  unfold Int.u64 at 1. rewrite <- Zmult_mod_idemp_l.
  fold (Int.u64 (Int.i64 x)). rewrite IntFacts.u64_i64.
  unfold Int.u64. rewrite Zmult_mod_idemp_l. reflexivity.
Qed.

Lemma update_shdr_size ctx this :
  sh_size (Got.update_shdr symtab ctx this)
  = Int.u64 ((Got.NUM_RESERVED
              + Z.of_nat (length (dynsym_symbols ctx))
              + Z.of_nat (length (Got.finalize symtab (got_syms this)))
              + Z.of_nat (length (Got.finalize symtab (gotpage_syms this))))
             * Int.word_size).
Proof. unfold Got.update_shdr. simpl. apply u64_mul_i64. Qed.

Lemma get_got_addr_lookup ctx sec i e :
  Got.sorted symtab (got_syms sec) ->
  nth_error (got_syms sec) i = Some e ->
  Got.get_got_addr symtab ctx sec (sym e) (addend e)
  = Ok (Int.u64 (sh_addr sec
                 + (Got.NUM_RESERVED
                    + Z.of_nat (length (dynsym_symbols ctx))
                    + Z.of_nat (Got.lower_bound symtab (got_syms sec) e))
                   * Int.word_size)).
Proof.
  intros Hs Hi. unfold Got.get_got_addr.
  replace (mkSymbolAddend (sym e) (addend e)) with e by (destruct e; reflexivity).
  destruct (PoolFacts.lower_bound_first_with_key symtab _ Hs i e Hi)
    as [Hle _].
  assert (Hlt : (Got.lower_bound symtab (got_syms sec) e
                 < length (got_syms sec))%nat).
  { apply Nat.le_lt_trans with i; [exact Hle|].
    apply nth_error_Some. congruence. }
  apply Nat.ltb_lt in Hlt. rewrite Hlt. cbn [assert bind].
  rewrite u64_mul_i64, IntFacts.u64_add_r. reflexivity.
Qed.

Lemma get_gotpage_got_addr_lookup ctx sec j e :
  Got.sorted symtab (gotpage_syms sec) ->
  nth_error (gotpage_syms sec) j = Some e ->
  Got.get_gotpage_got_addr symtab ctx sec (sym e) (addend e)
  = Ok (Int.u64 (sh_addr sec
                 + (Got.NUM_RESERVED
                    + Z.of_nat (length (dynsym_symbols ctx))
                    + Z.of_nat (length (got_syms sec))
                    + Z.of_nat (Got.lower_bound symtab (gotpage_syms sec) e))
                   * Int.word_size)).
Proof.
  intros Hs Hj. unfold Got.get_gotpage_got_addr.
  replace (mkSymbolAddend (sym e) (addend e)) with e by (destruct e; reflexivity).
  destruct (PoolFacts.lower_bound_first_with_key symtab _ Hs j e Hj)
    as [Hle _].
  assert (Hlt : (Got.lower_bound symtab (gotpage_syms sec) e
                 < length (gotpage_syms sec))%nat).
  { apply Nat.le_lt_trans with j; [exact Hle|].
    apply nth_error_Some. congruence. }
  apply Nat.ltb_lt in Hlt. rewrite Hlt. cbn [assert bind].
  rewrite u64_mul_i64, IntFacts.u64_add_r. reflexivity.
Qed.

(** The lookups read the key of the pair only. *)
Lemma get_got_addr_key ctx sec e e' :
  Got.sort_key symtab e = Got.sort_key symtab e' ->
  Got.get_got_addr symtab ctx sec (sym e) (addend e)
  = Got.get_got_addr symtab ctx sec (sym e') (addend e').
Proof.
  intros Hk. unfold Got.get_got_addr.
  replace (mkSymbolAddend (sym e) (addend e)) with e
    by (destruct e; reflexivity).
  replace (mkSymbolAddend (sym e') (addend e')) with e'
    by (destruct e'; reflexivity).
  rewrite (PoolFacts.lower_bound_key symtab _ e e' Hk). reflexivity.
Qed.

Lemma get_gotpage_got_addr_key ctx sec e e' :
  Got.sort_key symtab e = Got.sort_key symtab e' ->
  Got.get_gotpage_got_addr symtab ctx sec (sym e) (addend e)
  = Got.get_gotpage_got_addr symtab ctx sec (sym e') (addend e').
Proof.
  intros Hk. unfold Got.get_gotpage_got_addr.
  replace (mkSymbolAddend (sym e) (addend e)) with e
    by (destruct e; reflexivity).
  replace (mkSymbolAddend (sym e') (addend e')) with e'
    by (destruct e'; reflexivity).
  rewrite (PoolFacts.lower_bound_key symtab _ e e' Hk). reflexivity.
Qed.

(** C2.  After [update_shdr] the size of the section is
    [(R + D + |got_syms| + |gotpage_syms|) * word_size]; for the pair at
    position [i] of the ordinary pool, [get_got_addr] gives
    [sh_addr + (R + D + i) * word_size], and for the pair at position
    [j] of the page pool, [get_gotpage_got_addr] gives
    [sh_addr + (R + D + |got_syms| + j) * word_size].  The program
    computes the three in unsigned 64-bit arithmetic, which is how they
    hold for every section; they are equalities of integers for every
    section that lies in the 64-bit address space. *)
Theorem got_index_space_partitioned
        (ctx : Context) (this : MipsGotSection) :
  let sec := Got.update_shdr symtab ctx this in
  let R := Got.NUM_RESERVED in
  let D := Z.of_nat (length (dynsym_symbols ctx)) in
  let P1 := Z.of_nat (length (got_syms sec)) in
  let P2 := Z.of_nat (length (gotpage_syms sec)) in
  let fits := 0 <= sh_addr this
              /\ sh_addr this + (R + D + P1 + P2) * Int.word_size < 2 ^ 64 in
  (sh_size sec = Int.u64 ((R + D + P1 + P2) * Int.word_size)
   /\ (fits -> sh_size sec = (R + D + P1 + P2) * Int.word_size))
  /\ (forall i e, nth_error (got_syms sec) i = Some e ->
        Got.get_got_addr symtab ctx sec (sym e) (addend e)
        = Ok (Int.u64 (sh_addr sec
                       + (R + D + Z.of_nat i) * Int.word_size))
        /\ (fits ->
            Got.get_got_addr symtab ctx sec (sym e) (addend e)
            = Ok (sh_addr sec + (R + D + Z.of_nat i) * Int.word_size)))
  /\ (forall j e, nth_error (gotpage_syms sec) j = Some e ->
        Got.get_gotpage_got_addr symtab ctx sec (sym e) (addend e)
        = Ok (Int.u64 (sh_addr sec
                       + (R + D + P1 + Z.of_nat j) * Int.word_size))
        /\ (fits ->
            Got.get_gotpage_got_addr symtab ctx sec (sym e) (addend e)
            = Ok (sh_addr sec
                  + (R + D + P1 + Z.of_nat j) * Int.word_size))).
Proof.
  intros sec R D P1 P2 fits.
  assert (Hw : Int.word_size = 8) by reflexivity.
  assert (HR : R = 2) by reflexivity.
  assert (HD : 0 <= D) by (subst D; lia).
  assert (HP1 : 0 <= P1) by (subst P1; lia).
  assert (HP2 : 0 <= P2) by (subst P2; lia).
  assert (Hsh : sh_addr sec = sh_addr this) by reflexivity.
  assert (Hsize : sh_size sec = Int.u64 ((R + D + P1 + P2) * Int.word_size)).
  { subst sec. rewrite update_shdr_size. reflexivity. }
  assert (Hs1 : Got.strictly_sorted symtab (got_syms sec)).
  { subst sec. rewrite update_shdr_got_syms. apply PoolFacts.finalize_strict. }
  assert (Hs2 : Got.strictly_sorted symtab (gotpage_syms sec)).
  { subst sec. rewrite update_shdr_gotpage_syms.
    apply PoolFacts.finalize_strict. }
  split; [split; [exact Hsize|]|split].
  - intros [Ha Hf]. rewrite Hsize. apply IntFacts.u64_small. lia.
  - intros i e Hi.
    assert (Hi' : Z.of_nat i < P1).
    { subst P1. apply Nat2Z.inj_lt. apply nth_error_Some. congruence. }
    pose proof (get_got_addr_lookup ctx sec i e
                  (PoolFacts.strictly_sorted_sorted symtab _ Hs1) Hi) as Hget.
    rewrite (PoolFacts.lower_bound_position symtab _ Hs1 i e Hi) in Hget.
    split; [exact Hget|].
    intros [Ha Hf]. rewrite Hget. fold R D.
    f_equal. apply IntFacts.u64_small. rewrite Hsh. lia.
  - intros j e Hj.
    assert (Hj' : Z.of_nat j < P2).
    { subst P2. apply Nat2Z.inj_lt. apply nth_error_Some. congruence. }
    pose proof (get_gotpage_got_addr_lookup ctx sec j e
                  (PoolFacts.strictly_sorted_sorted symtab _ Hs2) Hj) as Hget.
    rewrite (PoolFacts.lower_bound_position symtab _ Hs2 j e Hj) in Hget.
    split; [exact Hget|].
    intros [Ha Hf]. rewrite Hget. fold R D P1.
    f_equal. apply IntFacts.u64_small. rewrite Hsh. lia.
Qed.

End WithHeap.
End GotFacts.

Module GotExamples.

Lemma sample_got_identified :
  Got.symbols_identified Sample.symtab (got_syms Sample.got).
Proof.
  intros a b Ha Hb. simpl in Ha, Hb.
  repeat (destruct Ha as [<-|Ha]; [|]); try contradiction;
    repeat (destruct Hb as [<-|Hb]; [|]); try contradiction;
    simpl; intros H1 H2; solve [reflexivity | discriminate].
Qed.

Lemma sample_gotpage_identified :
  Got.symbols_identified Sample.symtab (gotpage_syms Sample.got).
Proof.
  intros a b Ha Hb. simpl in Ha, Hb.
  repeat (destruct Ha as [<-|Ha]; [|]); try contradiction;
    repeat (destruct Hb as [<-|Hb]; [|]); try contradiction;
    simpl; intros H1 H2; solve [reflexivity | discriminate].
Qed.

(** The finalized sample pools. *)
Example sample_finalized :
  got_syms (Got.update_shdr Sample.symtab Sample.ctx Sample.got)
  = [mkSymbolAddend 0 4; mkSymbolAddend 1 16; mkSymbolAddend 2 8]
  /\ gotpage_syms (Got.update_shdr Sample.symtab Sample.ctx Sample.got)
     = [mkSymbolAddend 0 0; mkSymbolAddend 3 0].
Proof. split; reflexivity. Qed.

Lemma finalized_pools_sorted_deduplicated_order_independent_witness :
  got_syms (Got.update_shdr Sample.symtab Sample.ctx Sample.got_reversed)
  = got_syms (Got.update_shdr Sample.symtab Sample.ctx Sample.got)
  /\ gotpage_syms
       (Got.update_shdr Sample.symtab Sample.ctx Sample.got_reversed)
     = gotpage_syms (Got.update_shdr Sample.symtab Sample.ctx Sample.got).
Proof.
  destruct (GotFacts.finalized_pools_sorted_deduplicated_order_independent
              Sample.symtab Sample.ctx Sample.got Sample.got_reversed
              (Permutation_rev _) (Permutation_rev _))
    as [[_ [_ [_ [_ [_ [_ [_ Hgot]]]]]]] [_ [_ [_ [_ [_ [_ [_ Hpage]]]]]]]].
  split.
  - exact (proj1 (Hgot sample_got_identified)).
  - exact (proj1 (Hpage sample_gotpage_identified)).
Defined.

Lemma got_index_space_partitioned_witness :
  sh_size (Got.update_shdr Sample.symtab Sample.ctx Sample.got) = 80
  /\ Got.get_got_addr Sample.symtab Sample.ctx
       (Got.update_shdr Sample.symtab Sample.ctx Sample.got) 2%nat 8
     = Ok (131072 + (2 + 3 + 2) * 8)
  /\ Got.get_gotpage_got_addr Sample.symtab Sample.ctx
       (Got.update_shdr Sample.symtab Sample.ctx Sample.got) 3%nat 0
     = Ok (131072 + (2 + 3 + 3 + 1) * 8).
Proof.
  destruct (GotFacts.got_index_space_partitioned
              Sample.symtab Sample.ctx Sample.got)
    as [[_ Hsize] [Hgot Hpage]].
  assert (Hfits : 0 <= sh_addr Sample.got
                  /\ sh_addr Sample.got
                     + (Got.NUM_RESERVED
                        + Z.of_nat (length (dynsym_symbols Sample.ctx))
                        + Z.of_nat
                            (length
                               (got_syms
                                  (Got.update_shdr Sample.symtab Sample.ctx
                                                   Sample.got)))
                        + Z.of_nat
                            (length
                               (gotpage_syms
                                  (Got.update_shdr Sample.symtab Sample.ctx
                                                   Sample.got))))
                       * Int.word_size < 2 ^ 64).
  { split; [simpl; lia|vm_compute; reflexivity]. }
  split; [exact (Hsize Hfits)|].
  split.
  - exact (proj2 (Hgot 2%nat (mkSymbolAddend 2 8) eq_refl) Hfits).
  - exact (proj2 (Hpage 1%nat (mkSymbolAddend 3 0) eq_refl) Hfits).
Defined.

End GotExamples.

(** ** Dynamic relocations of the GOT section *)

Module DynrelFacts.
Section WithHeap.

Variable E : Target.
Variable symtab : SymPtr -> Symbol.

Lemma fold_left_push {A B : Type} (f : A -> B) (l : list A) (acc : list B) :
  fold_left (fun es x => es ++ [f x]) l acc = acc ++ map f l.
Proof.
  revert acc. induction l as [|x l IH]; intros acc; simpl.
  - rewrite app_nil_r. reflexivity.
  - rewrite IH, <- app_assoc. reflexivity.
Qed.

Lemma get_got_entries_eq ctx this :
  Got.get_got_entries E symtab ctx this
  = map (Got.got_entry E symtab ctx) (got_syms this)
    ++ map (Got.gotpage_entry E symtab ctx) (gotpage_syms this).
Proof.
  unfold Got.get_got_entries. rewrite !fold_left_push. reflexivity.
Qed.

Lemma copy_loop_dynrel this es : forall st,
  Got.cs_dynrel (fold_left (Got.copy_entry E symtab this) es st)
  = Got.cs_dynrel st
    ++ map (Got.dynrel_for symtab this)
           (filter Got.needs_dynrel (Got.numbered (Got.cs_i st) es)).
Proof.
  induction es as [|e es IH]; intros st; simpl.
  - rewrite app_nil_r. reflexivity.
  - rewrite IH. unfold Got.copy_entry. cbn [Got.cs_dynrel Got.cs_i].
    destruct (Got.needs_dynrel (Got.cs_i st, e)); cbn [map].
    + rewrite <- app_assoc. reflexivity.
    + reflexivity.
Qed.

Lemma count_loop es : forall n,
  fold_left
    (fun n ent => if negb (Got.ent_r_type ent =? R_NONE) then n + 1 else n)
    es n
  = n + Z.of_nat
          (length (filter (fun ent => negb (Got.ent_r_type ent =? R_NONE))
                          es)).
Proof.
  induction es as [|e es IH]; intros n; simpl; [lia|].
  rewrite IH. destruct (negb (Got.ent_r_type e =? R_NONE)); simpl; lia.
Qed.

(** The record written for the entry at position [k] of
    [get_got_entries], which fills slot [first + k]. *)
Lemma numbered_records this first es : forall n,
  map (Got.dynrel_for symtab this)
      (filter Got.needs_dynrel (Got.numbered (first + Z.of_nat n) es))
  = map (fun ke : nat * Got.GotEntry =>
           mkRel (Int.u64 (sh_addr this
                           + (first + Z.of_nat (fst ke)) * Int.word_size))
                 (Got.ent_r_type (snd ke))
                 (match Got.ent_sym (snd ke) with
                  | Some p => dynsym_idx (symtab p)
                  | None => 0
                  end)
                 (Int.i64 (Got.ent_val (snd ke))))
        (filter (fun ke => negb (Got.ent_r_type (snd ke) =? R_NONE))
                (combine (seq n (length es)) es)).
Proof.
  induction es as [|e es IH]; intros n; [reflexivity|].
  cbn [Got.numbered length seq combine filter].
  replace (first + Z.of_nat n + 1) with (first + Z.of_nat (S n)) by lia.
  unfold Got.needs_dynrel at 1. cbn [snd].
  destruct (negb (Got.ent_r_type e =? R_NONE)); cbn [map]; rewrite IH;
    [|reflexivity].
  f_equal. unfold Got.dynrel_for. cbn [fst snd].
  rewrite IntFacts.u64_add_r. reflexivity.
Qed.

Lemma combine_filter_length (es : list Got.GotEntry) : forall n,
  length (filter (fun ke : nat * Got.GotEntry =>
                    negb (Got.ent_r_type (snd ke) =? R_NONE))
                 (combine (seq n (length es)) es))
  = length (filter (fun ent => negb (Got.ent_r_type ent =? R_NONE)) es).
Proof.
  induction es as [|e es IH]; intros n; [reflexivity|].
  cbn [length seq combine filter snd].
  destruct (negb (Got.ent_r_type e =? R_NONE)); cbn [length]; rewrite IH;
    reflexivity.
Qed.

(** C3.  The entries of [get_got_entries] are those of the ordinary pool
    followed by those of the page pool, in pool order: for an imported
    symbol of the ordinary pool the value 0 bound to the symbol, for any
    other pair the address plus the addend, relative when the link is
    position-independent and the symbol is relative.  [copy_buf] writes,
    in the order of the entries, one dynamic relocation for each entry
    whose type is not [R_NONE] and nothing else; the record of the entry
    at position [k] has the address of slot [R + D + k], the type of the
    entry, the index of its symbol in the dynamic symbol table or 0, and
    the value of the entry as addend.  [get_reldyn_size] is the number
    of records written, which is the number of such entries. *)
Theorem copy_buf_emits_reserved_dynrels
        (ctx : Context) (this : MipsGotSection) (m : Mem.image) :
  let entries := Got.get_got_entries E symtab ctx this in
  let first := Got.NUM_RESERVED + Z.of_nat (length (dynsym_symbols ctx)) in
  let written := Got.cs_dynrel (Got.copy_buf E symtab ctx this m) in
  let fixup (e : SymbolAddend) :=
    if arg_pic ctx && is_relative (symtab (sym e)) then R_RELATIVE E
    else R_NONE in
  let ordinary (e : SymbolAddend) :=
    if is_imported (symtab (sym e))
    then Got.mkGotEntry 0 (R_DYNAMIC E) (Some (sym e))
    else Got.mkGotEntry (Int.u64 (addr_no_plt (symtab (sym e)) + addend e))
                        (fixup e) None in
  let page (e : SymbolAddend) :=
    Got.mkGotEntry (Int.u64 (addr (symtab (sym e)) + addend e))
                   (fixup e) None in
  let has_fixup (ent : Got.GotEntry) :=
    negb (Got.ent_r_type ent =? R_NONE) in
  let record (ke : nat * Got.GotEntry) :=
    mkRel (Int.u64 (sh_addr this
                    + (first + Z.of_nat (fst ke)) * Int.word_size))
          (Got.ent_r_type (snd ke))
          (match Got.ent_sym (snd ke) with
           | Some p => dynsym_idx (symtab p)
           | None => 0
           end)
          (Int.i64 (Got.ent_val (snd ke))) in
  entries = map ordinary (got_syms this) ++ map page (gotpage_syms this)
  /\ written
     = map record
           (filter (fun ke => has_fixup (snd ke))
                   (combine (seq 0 (length entries)) entries))
  /\ length written = length (filter has_fixup entries)
  /\ Got.get_reldyn_size E symtab ctx this = Z.of_nat (length written).
Proof.
  intros entries first written fixup ordinary page has_fixup record.
  assert (He : entries = map ordinary (got_syms this)
                         ++ map page (gotpage_syms this)).
  { subst entries. rewrite get_got_entries_eq. f_equal; apply map_ext.
    - intros e. unfold Got.got_entry, Got.get_addr.
      subst ordinary fixup. cbv beta.
      destruct (is_imported (symtab (sym e))); [reflexivity|].
      destruct (arg_pic ctx && is_relative (symtab (sym e))); reflexivity.
    - intros e. unfold Got.gotpage_entry, Got.get_addr.
      subst page fixup. cbv beta.
      destruct (arg_pic ctx && is_relative (symtab (sym e))); reflexivity. }
  assert (Hw : written
               = map record
                   (filter (fun ke => has_fixup (snd ke))
                           (combine (seq 0 (length entries)) entries))).
  { subst written. unfold Got.copy_buf. rewrite copy_loop_dynrel.
    cbn [Got.cs_dynrel Got.cs_i app].
    replace (Got.NUM_RESERVED + Z.of_nat (length (dynsym_symbols ctx)))
      with (first + Z.of_nat 0) by (subst first; lia).
    apply numbered_records. }
  assert (Hl : length written = length (filter has_fixup entries)).
  { rewrite Hw, length_map. apply combine_filter_length. }
  split; [exact He|]. split; [exact Hw|]. split; [exact Hl|].
  rewrite Hl. unfold Got.get_reldyn_size. fold entries.
  rewrite count_loop. subst has_fixup. lia.
Qed.

End WithHeap.

(** On the sample link: the imported symbol gets a symbolic relocation,
    the others a relative one, at consecutive slots from the sixth. *)
Example sample_dynrels :
  Got.cs_dynrel
    (Got.copy_buf Sample.E Sample.symtab Sample.ctx
       (Got.update_shdr Sample.symtab Sample.ctx Sample.got)
       (fun _ => Byte.x00))
  = [mkRel 131112 4611 0 65540; mkRel 131120 4611 2 0;
     mkRel 131128 4611 0 65576; mkRel 131136 4611 0 65536;
     mkRel 131144 4611 0 65584]
  /\ Got.get_reldyn_size Sample.E Sample.symtab Sample.ctx
       (Got.update_shdr Sample.symtab Sample.ctx Sample.got) = 5.
Proof. split; vm_compute; reflexivity. Qed.

End DynrelFacts.

(** ** Cells of the output image *)

Module MemFacts.

Lemma store_bytes_before bs : forall off m a,
  a < off -> Mem.store_bytes off bs m a = m a.
Proof.
  induction bs as [|b bs IH]; intros off m a Ha; simpl; [reflexivity|].
  rewrite IH by lia.
  destruct (Z.eqb_spec a off); [lia|reflexivity].
Qed.

Lemma load_store_bytes bs : forall off m,
  Mem.load_bytes (length bs) off (Mem.store_bytes off bs m) = bs.
Proof.
  induction bs as [|b bs IH]; intros off m; simpl; [reflexivity|].
  rewrite store_bytes_before by lia.
  rewrite Z.eqb_refl. f_equal. apply IH.
Qed.

Lemma encode_length be n v : length (Mem.encode be n v) = n.
Proof.
  unfold Mem.encode. destruct be.
  - rewrite length_rev. apply length_le_split.
  - apply length_le_split.
Qed.

Lemma decode_encode be n v :
  Mem.decode be (Mem.encode be n v) = v mod 2 ^ (Z.of_nat n * 8).
Proof.
  unfold Mem.decode, Mem.encode. destruct be.
  - rewrite rev_involutive. apply le_combine_split.
  - apply le_combine_split.
Qed.

(** Reading a cell that was just written gives the value, reduced to the
    width of the cell. *)
Lemma load_store be n off v m :
  Mem.load be n off (Mem.store be n off v m) = v mod 2 ^ (Z.of_nat n * 8).
Proof.
  unfold Mem.load, Mem.store.
  rewrite <- (encode_length be n v) at 1.
  rewrite load_store_bytes. apply decode_encode.
Qed.

Lemma load_bytes_length n : forall off m,
  length (Mem.load_bytes n off m) = n.
Proof.
  induction n as [|n IH]; intros off m; simpl; [reflexivity|].
  rewrite IH. reflexivity.
Qed.

Lemma load_range be n off m :
  0 <= Mem.load be n off m < 2 ^ (Z.of_nat n * 8).
Proof.
  unfold Mem.load, Mem.decode.
  destruct be.
  - pose proof (le_combine_bound (rev (Mem.load_bytes n off m))) as H.
    rewrite length_rev, load_bytes_length in H.
    rewrite Z.mul_comm. exact H.
  - pose proof (le_combine_bound (Mem.load_bytes n off m)) as H.
    rewrite load_bytes_length in H.
    rewrite Z.mul_comm. exact H.
Qed.

End MemFacts.

(** ** The relocation passes *)

Module RelocFacts.
Section WithCollaborators.

Variable E : Target.
Variable symtab : SymPtr -> Symbol.
Variables NEEDS_GOT NEEDS_GOTTP NEEDS_TLSGD : Z.
Variable record_undef_error :
  Context -> InputSection -> ElfRel -> bool * Context.
Variable scan_toc_rel :
  Context -> InputSection -> SymPtr -> ElfRel -> Context.
Variable check_tlsle :
  Context -> InputSection -> SymPtr -> ElfRel -> Context.
Variable apply_toc_rel :
  ApplyState -> InputSection -> SymPtr -> ElfRel ->
  Z -> Z -> Z -> Z -> ApplyState.
Variable get_fragment :
  Context -> InputSection -> ElfRel -> option SectionFragment * Z.
Variable get_tombstone :
  InputSection -> SymPtr -> option SectionFragment -> option Z.
Variable get_addend : Mem.image -> Z -> ElfRel -> Z.

Abbreviation scan_switch :=
  (Reloc.scan_switch NEEDS_GOT NEEDS_GOTTP NEEDS_TLSGD scan_toc_rel
                     check_tlsle).
Abbreviation scan_reloc :=
  (Reloc.scan_reloc NEEDS_GOT NEEDS_GOTTP NEEDS_TLSGD record_undef_error
                    scan_toc_rel check_tlsle).
Abbreviation apply_reloc := (Reloc.apply_reloc E symtab apply_toc_rel).
Abbreviation apply_nonalloc_reloc :=
  (Reloc.apply_nonalloc_reloc E symtab record_undef_error get_fragment
                              get_tombstone get_addend).
Abbreviation apply_nonalloc_loop :=
  (Reloc.apply_nonalloc_loop E symtab record_undef_error get_fragment
                             get_tombstone get_addend).

(** *** The 16-bit field *)

Lemma lor_mod_pow2 a b n :
  0 <= n -> Z.lor a b mod 2 ^ n = Z.lor (a mod 2 ^ n) (b mod 2 ^ n).
Proof.
  intros Hn. rewrite <- !Z.land_ones by exact Hn.
  apply Z.land_lor_distr_l.
Qed.

Lemma lo16_range val : 0 <= Reloc.lo16 val < 2 ^ 16.
Proof.
  unfold Reloc.lo16. change 65535 with (Z.ones 16).
  rewrite Z.land_ones by lia. apply Z.mod_pos_bound. lia.
Qed.

(** [*(U32<E> * )loc |= bits] ORs [bits] into the word at [loc]. *)
Lemma or32_load loc bits m :
  0 <= bits < 2 ^ 32 ->
  Mem.load (big_endian E) 4 loc (Reloc.or32 E loc bits m)
  = Z.lor (Mem.load (big_endian E) 4 loc m) bits.
Proof.
  intros Hb. unfold Reloc.or32. rewrite MemFacts.load_store.
  change (Z.of_nat 4 * 8) with 32.
  rewrite lor_mod_pow2 by lia.
  pose proof (MemFacts.load_range (big_endian E) 4 loc m) as Hl.
  change (Z.of_nat 4 * 8) with 32 in Hl.
  rewrite !Z.mod_small by lia. reflexivity.
Qed.

(** What [write_lo16] does: the diagnostic exactly when the value, read
    as an [i64], is outside [-32768, 32768), and the low 16 bits ORed into
    the word in either case. *)
Lemma write_lo16_effect isec rel s loc val st :
  let st' := Reloc.write_lo16 E isec rel s loc val st in
  (- 2 ^ 15 <= Int.i64 val < 2 ^ 15 ->
     errors (ap_ctx st') = errors (ap_ctx st))
  /\ (~ (- 2 ^ 15 <= Int.i64 val < 2 ^ 15) ->
        errors (ap_ctx st')
        = errors (ap_ctx st)
          ++ [OutOfRange rel s (Int.i64 val) (- 2 ^ 15) (2 ^ 15)])
  /\ Mem.load (big_endian E) 4 loc (ap_image st')
     = Z.lor (Mem.load (big_endian E) 4 loc (ap_image st))
             (Z.land val 65535)
  /\ ap_dynrel st' = ap_dynrel st.
Proof.
  intros st'. subst st'. unfold Reloc.write_lo16, Reloc.check.
  cbn [ap_ctx ap_image ap_dynrel].
  split; [|split; [|split]].
  - intros Hr.
    destruct (Z.ltb_spec (Int.i64 val) (- 2 ^ 15)); [lia|].
    destruct (Z.leb_spec (2 ^ 15) (Int.i64 val)); [lia|].
    reflexivity.
  - intros Hr.
    destruct (Z.ltb_spec (Int.i64 val) (- 2 ^ 15));
      [reflexivity|].
    destruct (Z.leb_spec (2 ^ 15) (Int.i64 val)); [reflexivity|lia].
  - rewrite or32_load; [reflexivity|].
    pose proof (lo16_range val). lia.
  - reflexivity.
Qed.

(** For the range-checked relocations, [apply_reloc] is [write_lo16]
    applied to the value of the specification. *)
Lemma apply_reloc_lo16 isec base st rel :
  In (r_type rel) Reloc.lo16_checked ->
  - 2 ^ 63 <= r_addend rel < 2 ^ 63 ->
  apply_reloc isec base st rel
  = (val <- Reloc.lo16_value symtab isec (ap_ctx st) rel ;;
     Ok (Reloc.write_lo16 E isec rel
           (file_symbols (isec_file isec) (r_sym rel))
           (base + r_offset rel) val st)).
Proof.
  intros Hty Ha.
  assert (Hi : Int.i64 (Int.u64 (r_addend rel)) = r_addend rel).
  { rewrite IntFacts.i64_u64. apply IntFacts.i64_small. exact Ha. }
  assert (Hz : (Int.u64 (r_addend rel) =? 0) = (r_addend rel =? 0)).
  { destruct (Z.eqb_spec (r_addend rel) 0) as [H0|H0].
    - rewrite H0. reflexivity.
    - apply Z.eqb_neq. intros Hu. apply H0.
      rewrite <- Hi, Hu. reflexivity. }
  unfold Reloc.apply_reloc, Reloc.lo16_value.
  rewrite Hi, Hz.
  destruct rel as [off ty sy ad]. cbn [r_type r_addend r_sym r_offset] in *.
  unfold Reloc.lo16_checked in Hty. simpl in Hty.
  destruct Hty as [<-|[<-|[<-|[<-|[<-|[<-|[<-|[<-|[]]]]]]]]];
    cbv beta iota delta [Reloc.apply_dispatch];
    repeat match goal with
           | |- context [?a =? ?b] =>
               lazymatch a with
               | ad => fail
               | _ => let c := eval vm_compute in (a =? b) in
                      change (a =? b) with c
               end
           end;
    cbv beta iota delta [orb];
    try reflexivity;
    try (destruct (ad =? 0); [reflexivity|]);
    match goal with
    | |- context [Got.get_got_addr ?h ?c ?g ?s ?a] =>
        destruct (Got.get_got_addr h c g s a); reflexivity
    | |- context [Got.get_gotpage_got_addr ?h ?c ?g ?s ?a] =>
        destruct (Got.get_gotpage_got_addr h c g s a); reflexivity
    end.
Qed.

(** C5.  For a range-checked 16-bit relocation of an allocated section
    whose value is [val]: the out-of-range error (with the advice to
    recompile) is reported if and only if [val], read as a signed 64-bit
    number, is outside [-32768, 32768); the low 16 bits are ORed into the
    instruction in both cases, so an out-of-range value is never written
    without the error. *)
Theorem lo16_overflow_reported_iff_out_of_range
        (isec : InputSection) (base : Z) (st : ApplyState) (rel : ElfRel)
        (val : Z) :
  In (r_type rel) Reloc.lo16_checked ->
  - 2 ^ 63 <= r_addend rel < 2 ^ 63 ->
  Reloc.lo16_value symtab isec (ap_ctx st) rel = Ok val ->
  let s := file_symbols (isec_file isec) (r_sym rel) in
  let loc := base + r_offset rel in
  let in_range := - 2 ^ 15 <= Int.i64 val < 2 ^ 15 in
  exists st',
    apply_reloc isec base st rel = Ok st'
    /\ (errors (ap_ctx st') <> errors (ap_ctx st) <-> ~ in_range)
    /\ (in_range -> errors (ap_ctx st') = errors (ap_ctx st))
    /\ (~ in_range ->
          errors (ap_ctx st')
          = errors (ap_ctx st)
            ++ [OutOfRange rel s (Int.i64 val) (- 2 ^ 15) (2 ^ 15)])
    /\ Mem.load (big_endian E) 4 loc (ap_image st')
       = Z.lor (Mem.load (big_endian E) 4 loc (ap_image st))
               (Z.land val 65535).
Proof.
  intros Hty Ha Hval s loc in_range.
  exists (Reloc.write_lo16 E isec rel s loc val st).
  pose proof (write_lo16_effect isec rel s loc val st)
    as [Hin [Hout [Himg _]]].
  split.
  { rewrite (apply_reloc_lo16 isec base st rel Hty Ha), Hval.
    reflexivity. }
  split; [|split; [exact Hin|split; [exact Hout|exact Himg]]].
  split.
  - intros Hne Hr. apply Hne. apply Hin. exact Hr.
  - intros Hr Heq. rewrite (Hout Hr) in Heq.
    apply (f_equal (@length diag)) in Heq.
    rewrite length_app in Heq. simpl in Heq. lia.
Qed.

(** *** [R_MIPS_GOT_DISP] *)

Lemma or_flags_effect ctx s bits :
  sym_flags (or_flags ctx s bits) s = Z.lor (sym_flags ctx s) bits
  /\ (forall q, q <> s -> sym_flags (or_flags ctx s bits) q = sym_flags ctx q)
  /\ extra_got (or_flags ctx s bits) = extra_got ctx
  /\ needs_tlsld (or_flags ctx s bits) = needs_tlsld ctx
  /\ errors (or_flags ctx s bits) = errors ctx.
Proof.
  unfold or_flags, set_sym_flags. cbn.
  split; [rewrite Nat.eqb_refl; reflexivity|].
  split; [|repeat split].
  intros q Hq. apply Nat.eqb_neq in Hq. rewrite Hq. reflexivity.
Qed.

Lemma push_got_sym_effect ctx e :
  got_syms (extra_got (Reloc.push_got_sym ctx e))
  = got_syms (extra_got ctx) ++ [e]
  /\ gotpage_syms (extra_got (Reloc.push_got_sym ctx e))
     = gotpage_syms (extra_got ctx)
  /\ sym_flags (Reloc.push_got_sym ctx e) = sym_flags ctx
  /\ needs_tlsld (Reloc.push_got_sym ctx e) = needs_tlsld ctx
  /\ errors (Reloc.push_got_sym ctx e) = errors ctx.
Proof. repeat split. Qed.

(** C6.  For an [R_MIPS_GOT_DISP] record against a defined symbol [s].
    Addend zero: scanning ORs [NEEDS_GOT] into the flags of [s] and
    changes nothing else (no pool entry), and applying ORs the low 16
    bits of [G + GOT - GP] into the instruction.  Addend not zero:
    scanning appends [{s, addend}] to the ordinary pool and changes
    nothing else, and applying uses the address [get_got_addr] gives for
    the pair, minus [GP]. *)
Theorem got_disp_scanned_and_applied
        (isec : InputSection) (base : Z) (ctx ctx1 : Context)
        (st : ApplyState) (rel : ElfRel) :
  r_type rel = R_MIPS_GOT_DISP ->
  - 2 ^ 63 <= r_addend rel < 2 ^ 63 ->
  record_undef_error ctx isec rel = (false, ctx1) ->
  let s := file_symbols (isec_file isec) (r_sym rel) in
  let loc := base + r_offset rel in
  let GP := gp_addr (ap_ctx st) in
  let G := Int.u64 (got_idx (symtab s) * Int.word_size) in
  let GOT := got_sh_addr (ap_ctx st) in
  (r_addend rel = 0 ->
     (exists ctx',
        scan_reloc isec ctx rel = Ok ctx'
        /\ sym_flags ctx' s = Z.lor (sym_flags ctx1 s) NEEDS_GOT
        /\ (forall q, q <> s -> sym_flags ctx' q = sym_flags ctx1 q)
        /\ extra_got ctx' = extra_got ctx1
        /\ needs_tlsld ctx' = needs_tlsld ctx1
        /\ errors ctx' = errors ctx1)
     /\ (exists st',
           apply_reloc isec base st rel = Ok st'
           /\ Mem.load (big_endian E) 4 loc (ap_image st')
              = Z.lor (Mem.load (big_endian E) 4 loc (ap_image st))
                      (Z.land (Int.u64 (G + GOT - GP)) 65535)))
  /\ (r_addend rel <> 0 ->
        (exists ctx',
           scan_reloc isec ctx rel = Ok ctx'
           /\ got_syms (extra_got ctx')
              = got_syms (extra_got ctx1)
                ++ [mkSymbolAddend s (r_addend rel)]
           /\ gotpage_syms (extra_got ctx') = gotpage_syms (extra_got ctx1)
           /\ sym_flags ctx' = sym_flags ctx1
           /\ needs_tlsld ctx' = needs_tlsld ctx1
           /\ errors ctx' = errors ctx1)
        /\ (forall a,
              Got.get_got_addr symtab (ap_ctx st) (extra_got (ap_ctx st))
                               s (r_addend rel) = Ok a ->
              exists st',
                apply_reloc isec base st rel = Ok st'
                /\ Mem.load (big_endian E) 4 loc (ap_image st')
                   = Z.lor (Mem.load (big_endian E) 4 loc (ap_image st))
                           (Z.land (Int.u64 (a - GP)) 65535))).
Proof.
  intros Hty Ha Hundef s loc GP G GOT.
  assert (Hin : In (r_type rel) Reloc.lo16_checked).
  { rewrite Hty. right. right. right. left. reflexivity. }
  assert (Hscan : scan_reloc isec ctx rel = scan_switch isec ctx1 s rel).
  { unfold Reloc.scan_reloc. rewrite Hty, Hundef. reflexivity. }
  pose proof (apply_reloc_lo16 isec base st rel Hin Ha) as Happ.
  unfold Reloc.lo16_value in Happ. rewrite Hty in Happ.
  change (R_MIPS_GOT_DISP =? R_MIPS_GOT_DISP) with true in Happ.
  cbv beta iota in Happ.
  split.
  - intros H0. split.
    + exists (or_flags ctx1 s NEEDS_GOT). split.
      * rewrite Hscan. unfold Reloc.scan_switch. rewrite Hty, H0.
        reflexivity.
      * apply or_flags_effect.
    + rewrite H0 in Happ. change (0 =? 0) with true in Happ.
      cbv beta iota in Happ. cbn [bind] in Happ.
      eexists. split; [exact Happ|].
      apply write_lo16_effect.
  - intros Hn0. split.
    + exists (Reloc.push_got_sym ctx1 (mkSymbolAddend s (r_addend rel))).
      split.
      * rewrite Hscan. unfold Reloc.scan_switch. rewrite Hty.
        apply Z.eqb_neq in Hn0.
        change (Reloc.scan_dispatch R_MIPS_GOT_DISP) with Reloc.SC_GOT_DISP.
        cbv beta iota. rewrite Hn0. reflexivity.
      * apply push_got_sym_effect.
    + intros a Hget. apply Z.eqb_neq in Hn0. rewrite Hn0 in Happ.
      fold s in Happ. rewrite Hget in Happ. cbn [bind] in Happ.
      eexists. split; [exact Happ|].
      apply write_lo16_effect.
Qed.

(** *** The two dispatches *)

Ltac case_on_type ty :=
  repeat match goal with
         | |- context [ty =? ?c] =>
             destruct (Z.eqb_spec ty c) as [->|?];
             [vm_compute; intros; congruence|]
         end.

Lemma scanned_type_has_apply_case ty :
  Reloc.scan_dispatch ty <> Reloc.SC_default ->
  Reloc.apply_dispatch ty <> Reloc.AC_default.
Proof.
  unfold Reloc.scan_dispatch, Reloc.apply_dispatch.
  case_on_type ty.
  cbv beta iota delta [orb]. intros H. exfalso. apply H. reflexivity.
Qed.

Lemma applied_type_has_scan_case ty :
  Reloc.apply_dispatch ty <> Reloc.AC_default ->
  Reloc.scan_dispatch ty <> Reloc.SC_default.
Proof.
  unfold Reloc.scan_dispatch, Reloc.apply_dispatch.
  case_on_type ty.
  cbv beta iota delta [orb]. intros H. exfalso. apply H. reflexivity.
Qed.

(** The default arm of the scanner is the one that reports the unknown
    relocation. *)
Lemma scan_default_reports isec ctx s rel :
  Reloc.scan_dispatch (r_type rel) = Reloc.SC_default ->
  scan_switch isec ctx s rel = Ok (report ctx (UnknownRelocation rel)).
Proof. intros H. unfold Reloc.scan_switch. rewrite H. reflexivity. Qed.

Lemma get_got_addr_not_unreachable ctx g s a :
  Got.get_got_addr symtab ctx g s a <> Undefined UnreachableExecuted.
Proof.
  unfold Got.get_got_addr.
  destruct (Nat.ltb _ _); cbn; discriminate.
Qed.

Lemma get_gotpage_got_addr_not_unreachable ctx g s a :
  Got.get_gotpage_got_addr symtab ctx g s a <> Undefined UnreachableExecuted.
Proof.
  unfold Got.get_gotpage_got_addr.
  destruct (Nat.ltb _ _); cbn; discriminate.
Qed.

(** C9.  A record that [scan_relocations] takes without reporting an
    unknown relocation (it is [R_NONE], or its type has an arm in the
    [switch] of the scanner other than the default one, which reports)
    has an arm in the [switch] of [apply_reloc_alloc]: [unreachable()] is
    not executed for it. *)
Theorem scanned_relocation_never_unreachable
        (isec : InputSection) (base : Z) (st : ApplyState) (rel : ElfRel) :
  r_type rel = R_NONE
  \/ Reloc.scan_dispatch (r_type rel) <> Reloc.SC_default ->
  (r_type rel <> R_NONE ->
   Reloc.apply_dispatch (r_type rel) <> Reloc.AC_default)
  /\ apply_reloc isec base st rel <> Undefined UnreachableExecuted.
Proof.
  intros [Hnone|Hscan].
  { split; [intros H; contradiction|].
    unfold Reloc.apply_reloc. rewrite Hnone. discriminate. }
  pose proof (scanned_type_has_apply_case _ Hscan) as Happ.
  split; [intros _; exact Happ|].
  unfold Reloc.apply_reloc.
  destruct (r_type rel =? R_NONE); [discriminate|].
  destruct (Reloc.apply_dispatch (r_type rel)); try discriminate.
  - destruct (Int.u64 (r_addend rel) =? 0); [discriminate|].
    pose proof (get_got_addr_not_unreachable (ap_ctx st)
                  (extra_got (ap_ctx st))
                  (file_symbols (isec_file isec) (r_sym rel))
                  (Int.i64 (Int.u64 (r_addend rel)))) as Hg.
    destruct (Got.get_got_addr _ _ _ _ _); cbn; congruence.
  - pose proof (get_gotpage_got_addr_not_unreachable (ap_ctx st)
                  (extra_got (ap_ctx st))
                  (file_symbols (isec_file isec) (r_sym rel))
                  (Int.i64 (Int.u64 (r_addend rel)))) as Hg.
    destruct (Got.get_gotpage_got_addr _ _ _ _ _); cbn; congruence.
  - exfalso. apply Happ. reflexivity.
Qed.

(** *** Sections that are not allocated *)

Lemma apply_nonalloc_loop_app isec base pre post st :
  apply_nonalloc_loop isec base (pre ++ post) st
  = (st' <- apply_nonalloc_loop isec base pre st ;;
     apply_nonalloc_loop isec base post st').
Proof.
  revert st. induction pre as [|r pre IH]; intros st; simpl.
  - reflexivity.
  - destruct (apply_nonalloc_reloc isec base st r); cbn [bind];
      [apply IH|reflexivity|reflexivity].
Qed.

(** Records that are skipped leave the image alone. *)
Lemma nonalloc_skipped isec base ctx m rel :
  (r_type rel = R_NONE ->
     apply_nonalloc_reloc isec base (ctx, m) rel = Ok (ctx, m))
  /\ (r_type rel <> R_NONE ->
      forall ctx1, record_undef_error ctx isec rel = (true, ctx1) ->
        apply_nonalloc_reloc isec base (ctx, m) rel = Ok (ctx1, m)).
Proof.
  unfold Reloc.apply_nonalloc_reloc. split.
  - intros ->. reflexivity.
  - intros Hn ctx1 Hu. apply Z.eqb_neq in Hn. rewrite Hn, Hu. reflexivity.
Qed.

(** C7.  For a record of a section that is not allocated, other than
    [R_NONE] and not against an undefined symbol, with [S] and [A] taken
    from the fragment when there is one and from the symbol and the
    record otherwise: [R_MIPS_64] stores the tombstone when
    [get_tombstone] gives one for the symbol and fragment, and [S + A]
    otherwise; [R_MIPS_32] stores [S + A] in a 32-bit cell; any other
    type ends in [Fatal], not in a reported error: the pass stops at the
    record, whatever follows it. *)
Theorem nonalloc_relocation_cases
        (isec : InputSection) (base : Z) (ctx ctx1 : Context)
        (m : Mem.image) (rel : ElfRel) :
  r_type rel <> R_NONE ->
  record_undef_error ctx isec rel = (false, ctx1) ->
  let s := file_symbols (isec_file isec) (r_sym rel) in
  let loc := base + r_offset rel in
  let frag := fst (get_fragment ctx1 isec rel) in
  let S := match frag with
           | Some f => frag_addr f
           | None => addr (symtab s)
           end in
  let A := match frag with
           | Some _ => snd (get_fragment ctx1 isec rel)
           | None => get_addend m loc rel
           end in
  let r := apply_nonalloc_reloc isec base (ctx, m) rel in
  (r_type rel = R_MIPS_64 ->
     (forall v, get_tombstone isec s frag = Some v ->
        r = Ok (ctx1, Mem.store (big_endian E) 8 loc v m)
        /\ Mem.load (big_endian E) 8 loc
             (Mem.store (big_endian E) 8 loc v m) = Int.u64 v)
     /\ (get_tombstone isec s frag = None ->
           r = Ok (ctx1, Mem.store (big_endian E) 8 loc (Int.u64 (S + A)) m)
           /\ Mem.load (big_endian E) 8 loc
                (Mem.store (big_endian E) 8 loc (Int.u64 (S + A)) m)
              = Int.u64 (S + A)))
  /\ (r_type rel = R_MIPS_32 ->
        r = Ok (ctx1, Mem.store (big_endian E) 4 loc (Int.u64 (S + A)) m)
        /\ Mem.load (big_endian E) 4 loc
             (Mem.store (big_endian E) 4 loc (Int.u64 (S + A)) m)
           = Int.u32 (S + A))
  /\ (r_type rel <> R_MIPS_64 -> r_type rel <> R_MIPS_32 ->
        r = Fatal (InvalidNonallocRelocation rel)
        /\ forall pre post st0,
             apply_nonalloc_loop isec base pre st0 = Ok (ctx, m) ->
             apply_nonalloc_loop isec base (pre ++ rel :: post) st0
             = Fatal (InvalidNonallocRelocation rel)).
Proof.
  intros Hnone Hundef s loc frag S A r.
  assert (Hr : r = let A' := Int.u64 A in
                   if r_type rel =? R_MIPS_64 then
                     match get_tombstone isec s frag with
                     | Some val =>
                         Ok (ctx1, Mem.store (big_endian E) 8 loc val m)
                     | None =>
                         Ok (ctx1, Mem.store (big_endian E) 8 loc
                                             (Int.u64 (S + A')) m)
                     end
                   else if r_type rel =? R_MIPS_32 then
                     Ok (ctx1, Mem.store (big_endian E) 4 loc
                                         (Int.u64 (S + A')) m)
                   else Fatal (InvalidNonallocRelocation rel)).
  { subst r. unfold Reloc.apply_nonalloc_reloc.
    apply Z.eqb_neq in Hnone. rewrite Hnone, Hundef.
    subst S A frag s loc.
    destruct (get_fragment ctx1 isec rel) as [[f|] fa]; reflexivity. }
  cbv zeta in Hr. rewrite IntFacts.u64_add_r in Hr.
  assert (H64 : forall x, Int.u64 x mod 2 ^ (Z.of_nat 8 * 8) = Int.u64 x).
  { intros x. change (Z.of_nat 8 * 8) with 64. apply IntFacts.u64_idem. }
  split; [|split].
  - intros Hty. rewrite Hty in Hr.
    change (R_MIPS_64 =? R_MIPS_64) with true in Hr. cbv iota in Hr.
    split.
    + intros v Hv. rewrite Hv in Hr. split; [exact Hr|].
      rewrite MemFacts.load_store. reflexivity.
    + intros Hv. rewrite Hv in Hr. split; [exact Hr|].
      rewrite MemFacts.load_store. apply H64.
  - intros Hty. rewrite Hty in Hr.
    change (R_MIPS_32 =? R_MIPS_64) with false in Hr.
    change (R_MIPS_32 =? R_MIPS_32) with true in Hr. cbv iota in Hr.
    split; [exact Hr|].
    rewrite MemFacts.load_store. change (Z.of_nat 4 * 8) with 32.
    unfold Int.u64, Int.u32.
    apply Z.mod_mod_divide. exists (2 ^ 32). lia.
  - intros Hn64 Hn32.
    apply Z.eqb_neq in Hn64, Hn32. rewrite Hn64, Hn32 in Hr.
    split; [exact Hr|].
    intros pre post st0 Hpre.
    rewrite apply_nonalloc_loop_app, Hpre. cbn [bind].
    cbn [Reloc.apply_nonalloc_loop]. fold r. rewrite Hr. reflexivity.
Qed.

End WithCollaborators.
End RelocFacts.

Module RelocExamples.

Lemma lo16_overflow_reported_iff_out_of_range_witness :
  exists st',
    Reloc.apply_reloc Sample.E Sample.symtab Sample.apply_toc_rel
                      Sample.isec 0 Sample.state Sample.rel_call16_far
    = Ok st'
    /\ errors (ap_ctx st')
       = [OutOfRange Sample.rel_call16_far 3%nat 39248 (-32768) 32768].
Proof.
  destruct (RelocFacts.lo16_overflow_reported_iff_out_of_range
              Sample.E Sample.symtab Sample.apply_toc_rel
              Sample.isec 0 Sample.state Sample.rel_call16_far 39248
              ltac:(simpl; tauto) ltac:(simpl; lia) eq_refl)
    as [st' [Happ [_ [_ [Hout _]]]]].
  exists st'. split; [exact Happ|].
  apply Hout. change (Int.i64 39248) with 39248. lia.
Defined.

(** The same relocation against a slot near [GP]: no error. *)
Example sample_call16_in_range :
  exists st',
    Reloc.apply_reloc Sample.E Sample.symtab Sample.apply_toc_rel
                      Sample.isec 0 Sample.state Sample.rel_call16
    = Ok st'
    /\ errors (ap_ctx st') = []
    /\ Mem.load false 4 16 (ap_image st') = 15248.
Proof. eexists. split; [reflexivity|]. split; reflexivity. Qed.

Lemma got_disp_scanned_and_applied_witness :
  (exists ctx',
     Reloc.scan_reloc Sample.NEEDS_GOT Sample.NEEDS_GOTTP Sample.NEEDS_TLSGD
                      Sample.record_undef_error Sample.scan_toc_rel
                      Sample.check_tlsle Sample.isec Sample.ctx
                      Sample.rel_got_disp = Ok ctx'
     /\ sym_flags ctx' 1%nat = 1
     /\ extra_got ctx' = extra_got Sample.ctx)
  /\ (exists st',
        Reloc.apply_reloc Sample.E Sample.symtab Sample.apply_toc_rel
                          Sample.isec 0 Sample.state Sample.rel_got_disp
        = Ok st'
        /\ Mem.load false 4 24 (ap_image st') = 56784).
Proof.
  destruct (RelocFacts.got_disp_scanned_and_applied
              Sample.E Sample.symtab
              Sample.NEEDS_GOT Sample.NEEDS_GOTTP Sample.NEEDS_TLSGD
              Sample.record_undef_error Sample.scan_toc_rel
              Sample.check_tlsle Sample.apply_toc_rel
              Sample.isec 0 Sample.ctx Sample.ctx Sample.state
              Sample.rel_got_disp eq_refl ltac:(simpl; lia) eq_refl)
    as [Hzero _].
  destruct (Hzero eq_refl)
    as [[ctx' [Hscan [Hflag [_ [Hgot _]]]]] [st' [Happ Himg]]].
  split.
  - exists ctx'. split; [exact Hscan|]. split; [exact Hflag|exact Hgot].
  - exists st'. split; [exact Happ|exact Himg].
Defined.

(** With an addend the pair goes to the pool and the slot found for it
    after finalization is used. *)
Example sample_got_disp_addend :
  (exists ctx',
     Reloc.scan_reloc Sample.NEEDS_GOT Sample.NEEDS_GOTTP Sample.NEEDS_TLSGD
                      Sample.record_undef_error Sample.scan_toc_rel
                      Sample.check_tlsle Sample.isec Sample.ctx
                      Sample.rel_got_disp_addend = Ok ctx'
     /\ got_syms (extra_got ctx')
        = got_syms Sample.got ++ [mkSymbolAddend 2 8]
     /\ sym_flags ctx' 2%nat = 0)
  /\ Got.get_got_addr Sample.symtab Sample.ctx_final
       (extra_got Sample.ctx_final) 2%nat 8 = Ok 131128
  /\ (exists st',
        Reloc.apply_reloc Sample.E Sample.symtab Sample.apply_toc_rel
                          Sample.isec 0 Sample.state
                          Sample.rel_got_disp_addend = Ok st'
        /\ Mem.load false 4 28 (ap_image st')
           = Z.land (131128 - 163824) 65535).
Proof.
  split; [eexists; split; [reflexivity|split; reflexivity]|].
  split; [reflexivity|].
  eexists. split; reflexivity.
Qed.

Lemma scanned_relocation_never_unreachable_witness :
  Reloc.apply_reloc Sample.E Sample.symtab Sample.apply_toc_rel
                    Sample.isec 0 Sample.state Sample.rel_call16
  <> Undefined UnreachableExecuted.
Proof.
  apply (RelocFacts.scanned_relocation_never_unreachable
           Sample.E Sample.symtab Sample.apply_toc_rel
           Sample.isec 0 Sample.state Sample.rel_call16).
  right. vm_compute. discriminate.
Defined.

(** A type outside both switches: the scanner reports it, and applying
    it would execute [unreachable()]. *)
Example sample_unknown_type :
  Reloc.scan_reloc Sample.NEEDS_GOT Sample.NEEDS_GOTTP Sample.NEEDS_TLSGD
                   Sample.record_undef_error Sample.scan_toc_rel
                   Sample.check_tlsle Sample.isec Sample.ctx
                   (mkRel 0 R_MIPS_HI16 0 0)
  = Ok (report Sample.ctx (UnknownRelocation (mkRel 0 R_MIPS_HI16 0 0)))
  /\ Reloc.apply_reloc Sample.E Sample.symtab Sample.apply_toc_rel
                       Sample.isec 0 Sample.state (mkRel 0 R_MIPS_HI16 0 0)
     = Undefined UnreachableExecuted.
Proof. split; reflexivity. Qed.

Lemma nonalloc_relocation_cases_witness :
  Reloc.apply_nonalloc_reloc Sample.E Sample.symtab
    Sample.record_undef_error Sample.get_fragment Sample.get_tombstone
    Sample.get_addend Sample.isec 0 (Sample.ctx, Sample.image)
    Sample.rel_abs64
  = Ok (Sample.ctx, Mem.store false 8 32 65588 Sample.image).
Proof.
  destruct (RelocFacts.nonalloc_relocation_cases
              Sample.E Sample.symtab Sample.record_undef_error
              Sample.get_fragment Sample.get_tombstone Sample.get_addend
              Sample.isec 0 Sample.ctx Sample.ctx Sample.image
              Sample.rel_abs64 ltac:(vm_compute; discriminate) eq_refl)
    as [H64 _].
  destruct (H64 eq_refl) as [_ Hnone].
  exact (proj1 (Hnone eq_refl)).
Defined.

(** Any other type stops the pass. *)
Example sample_nonalloc_fatal :
  Reloc.apply_reloc_nonalloc Sample.E Sample.symtab
    Sample.record_undef_error Sample.get_fragment Sample.get_tombstone
    Sample.get_addend
    (mkIsec Sample.file [Sample.rel_abs64; Sample.rel_call16;
                         Sample.rel_abs64] 0 false 0)
    0 Sample.ctx Sample.image
  = Fatal (InvalidNonallocRelocation Sample.rel_call16).
Proof. reflexivity. Qed.

End RelocExamples.

(** ** The CIE rewriter *)

Module CieFacts.

Lemma write_length buf : forall i v,
  length (Cie.write buf i v) = length buf.
Proof.
  induction buf as [|b buf IH]; intros i v; simpl; [reflexivity|].
  destruct i; simpl; [reflexivity|]. rewrite IH. reflexivity.
Qed.

Lemma read_Some buf i c :
  Cie.read buf i = Ok c -> (i < length buf)%nat.
Proof.
  unfold Cie.read. intros H. apply nth_error_Some.
  destruct (nth_error buf i); [discriminate|discriminate H].
Qed.

Lemma pointer_size_cases b :
  (exists sz, Cie.pointer_size b = Ok sz)
  \/ Cie.pointer_size b = Fatal UnknownPointerSize.
Proof.
  unfold Cie.pointer_size.
  destruct (_ =? _); [left; eexists; reflexivity|].
  destruct (_ || _); [left; eexists; reflexivity|].
  destruct (_ || _); [left; eexists; reflexivity|].
  right. reflexivity.
Qed.

(** [rewrite] keeps the length of the record and never exhausts fuel. *)
Lemma rewrite_cases buf ptr :
  (exists buf' sz, Cie.rewrite buf ptr = Ok (buf', sz)
                   /\ length buf' = length buf)
  \/ Cie.rewrite buf ptr = Fatal UnknownPointerSize
  \/ Cie.rewrite buf ptr = Undefined ReadPastEnd.
Proof.
  unfold Cie.rewrite, Cie.read.
  destruct (nth_error buf ptr) as [b|]; cbn [bind]; [|right; right; reflexivity].
  destruct (pointer_size_cases (byte.unsigned b)) as [[sz Hsz]|Hf];
    [|right; left; rewrite Hf; reflexivity].
  rewrite Hsz. cbn [bind]. left.
  destruct (_ =? DW_EH_PE_absptr); [destruct (sz =? 4)|];
    eexists; eexists; (split; [reflexivity|]);
    try apply write_length; reflexivity.
Qed.

Lemma aug_loop_has_fuel fuel : forall ctx buf aug p,
  (0 < fuel)%nat -> (length buf < aug + fuel)%nat ->
  Cie.aug_loop fuel ctx buf aug p <> Undefined OutOfFuel.
Proof.
  induction fuel as [|fuel IH]; intros ctx buf aug p Hpos Hlen; [lia|].
  cbn [Cie.aug_loop].
  destruct (Cie.read buf aug) as [c| |u] eqn:Hread; cbn [bind].
  2: discriminate.
  2: { unfold Cie.read in Hread.
       destruct (nth_error buf aug); [discriminate|].
       inversion Hread. discriminate. }
  apply read_Some in Hread.
  destruct (c =? 0); [discriminate|].
  assert (Hrec : forall ctx' buf' p',
             length buf' = length buf ->
             Cie.aug_loop fuel ctx' buf' (S aug) p' <> Undefined OutOfFuel).
  { intros ctx' buf' p' Hl. apply IH; rewrite ?Hl; lia. }
  assert (Hrw : forall k : list byte * Z -> nat,
             (r <- Cie.rewrite buf p ;;
              Cie.aug_loop fuel ctx (fst r) (S aug) (k r))
             <> Undefined OutOfFuel).
  { intros k.
    destruct (rewrite_cases buf p) as [[buf' [sz [Hr Hl]]]|[Hr|Hr]];
      rewrite Hr; cbn [bind fst]; [apply Hrec; exact Hl| |]; discriminate. }
  destruct (_ || _); [apply (Hrw (fun _ => S p))|].
  destruct (c =? 80);
    [apply (Hrw (fun r => (p + Z.to_nat (snd r) + 1)%nat))|].
  destruct (_ || _); apply Hrec; reflexivity.
Qed.

Lemma strlen_cases s :
  (exists n, Cie.strlen s = Ok n) \/ Cie.strlen s = Undefined ReadPastEnd.
Proof.
  induction s as [|b s IH]; simpl; [right; reflexivity|].
  destruct (_ =? 0); [left; eexists; reflexivity|].
  destruct IH as [[n Hn]|Hu]; rewrite ?Hn, ?Hu; cbn [bind];
    [left; eexists; reflexivity|right; reflexivity].
Qed.

Lemma read_uleb_cases buf p :
  (exists q, Cie.read_uleb buf p = Ok q)
  \/ Cie.read_uleb buf p = Undefined ReadPastEnd.
Proof.
  unfold Cie.read_uleb.
  assert (H : forall s, (exists n, Cie.uleb_length s = Ok n)
                        \/ Cie.uleb_length s = Undefined ReadPastEnd).
  { induction s as [|b s IH]; cbn [Cie.uleb_length]; [right; reflexivity|].
    destruct (Z.testbit (byte.unsigned b) 7); [|left; eexists; reflexivity].
    destruct IH as [[n Hn]|Hu]; rewrite ?Hn, ?Hu; cbn [bind];
      [left; eexists; reflexivity|right; reflexivity]. }
  destruct (H (skipn p buf)) as [[n Hn]|Hu]; rewrite ?Hn, ?Hu; cbn [bind];
    [left; eexists; reflexivity|right; reflexivity].
Qed.

(** The rewriter always comes to an end: the fuel given to the loop is
    never used up. *)
Lemma mips_rewrite_cie_terminates ctx buf :
  Cie.mips_rewrite_cie ctx buf <> Undefined OutOfFuel.
Proof.
  unfold Cie.mips_rewrite_cie.
  destruct (Cie.read buf 9) as [c| |u] eqn:Hread; cbn [bind].
  2: discriminate.
  2: { unfold Cie.read in Hread.
       destruct (nth_error buf 9); [discriminate|].
       inversion Hread. discriminate. }
  destruct (negb (c =? 122)); [discriminate|].
  destruct (strlen_cases (skipn 10 buf)) as [[n Hn]|Hu];
    rewrite ?Hn, ?Hu; cbn [bind]; [|discriminate].
  destruct (read_uleb_cases buf (10 + n + 1)) as [[q1 H1]|Hu];
    rewrite ?H1, ?Hu; cbn [bind]; [|discriminate].
  destruct (read_uleb_cases buf q1) as [[q2 H2]|Hu];
    rewrite ?H2, ?Hu; cbn [bind]; [|discriminate].
  destruct (read_uleb_cases buf (S q2)) as [[q3 H3]|Hu];
    rewrite ?H3, ?Hu; cbn [bind]; [|discriminate].
  apply aug_loop_has_fuel; lia.
Qed.

(** C8.  A CIE whose augmentation string does not begin with ['z'] (the
    empty string included: its first byte is the terminator) is returned
    as it is, and nothing is reported. *)
Theorem cie_without_z_is_untouched
        (ctx : Context) (buf : list byte) (c : byte) :
  nth_error buf 9 = Some c ->
  byte.unsigned c <> 122 ->
  Cie.mips_rewrite_cie ctx buf = Ok (ctx, buf).
Proof.
  intros Hc Hz. unfold Cie.mips_rewrite_cie, Cie.read.
  rewrite Hc. cbn [bind].
  apply Z.eqb_neq in Hz. rewrite Hz. reflexivity.
Qed.

Lemma cie_without_z_is_untouched_witness :
  Cie.mips_rewrite_cie Sample.ctx Sample.cie_plain
  = Ok (Sample.ctx, Sample.cie_plain).
Proof.
  apply (cie_without_z_is_untouched Sample.ctx Sample.cie_plain Byte.x00).
  - reflexivity.
  - vm_compute. discriminate.
Defined.

(** C10.  In the loop over the augmentation string, at a character [c]:
    when [c] is ['L'], ['R'] or ['P'] and the size nibble of the
    encoding byte at the cursor is none of absptr, udata4, sdata4,
    udata8, sdata8, [rewrite] and with it the whole loop end in the
    fatal error; when [c] is none of the five known characters, the
    error is reported and the loop goes on with the next character, the
    same cursor and the same bytes. *)
Theorem cie_unknown_size_fatal_unknown_char_reported
        (fuel : nat) (ctx : Context) (buf : list byte) (aug p : nat)
        (c : Z) :
  Cie.read buf aug = Ok c ->
  (forall b,
     c = 76 \/ c = 82 \/ c = 80 ->
     Cie.read buf p = Ok b ->
     Z.land b 15 <> DW_EH_PE_absptr ->
     Z.land b 15 <> DW_EH_PE_udata4 -> Z.land b 15 <> DW_EH_PE_sdata4 ->
     Z.land b 15 <> DW_EH_PE_udata8 -> Z.land b 15 <> DW_EH_PE_sdata8 ->
     Cie.rewrite buf p = Fatal UnknownPointerSize
     /\ Cie.aug_loop (S fuel) ctx buf aug p = Fatal UnknownPointerSize)
  /\ (c <> 0 -> c <> 76 -> c <> 82 -> c <> 80 -> c <> 83 -> c <> 66 ->
      Cie.aug_loop (S fuel) ctx buf aug p
      = Cie.aug_loop fuel (report ctx (UnknownAugmentation (byte.of_Z c)))
                     buf (S aug) p).
Proof.
  intros Hc. split.
  - intros b Hlrp Hb H0 H3 H11 H4 H12.
    assert (Hrw : Cie.rewrite buf p = Fatal UnknownPointerSize).
    { unfold Cie.rewrite. rewrite Hb. cbn [bind].
      unfold Cie.pointer_size.
      apply Z.eqb_neq in H0, H3, H11, H4, H12.
      rewrite H0, H3, H11, H4, H12. reflexivity. }
    split; [exact Hrw|].
    cbn [Cie.aug_loop]. rewrite Hc. cbn [bind].
    destruct Hlrp as [-> | [-> | ->]]; cbv beta iota delta [Z.eqb orb];
      rewrite Hrw; reflexivity.
  - intros N0 N76 N82 N80 N83 N66.
    cbn [Cie.aug_loop]. rewrite Hc. cbn [bind].
    apply Z.eqb_neq in N0, N76, N82, N80, N83, N66.
    rewrite N0, N76, N82, N80, N83, N66. reflexivity.
Qed.

Lemma cie_unknown_size_fatal_unknown_char_reported_witness :
  Cie.aug_loop 21 Sample.ctx Sample.cie_zXR 10 17
  = Cie.aug_loop 20
      (report Sample.ctx (UnknownAugmentation (byte.of_Z 88)))
      Sample.cie_zXR 11 17.
Proof.
  apply (proj2 (cie_unknown_size_fatal_unknown_char_reported
                  20 Sample.ctx Sample.cie_zXR 10 17 88 eq_refl));
    discriminate.
Defined.

(** The whole rewriter on the samples: ["zR"] has its absolute encoding
    made PC-relative; in ["zXR"] the unknown character is reported and
    the encoding after it is still rewritten, at the same place; an
    encoding of unknown size is fatal. *)
Example sample_cie_rewritten :
  Cie.mips_rewrite_cie Sample.ctx Sample.cie_zR
  = Ok (Sample.ctx,
        map byte.of_Z [20; 0; 0; 0; 0; 0; 0; 0; 1; 122; 82; 0; 1; 120; 31;
                       1; 28; 12; 29; 0])
  /\ Cie.mips_rewrite_cie Sample.ctx Sample.cie_zXR
     = Ok (report Sample.ctx (UnknownAugmentation (byte.of_Z 88)),
           map byte.of_Z [20; 0; 0; 0; 0; 0; 0; 0; 1; 122; 88; 82; 0; 1;
                          120; 31; 1; 28; 12; 29; 0])
  /\ Cie.mips_rewrite_cie Sample.ctx Sample.cie_zR_udata2
     = Fatal UnknownPointerSize.
Proof. split; [|split]; reflexivity. Qed.

End CieFacts.

(* ================================================================== *)
(** * Part III: further properties of the backend *)
(* ================================================================== *)

(** ** Cells that do not overlap *)

Module MemFrame.

Lemma store_bytes_outside bs : forall off m a,
  a < off \/ off + Z.of_nat (length bs) <= a ->
  Mem.store_bytes off bs m a = m a.
Proof.
  induction bs as [|b bs IH]; intros off m a Ha; [reflexivity|].
  cbn [Mem.store_bytes]. cbn [length] in Ha.
  rewrite IH by lia.
  destruct (Z.eqb_spec a off); [lia|reflexivity].
Qed.

Lemma load_bytes_ext n : forall off m m',
  (forall a, off <= a < off + Z.of_nat n -> m a = m' a) ->
  Mem.load_bytes n off m = Mem.load_bytes n off m'.
Proof.
  induction n as [|n IH]; intros off m m' H; [reflexivity|].
  cbn [Mem.load_bytes]. rewrite (H off) by lia.
  f_equal. apply IH. intros a Ha. apply H. lia.
Qed.

(** A store outside a cell does not change what the cell reads. *)
Lemma load_store_disjoint be n n' off off' v m :
  off + Z.of_nat n <= off' \/ off' + Z.of_nat n' <= off ->
  Mem.load be n off (Mem.store be n' off' v m) = Mem.load be n off m.
Proof.
  intros Hd. unfold Mem.load, Mem.store. f_equal.
  apply load_bytes_ext. intros a Ha.
  apply store_bytes_outside. rewrite MemFacts.encode_length. lia.
Qed.

Lemma store_outside be n off v m a :
  a < off \/ off + Z.of_nat n <= a ->
  Mem.store be n off v m a = m a.
Proof.
  intros Ha. unfold Mem.store. apply store_bytes_outside.
  rewrite MemFacts.encode_length. exact Ha.
Qed.

Lemma store_bytes_load_bytes n : forall off m a,
  Mem.store_bytes off (Mem.load_bytes n off m) m a = m a.
Proof.
  induction n as [|n IH]; intros off m a; [reflexivity|].
  cbn [Mem.load_bytes Mem.store_bytes].
  destruct (Z_lt_le_dec a (off + 1)) as [Hlt|Hge].
  - rewrite store_bytes_outside by lia.
    destruct (Z.eqb_spec a off) as [->|]; reflexivity.
  - set (m' := fun a0 => if a0 =? off then m off else m a0).
    rewrite (load_bytes_ext n (off + 1) m m').
    + rewrite IH. subst m'. cbv beta.
      destruct (Z.eqb_spec a off); [lia|reflexivity].
    + intros a0 Ha0. subst m'. cbv beta.
      destruct (Z.eqb_spec a0 off); [lia|reflexivity].
Qed.

Lemma encode_decode be bs :
  Mem.encode be (length bs) (Mem.decode be bs) = bs.
Proof.
  unfold Mem.encode, Mem.decode. destruct be.
  - rewrite <- (length_rev bs), split_le_combine. apply rev_involutive.
  - apply split_le_combine.
Qed.

(** Writing back the value a cell holds changes no byte. *)
Lemma store_load_same be n off m a :
  Mem.store be n off (Mem.load be n off m) m a = m a.
Proof.
  unfold Mem.store, Mem.load.
  rewrite <- (MemFacts.load_bytes_length n off m) at 1.
  rewrite encode_decode. apply store_bytes_load_bytes.
Qed.

End MemFrame.

(** ** More on the pools and their lookups *)

Module PoolLookup.
Section WithHeap.

Variable symtab : SymPtr -> Symbol.

Abbreviation lt := (Got.operator_lt symtab).
Abbreviation key := (Got.sort_key symtab).

(** X1.  [SymbolAddend::operator<] is a strict weak ordering, as
    [std::stable_sort] and [std::lower_bound] require: irreflexive and
    transitive, and two entries are incomparable exactly when they have
    the same (file priority, symbol index, addend). *)
Theorem operator_lt_strict_weak_order :
  (forall a, Got.operator_lt symtab a a = false)
  /\ (forall a b c,
        Got.operator_lt symtab a b = true ->
        Got.operator_lt symtab b c = true ->
        Got.operator_lt symtab a c = true)
  /\ (forall a b,
        Got.operator_lt symtab a b = true ->
        Got.operator_lt symtab b a = false)
  /\ (forall a b,
        (Got.operator_lt symtab a b = false
         /\ Got.operator_lt symtab b a = false)
        <-> Got.sort_key symtab a = Got.sort_key symtab b).
Proof.
  split; [apply PoolFacts.lt_irrefl|].
  split; [apply PoolFacts.lt_trans|].
  split; [apply PoolFacts.lt_asym|].
  intros a b. split.
  - intros [H1 H2]. apply PoolFacts.equivalent_same_key; assumption.
  - intros Hk. unfold Got.operator_lt. rewrite Hk.
    split; apply (PoolFacts.lt_irrefl symtab b).
Qed.

(** [lower_bound] stops at the first entry that is not smaller. *)
Lemma lower_bound_spec l x :
  let j := Got.lower_bound symtab l x in
  (j <= length l)%nat
  /\ (forall k y, (k < j)%nat -> nth_error l k = Some y -> lt y x = true)
  /\ (forall y, nth_error l j = Some y -> lt y x = false).
Proof.
  induction l as [|a l IH]; cbn [Got.lower_bound length].
  - split; [lia|]. split.
    + intros k y Hk. lia.
    + intros y Hy. discriminate.
  - destruct (lt a x) eqn:Hax.
    + destruct IH as [Hle [Hbefore Hat]].
      split; [lia|]. split.
      * intros k y Hk Hnth. destruct k as [|k].
        -- simpl in Hnth. inversion Hnth; subst. exact Hax.
        -- simpl in Hnth. apply (Hbefore k); [lia|exact Hnth].
      * intros y Hy. simpl in Hy. apply Hat. exact Hy.
    + split; [lia|]. split.
      * intros k y Hk. lia.
      * intros y Hy. simpl in Hy. inversion Hy; subst. exact Hax.
Qed.

Lemma lower_bound_at_end l x :
  Got.lower_bound symtab l x = length l <->
  (forall y, In y l -> lt y x = true).
Proof.
  induction l as [|a l IH]; cbn [Got.lower_bound length].
  - split; [intros _ y []|reflexivity].
  - destruct (lt a x) eqn:Hax.
    + split.
      * intros H y [<-|Hy]; [exact Hax|].
        apply IH; [lia|exact Hy].
      * intros H. f_equal. apply IH. intros y Hy. apply H. right. exact Hy.
    + split; [discriminate|].
      intros H. specialize (H a (or_introl eq_refl)). congruence.
Qed.

(** X2.  [get_got_addr] on a sorted pool: it trips its assertion exactly
    when every entry of the pool is smaller than the pair looked up (so
    always on an empty pool); otherwise it answers with the slot of the
    first entry that is not smaller, whether or not that entry is the
    pair looked up. *)
Theorem get_got_addr_defined_iff_not_all_smaller
        (ctx : Context) (sec : MipsGotSection) (s : SymPtr) (a : Z) :
  Got.sorted symtab (got_syms sec) ->
  let x := mkSymbolAddend s a in
  ((forall y, In y (got_syms sec) -> lt y x = true) ->
     Got.get_got_addr symtab ctx sec s a = Undefined AssertionFailed)
  /\ (~ (forall y, In y (got_syms sec) -> lt y x = true) ->
      exists j y,
        nth_error (got_syms sec) j = Some y
        /\ lt y x = false
        /\ (forall k z, (k < j)%nat -> nth_error (got_syms sec) k = Some z ->
              lt z x = true)
        /\ Got.get_got_addr symtab ctx sec s a
           = Ok (Int.u64 (sh_addr sec
                          + (Got.NUM_RESERVED
                             + Z.of_nat (length (dynsym_symbols ctx))
                             + Z.of_nat j) * Int.word_size))).
Proof.
  intros _ x.
  destruct (lower_bound_spec (got_syms sec) x) as [Hle [Hbefore Hat]].
  pose proof (lower_bound_at_end (got_syms sec) x) as Hend.
  split.
  - intros Hall. unfold Got.get_got_addr. fold x.
    rewrite (proj2 Hend Hall), Nat.ltb_irrefl. reflexivity.
  - intros Hnot.
    assert (Hlt : (Got.lower_bound symtab (got_syms sec) x
                   < length (got_syms sec))%nat).
    { destruct (Nat.eq_dec (Got.lower_bound symtab (got_syms sec) x)
                           (length (got_syms sec))) as [Heq|Hne];
        [|lia].
      exfalso. apply Hnot. apply Hend. exact Heq. }
    destruct (nth_error (got_syms sec)
                        (Got.lower_bound symtab (got_syms sec) x))
      as [y|] eqn:Hy;
      [|apply nth_error_None in Hy; lia].
    exists (Got.lower_bound symtab (got_syms sec) x), y.
    split; [exact Hy|]. split; [apply Hat; reflexivity|].
    split; [exact Hbefore|].
    unfold Got.get_got_addr. fold x.
    apply Nat.ltb_lt in Hlt. rewrite Hlt. cbn [assert bind].
    rewrite GotFacts.u64_mul_i64, IntFacts.u64_add_r. reflexivity.
Qed.

End WithHeap.
End PoolLookup.

Module PoolRoundTrip.
Section WithHeap.

Variable symtab : SymPtr -> Symbol.

Lemma eta e : mkSymbolAddend (sym e) (addend e) = e.
Proof. destruct e; reflexivity. Qed.

(** X3.  A pair appended to a pool is found once the pools are
    finalized, and the slot found lies in the part of the section that
    belongs to its pool: ordinary pairs in
    [[sh_addr + (R + D) * 8, sh_addr + (R + D + P1) * 8)], page pairs
    from there to the end of the section. *)
Theorem appended_pair_found_in_its_region
        (ctx : Context) (this : MipsGotSection) :
  let sec := Got.update_shdr symtab ctx this in
  let R := Got.NUM_RESERVED in
  let D := Z.of_nat (length (dynsym_symbols ctx)) in
  let P1 := Z.of_nat (length (got_syms sec)) in
  let P2 := Z.of_nat (length (gotpage_syms sec)) in
  0 <= sh_addr this ->
  sh_addr this + (R + D + P1 + P2) * Int.word_size < 2 ^ 64 ->
  (forall e, In e (got_syms this) ->
     exists a,
       Got.get_got_addr symtab ctx sec (sym e) (addend e) = Ok a
       /\ sh_addr sec + (R + D) * Int.word_size <= a
          < sh_addr sec + (R + D + P1) * Int.word_size)
  /\ (forall e, In e (gotpage_syms this) ->
        exists a,
          Got.get_gotpage_got_addr symtab ctx sec (sym e) (addend e) = Ok a
          /\ sh_addr sec + (R + D + P1) * Int.word_size <= a
             < sh_addr sec + sh_size sec).
Proof.
  intros sec R D P1 P2 Haddr Hfit.
  assert (Hw : Int.word_size = 8) by reflexivity.
  assert (HR : R = 2) by reflexivity.
  assert (HD : 0 <= D) by (subst D; lia).
  assert (HP1 : 0 <= P1) by (subst P1; lia).
  assert (HP2 : 0 <= P2) by (subst P2; lia).
  assert (Hsh : sh_addr sec = sh_addr this) by reflexivity.
  assert (Hsize : sh_size sec = (R + D + P1 + P2) * Int.word_size).
  { transitivity (Int.u64 ((R + D + P1 + P2) * Int.word_size)).
    - subst sec. rewrite GotFacts.update_shdr_size. reflexivity.
    - apply IntFacts.u64_small. lia. }
  assert (Hs1 : Got.sorted symtab (got_syms sec)).
  { subst sec. rewrite GotFacts.update_shdr_got_syms.
    apply PoolFacts.finalize_sorted. }
  assert (Hs2 : Got.sorted symtab (gotpage_syms sec)).
  { subst sec. rewrite GotFacts.update_shdr_gotpage_syms.
    apply PoolFacts.finalize_sorted. }
  split.
  - intros e0 He0.
    assert (He' : exists e, In e (got_syms sec)
                            /\ Got.sort_key symtab e = Got.sort_key symtab e0).
    { subst sec. rewrite GotFacts.update_shdr_got_syms.
      apply PoolFacts.finalize_represents. exact He0. }
    destruct He' as [e [He' Hk]].
    rewrite (GotFacts.get_got_addr_key symtab ctx sec e0 e (eq_sym Hk)).
    destruct (In_nth_error _ _ He') as [i Hi].
    destruct (PoolFacts.lower_bound_first_with_key symtab _ Hs1 i e Hi)
      as [Hle _].
    assert (Hi' : Z.of_nat i < P1).
    { subst P1. apply Nat2Z.inj_lt. apply nth_error_Some. congruence. }
    eexists. split; [apply (GotFacts.get_got_addr_lookup symtab ctx sec i e Hs1 Hi)|].
    fold R D. rewrite IntFacts.u64_small; rewrite Hsh; lia.
  - intros e0 He0.
    assert (He' : exists e, In e (gotpage_syms sec)
                            /\ Got.sort_key symtab e = Got.sort_key symtab e0).
    { subst sec. rewrite GotFacts.update_shdr_gotpage_syms.
      apply PoolFacts.finalize_represents. exact He0. }
    destruct He' as [e [He' Hk]].
    rewrite (GotFacts.get_gotpage_got_addr_key symtab ctx sec e0 e
               (eq_sym Hk)).
    destruct (In_nth_error _ _ He') as [j Hj].
    destruct (PoolFacts.lower_bound_first_with_key symtab _ Hs2 j e Hj)
      as [Hle _].
    assert (Hj' : Z.of_nat j < P2).
    { subst P2. apply Nat2Z.inj_lt. apply nth_error_Some. congruence. }
    eexists. split;
      [apply (GotFacts.get_gotpage_got_addr_lookup symtab ctx sec j e Hs2 Hj)|].
    fold R D P1. rewrite Hsize. rewrite IntFacts.u64_small; rewrite Hsh; lia.
Qed.

(** X4.  [get_gotpage_page_addr] for a pair that was appended to the
    page pool gives the address of an entry with the key of the pair,
    plus the addend; when the symbols of the pool are identified by
    (file priority, symbol index) this is the address of the symbol of
    the pair plus the addend. *)
Theorem page_addr_of_appended_pair
        (ctx : Context) (this : MipsGotSection) (e : SymbolAddend) :
  In e (gotpage_syms this) ->
  let sec := Got.update_shdr symtab ctx this in
  (exists e',
     In e' (gotpage_syms this)
     /\ Got.sort_key symtab e' = Got.sort_key symtab e
     /\ Got.get_gotpage_page_addr symtab ctx sec (sym e) (addend e)
        = Ok (Int.u64 (addr (symtab (sym e')) + addend e)))
  /\ (Got.symbols_identified symtab (gotpage_syms this) ->
      Got.get_gotpage_page_addr symtab ctx sec (sym e) (addend e)
      = Ok (Int.u64 (addr (symtab (sym e)) + addend e))).
Proof.
  intros He sec.
  assert (Hs : Got.sorted symtab (gotpage_syms sec)).
  { subst sec. rewrite GotFacts.update_shdr_gotpage_syms.
    apply PoolFacts.finalize_sorted. }
  assert (He' : exists r, In r (gotpage_syms sec)
                          /\ Got.sort_key symtab r = Got.sort_key symtab e).
  { subst sec. rewrite GotFacts.update_shdr_gotpage_syms.
    apply PoolFacts.finalize_represents. exact He. }
  destruct He' as [r [Hr Hkr]].
  destruct (In_nth_error _ _ Hr) as [j Hj].
  destruct (PoolFacts.lower_bound_first_with_key symtab _ Hs j r Hj)
    as [_ [[e' [Hnth Hkey']] _]].
  rewrite (PoolFacts.lower_bound_key symtab _ r e Hkr) in Hnth.
  assert (Hkey : Got.sort_key symtab e' = Got.sort_key symtab e)
    by congruence.
  assert (Hin : In e' (gotpage_syms this)).
  { apply (PoolFacts.finalize_incl symtab (gotpage_syms this) e').
    apply (nth_error_In _ _ Hnth). }
  assert (Hres : Got.get_gotpage_page_addr symtab ctx sec (sym e) (addend e)
                 = Ok (Int.u64 (addr (symtab (sym e')) + addend e))).
  { unfold Got.get_gotpage_page_addr. rewrite eta, Hnth.
    unfold Got.get_addr. unfold Got.sort_key in Hkey.
    inversion Hkey as [[Hp Hi Ha]]. rewrite Ha. reflexivity. }
  split.
  - exists e'. split; [exact Hin|split; [exact Hkey|exact Hres]].
  - intros Hid. rewrite Hres.
    assert (Heq : e' = e).
    { apply (PoolFacts.same_key_same_entry symtab (gotpage_syms this));
        [exact Hid|exact Hin|exact He|exact Hkey]. }
    rewrite Heq. reflexivity.
Qed.

End WithHeap.
End PoolRoundTrip.

(** ** The bytes of the GOT section *)

Module GotImage.
Section WithHeap.

Variable E : Target.
Variable symtab : SymPtr -> Symbol.

(** What slot [i] of the section holds in the image [m]. *)
Abbreviation slot this i m :=
  (Mem.load (big_endian E) 8 (sh_offset this + 8 * i) m).

Lemma store_slot_same this i v m :
  slot this i (Got.store_slot E this i v m) = Int.u64 v.
Proof. unfold Got.store_slot. rewrite MemFacts.load_store. reflexivity. Qed.

Lemma store_slot_other this i j v m :
  i <> j -> slot this j (Got.store_slot E this i v m) = slot this j m.
Proof.
  intros Hij. unfold Got.store_slot.
  apply MemFrame.load_store_disjoint.
  change (Z.of_nat 8) with 8. lia.
Qed.

Lemma store_bytes_repeat b n : forall off m a,
  off <= a < off + Z.of_nat n ->
  Mem.store_bytes off (repeat b n) m a = b.
Proof.
  induction n as [|n IH]; intros off m a Ha; [lia|].
  cbn [repeat Mem.store_bytes].
  destruct (Z.eq_dec a off) as [->|Hne].
  - rewrite MemFrame.store_bytes_outside by lia.
    rewrite Z.eqb_refl. reflexivity.
  - apply IH. lia.
Qed.

Lemma load_bytes_const b n : forall off m,
  (forall a, off <= a < off + Z.of_nat n -> m a = b) ->
  Mem.load_bytes n off m = repeat b n.
Proof.
  induction n as [|n IH]; intros off m H; [reflexivity|].
  cbn [Mem.load_bytes repeat]. rewrite (H off) by lia.
  f_equal. apply IH. intros a Ha. apply H. lia.
Qed.

(** The slots that [memset] cleared read as zero. *)
Lemma slot_after_memset this i m :
  0 <= i -> 8 * i + 8 <= sh_size this ->
  slot this i (Mem.store_bytes (sh_offset this)
                 (repeat Byte.x00 (Z.to_nat (sh_size this))) m) = 0.
Proof.
  intros Hi Hsz. unfold Mem.load.
  rewrite (load_bytes_const Byte.x00).
  - destruct (big_endian E); reflexivity.
  - intros a Ha. apply store_bytes_repeat.
    change (Z.of_nat 8) with 8 in Ha. rewrite Z2Nat.id by lia. lia.
Qed.

(** *** The loop over the dynamic symbol table *)

Lemma copy_dynsym_index this l : forall st,
  fst (fold_left (Got.copy_dynsym E symtab this) l st)
  = fst st + Z.of_nat (length l).
Proof.
  induction l as [|s l IH]; intros [i m]; cbn [fold_left length fst].
  - lia.
  - rewrite IH. unfold Got.copy_dynsym.
    destruct s as [p|]; [destruct (_ && _)|]; cbn [fst]; lia.
Qed.

Lemma copy_dynsym_below this l : forall st j,
  j < fst st + Got.NUM_RESERVED ->
  slot this j (snd (fold_left (Got.copy_dynsym E symtab this) l st))
  = slot this j (snd st).
Proof.
  induction l as [|s l IH]; intros [i m] j Hj; cbn [fold_left fst snd] in *;
    [reflexivity|].
  rewrite IH.
  - unfold Got.copy_dynsym.
    destruct s as [p|]; [destruct (_ && _)|]; cbn [snd]; try reflexivity.
    apply store_slot_other. lia.
  - unfold Got.copy_dynsym.
    destruct s as [p|]; [destruct (_ && _)|]; cbn [fst]; lia.
Qed.

Lemma copy_dynsym_at this l : forall st k s,
  nth_error l k = Some s ->
  slot this (fst st + Z.of_nat k + Got.NUM_RESERVED)
       (snd (fold_left (Got.copy_dynsym E symtab this) l st))
  = match s with
    | Some p =>
        if negb (file_is_dso (symtab p)) && negb (esym_is_undef (symtab p))
        then Int.u64 (addr_no_plt (symtab p))
        else slot this (fst st + Z.of_nat k + Got.NUM_RESERVED) (snd st)
    | None => slot this (fst st + Z.of_nat k + Got.NUM_RESERVED) (snd st)
    end.
Proof.
  induction l as [|s0 l IH]; intros [i m] k s Hk; [destruct k; discriminate|].
  cbn [fold_left fst snd]. destruct k as [|k].
  - simpl in Hk. inversion Hk; subst s0.
    rewrite copy_dynsym_below.
    + unfold Got.copy_dynsym. replace (i + Z.of_nat 0) with i by lia.
      destruct s as [p|]; [destruct (_ && _)|]; cbn [snd]; try reflexivity.
      apply store_slot_same.
    + unfold Got.copy_dynsym.
      destruct s as [p|]; [destruct (_ && _)|]; cbn [fst]; lia.
  - simpl in Hk.
    assert (Hfst : fst (Got.copy_dynsym E symtab this (i, m) s0) = i + 1).
    { unfold Got.copy_dynsym.
      destruct s0 as [p|]; [destruct (_ && _)|]; reflexivity. }
    assert (Hidx : i + Z.of_nat (S k) = i + 1 + Z.of_nat k) by lia.
    rewrite Hidx.
    pose proof (IH (Got.copy_dynsym E symtab this (i, m) s0) k s Hk) as H.
    rewrite Hfst in H. rewrite H.
    assert (Hsnd : slot this (i + 1 + Z.of_nat k + Got.NUM_RESERVED)
                     (snd (Got.copy_dynsym E symtab this (i, m) s0))
                   = slot this (i + 1 + Z.of_nat k + Got.NUM_RESERVED) m).
    { unfold Got.copy_dynsym.
      destruct s0 as [p|]; [destruct (_ && _)|]; cbn [snd]; try reflexivity.
      apply store_slot_other. lia. }
    rewrite Hsnd. reflexivity.
Qed.

(** *** The loop over the entries *)

Lemma copy_entry_index this es : forall st,
  Got.cs_i (fold_left (Got.copy_entry E symtab this) es st)
  = Got.cs_i st + Z.of_nat (length es).
Proof.
  induction es as [|e es IH]; intros st; cbn [fold_left length].
  - lia.
  - rewrite IH. cbn [Got.copy_entry Got.cs_i]. lia.
Qed.

Lemma copy_entry_below this es : forall st j,
  j < Got.cs_i st ->
  slot this j (Got.cs_image (fold_left (Got.copy_entry E symtab this) es st))
  = slot this j (Got.cs_image st).
Proof.
  induction es as [|e es IH]; intros st j Hj; cbn [fold_left];
    [reflexivity|].
  rewrite IH by (cbn [Got.copy_entry Got.cs_i]; lia).
  cbn [Got.copy_entry Got.cs_image]. apply store_slot_other. lia.
Qed.

Lemma copy_entry_at this es : forall st k e,
  nth_error es k = Some e ->
  slot this (Got.cs_i st + Z.of_nat k)
       (Got.cs_image (fold_left (Got.copy_entry E symtab this) es st))
  = Int.u64 (Got.ent_val e).
Proof.
  induction es as [|e0 es IH]; intros st k e Hk; [destruct k; discriminate|].
  cbn [fold_left]. destruct k as [|k].
  - simpl in Hk. inversion Hk; subst e0.
    replace (Got.cs_i st + Z.of_nat 0) with (Got.cs_i st) by lia.
    rewrite copy_entry_below by (cbn [Got.copy_entry Got.cs_i]; lia).
    cbn [Got.copy_entry Got.cs_image]. apply store_slot_same.
  - simpl in Hk.
    replace (Got.cs_i st + Z.of_nat (S k))
      with (Got.cs_i (Got.copy_entry E symtab this st e0) + Z.of_nat k)
      by (cbn [Got.copy_entry Got.cs_i]; lia).
    apply IH. exact Hk.
Qed.

(** X5.  Whatever the symbols and the pools, slot 1 of the section holds
    the value with only the top bit set once [copy_buf] is done. *)
Theorem copy_buf_slot_one_is_sentinel
        (ctx : Context) (this : MipsGotSection) (m : Mem.image) :
  slot this 1 (Got.cs_image (Got.copy_buf E symtab ctx this m)) = 2 ^ 63.
Proof.
  unfold Got.copy_buf.
  rewrite copy_entry_below
    by (cbn [Got.cs_i]; unfold Got.NUM_RESERVED; lia).
  cbn [Got.cs_image].
  rewrite copy_dynsym_below by (cbn [fst]; unfold Got.NUM_RESERVED; lia).
  cbn [snd]. rewrite store_slot_same. reflexivity.
Qed.

(** The entry loop of [copy_buf] starts at slot [R + D]. *)
Lemma copy_buf_entry_slot
      (ctx : Context) (this : MipsGotSection) (m : Mem.image)
      (k : nat) (e : Got.GotEntry) :
  nth_error (Got.get_got_entries E symtab ctx this) k = Some e ->
  slot this (Got.NUM_RESERVED + Z.of_nat (length (dynsym_symbols ctx))
             + Z.of_nat k)
       (Got.cs_image (Got.copy_buf E symtab ctx this m))
  = Int.u64 (Got.ent_val e).
Proof.
  intros Hk. unfold Got.copy_buf.
  exact (copy_entry_at this _
           (Got.mkCopy _
              (Got.NUM_RESERVED + Z.of_nat (length (dynsym_symbols ctx))) [])
           k e Hk).
Qed.

(** X6.  [copy_buf] leaves the value of the entry number [k] of
    [get_got_entries] in slot [R + D + k]: the entries fill consecutive
    slots after the reserved ones and the mirror of the dynamic symbol
    table, in their order, and none overwrites another. *)
Theorem copy_buf_stores_entries_in_order
        (ctx : Context) (this : MipsGotSection) (m : Mem.image)
        (k : nat) (e : Got.GotEntry) :
  nth_error (Got.get_got_entries E symtab ctx this) k = Some e ->
  slot this (Got.NUM_RESERVED + Z.of_nat (length (dynsym_symbols ctx))
             + Z.of_nat k)
       (Got.cs_image (Got.copy_buf E symtab ctx this m))
  = Int.u64 (Got.ent_val e).
Proof.
  intros Hk. unfold Got.copy_buf.
  exact (copy_entry_at this _
           (Got.mkCopy _
              (Got.NUM_RESERVED + Z.of_nat (length (dynsym_symbols ctx))) [])
           k e Hk).
Qed.

(** X7.  The mirror of the dynamic symbol table: slot [R + i] holds the
    address of the dynamic symbol number [i] when that symbol is defined
    by the link (not in a shared object, not undefined), and zero for a
    null entry or any other symbol, provided the section is large enough
    to have been cleared up to that slot. *)
Theorem copy_buf_mirrors_dynsym
        (ctx : Context) (this : MipsGotSection) (m : Mem.image)
        (i : nat) (s : option SymPtr) :
  nth_error (dynsym_symbols ctx) i = Some s ->
  8 * (Got.NUM_RESERVED + Z.of_nat i) + 8 <= sh_size this ->
  slot this (Got.NUM_RESERVED + Z.of_nat i)
       (Got.cs_image (Got.copy_buf E symtab ctx this m))
  = match s with
    | Some p =>
        if negb (file_is_dso (symtab p)) && negb (esym_is_undef (symtab p))
        then Int.u64 (addr_no_plt (symtab p))
        else 0
    | None => 0
    end.
Proof.
  intros Hi Hsz. unfold Got.copy_buf.
  assert (Hlt : (i < length (dynsym_symbols ctx))%nat).
  { apply nth_error_Some. congruence. }
  rewrite copy_entry_below by (cbn [Got.cs_i]; lia).
  cbn [Got.cs_image].
  pose proof (copy_dynsym_at this (dynsym_symbols ctx)
                (0, Got.store_slot E this 1 (2 ^ 63)
                      (Mem.store_bytes (sh_offset this)
                         (repeat Byte.x00 (Z.to_nat (sh_size this))) m))
                i s Hi) as H.
  cbn [fst snd] in H.
  replace (0 + Z.of_nat i + Got.NUM_RESERVED)
    with (Got.NUM_RESERVED + Z.of_nat i) in H by lia.
  rewrite H.
  assert (Hzero : slot this (Got.NUM_RESERVED + Z.of_nat i)
                    (Got.store_slot E this 1 (2 ^ 63)
                       (Mem.store_bytes (sh_offset this)
                          (repeat Byte.x00 (Z.to_nat (sh_size this))) m))
                  = 0).
  { rewrite store_slot_other by (unfold Got.NUM_RESERVED; lia).
    apply slot_after_memset; unfold Got.NUM_RESERVED in *; lia. }
  rewrite Hzero. reflexivity.
Qed.

End WithHeap.
End GotImage.

Module GotContents.
Section WithHeap.

Variable E : Target.
Variable symtab : SymPtr -> Symbol.

Lemma nth_error_entries_got ctx sec i e :
  nth_error (got_syms sec) i = Some e ->
  nth_error (Got.get_got_entries E symtab ctx sec) i
  = Some (Got.got_entry E symtab ctx e).
Proof.
  intros Hi. rewrite DynrelFacts.get_got_entries_eq.
  rewrite nth_error_app1.
  - apply map_nth_error. exact Hi.
  - rewrite length_map. apply nth_error_Some. congruence.
Qed.

Lemma nth_error_entries_gotpage ctx sec j e :
  nth_error (gotpage_syms sec) j = Some e ->
  nth_error (Got.get_got_entries E symtab ctx sec)
            (length (got_syms sec) + j)
  = Some (Got.gotpage_entry E symtab ctx e).
Proof.
  intros Hj. rewrite DynrelFacts.get_got_entries_eq.
  rewrite nth_error_app2 by (rewrite length_map; lia).
  rewrite length_map.
  replace (length (got_syms sec) + j - length (got_syms sec))%nat
    with j by lia.
  apply map_nth_error. exact Hj.
Qed.

Lemma get_addr_u64 no_plt e :
  Int.u64 (Got.get_addr symtab no_plt e) = Got.get_addr symtab no_plt e.
Proof. unfold Got.get_addr. apply IntFacts.u64_idem. Qed.

(** X8.  From scanning to the bytes: for pools whose symbols are
    identified by (file priority, symbol index) and a section that lies
    in the address space, the slot whose address [get_got_addr] returns
    for an appended pair is the slot in which [copy_buf] puts the
    content for that pair: zero for an imported symbol (the loader fills
    it), the address of the symbol plus the addend otherwise; likewise
    for the page pool, whose slots always hold the address plus the
    addend. *)
Theorem slot_found_holds_content_of_pair
        (ctx : Context) (this : MipsGotSection) (m : Mem.image) :
  let sec := Got.update_shdr symtab ctx this in
  let R := Got.NUM_RESERVED in
  let D := Z.of_nat (length (dynsym_symbols ctx)) in
  let P1 := Z.of_nat (length (got_syms sec)) in
  let P2 := Z.of_nat (length (gotpage_syms sec)) in
  let image := Got.cs_image (Got.copy_buf E symtab ctx sec m) in
  0 <= sh_addr this ->
  sh_addr this + (R + D + P1 + P2) * Int.word_size < 2 ^ 64 ->
  (Got.symbols_identified symtab (got_syms this) ->
   forall e, In e (got_syms this) ->
     exists a,
       Got.get_got_addr symtab ctx sec (sym e) (addend e) = Ok a
       /\ Mem.load (big_endian E) 8 (sh_offset sec + (a - sh_addr sec)) image
          = if is_imported (symtab (sym e)) then 0
            else Int.u64 (addr_no_plt (symtab (sym e)) + addend e))
  /\ (Got.symbols_identified symtab (gotpage_syms this) ->
      forall e, In e (gotpage_syms this) ->
        exists a,
          Got.get_gotpage_got_addr symtab ctx sec (sym e) (addend e) = Ok a
          /\ Mem.load (big_endian E) 8 (sh_offset sec + (a - sh_addr sec))
                      image
             = Int.u64 (addr (symtab (sym e)) + addend e)).
Proof.
  intros sec R D P1 P2 image Haddr Hfit.
  assert (Hw : Int.word_size = 8) by reflexivity.
  assert (HR : R = 2) by reflexivity.
  assert (HD : 0 <= D) by (subst D; lia).
  assert (HP1 : 0 <= P1) by (subst P1; lia).
  assert (HP2 : 0 <= P2) by (subst P2; lia).
  assert (Hsh : sh_addr sec = sh_addr this) by reflexivity.
  split.
  - intros Hid e He.
    assert (Hstrict : Got.strictly_sorted symtab (got_syms sec)).
    { subst sec. rewrite GotFacts.update_shdr_got_syms.
      apply PoolFacts.finalize_strict. }
    assert (He' : In e (got_syms sec)).
    { subst sec. rewrite GotFacts.update_shdr_got_syms.
      apply PoolFacts.finalize_In; [exact Hid|exact He]. }
    destruct (In_nth_error _ _ He') as [i Hi].
    assert (Hi' : Z.of_nat i < P1).
    { subst P1. apply Nat2Z.inj_lt. apply nth_error_Some. congruence. }
    assert (Hs : Got.sorted symtab (got_syms sec)).
    { subst sec. rewrite GotFacts.update_shdr_got_syms.
      apply PoolFacts.finalize_sorted. }
    pose proof (GotFacts.get_got_addr_lookup symtab ctx sec i e Hs Hi) as Hget.
    rewrite (PoolFacts.lower_bound_position symtab _ Hstrict i e Hi) in Hget.
    fold R D in Hget.
    rewrite IntFacts.u64_small in Hget by (rewrite Hsh; lia).
    eexists. split; [exact Hget|].
    replace (sh_offset sec
             + (sh_addr sec + (R + D + Z.of_nat i) * Int.word_size
                - sh_addr sec))
      with (sh_offset sec + 8 * (R + D + Z.of_nat i)) by lia.
    subst image R D.
    rewrite (GotImage.copy_buf_entry_slot E symtab ctx sec m i
               _ (nth_error_entries_got ctx sec i e Hi)).
    unfold Got.got_entry.
    destruct (is_imported (symtab (sym e))); [reflexivity|].
    destruct (arg_pic ctx && is_relative (symtab (sym e)));
      cbn [Got.ent_val]; apply get_addr_u64.
  - intros Hid e He.
    assert (Hstrict : Got.strictly_sorted symtab (gotpage_syms sec)).
    { subst sec. rewrite GotFacts.update_shdr_gotpage_syms.
      apply PoolFacts.finalize_strict. }
    assert (He' : In e (gotpage_syms sec)).
    { subst sec. rewrite GotFacts.update_shdr_gotpage_syms.
      apply PoolFacts.finalize_In; [exact Hid|exact He]. }
    destruct (In_nth_error _ _ He') as [j Hj].
    assert (Hj' : Z.of_nat j < P2).
    { subst P2. apply Nat2Z.inj_lt. apply nth_error_Some. congruence. }
    assert (Hs : Got.sorted symtab (gotpage_syms sec)).
    { subst sec. rewrite GotFacts.update_shdr_gotpage_syms.
      apply PoolFacts.finalize_sorted. }
    pose proof (GotFacts.get_gotpage_got_addr_lookup symtab ctx sec j e Hs Hj)
      as Hget.
    rewrite (PoolFacts.lower_bound_position symtab _ Hstrict j e Hj) in Hget.
    fold R D P1 in Hget.
    rewrite IntFacts.u64_small in Hget by (rewrite Hsh; lia).
    eexists. split; [exact Hget|].
    replace (sh_offset sec
             + (sh_addr sec + (R + D + P1 + Z.of_nat j) * Int.word_size
                - sh_addr sec))
      with (sh_offset sec
            + 8 * (R + D + Z.of_nat (length (got_syms sec) + j)))
      by (subst P1; lia).
    subst image R D.
    rewrite (GotImage.copy_buf_entry_slot E symtab ctx sec m
               (length (got_syms sec) + j)
               _ (nth_error_entries_gotpage ctx sec j e Hj)).
    unfold Got.gotpage_entry.
    destruct (arg_pic ctx && is_relative (symtab (sym e)));
      cbn [Got.ent_val]; apply get_addr_u64.
Qed.

Lemma filter_map_length {A B : Type} (p : B -> bool) (f : A -> B) l :
  length (filter p (map f l)) = length (filter (fun x => p (f x)) l).
Proof.
  induction l as [|x l IH]; simpl; [reflexivity|].
  destruct (p (f x)); simpl; rewrite IH; reflexivity.
Qed.

Lemma filter_ext_length {A : Type} (p q : A -> bool) l :
  (forall x, p x = q x) -> length (filter p l) = length (filter q l).
Proof.
  intros H. induction l as [|x l IH]; simpl; [reflexivity|].
  rewrite H. destruct (q x); simpl; rewrite IH; reflexivity.
Qed.

Lemma filter_false_length {A : Type} (p : A -> bool) l :
  (forall x, p x = false) -> length (filter p l) = O.
Proof.
  intros H. induction l as [|x l IH]; simpl; [reflexivity|].
  rewrite H. exact IH.
Qed.

(** X9.  [get_reldyn_size] never exceeds the number of pool entries, and
    in a link that is not position-independent it is the number of
    entries of the ordinary pool whose symbol is imported: the page pool
    and the symbols defined by the link need no dynamic relocation
    then. *)
Theorem reldyn_size_bounded_and_imports_only_without_pic
        (ctx : Context) (this : MipsGotSection) :
  (0 <= Got.get_reldyn_size E symtab ctx this
   <= Z.of_nat (length (got_syms this) + length (gotpage_syms this)))
  /\ (arg_pic ctx = false -> R_DYNAMIC E <> R_NONE ->
      Got.get_reldyn_size E symtab ctx this
      = Z.of_nat
          (length (filter (fun e => is_imported (symtab (sym e)))
                          (got_syms this)))).
Proof.
  unfold Got.get_reldyn_size. rewrite DynrelFacts.count_loop.
  rewrite DynrelFacts.get_got_entries_eq.
  rewrite filter_app, length_app, !filter_map_length.
  split.
  - pose proof (filter_length_le
                  (fun x => negb (Got.ent_r_type
                                    (Got.got_entry E symtab ctx x)
                                  =? R_NONE)) (got_syms this)).
    pose proof (filter_length_le
                  (fun x => negb (Got.ent_r_type
                                    (Got.gotpage_entry E symtab ctx x)
                                  =? R_NONE)) (gotpage_syms this)).
    lia.
  - intros Hpic Hdyn.
    rewrite (filter_false_length _ (gotpage_syms this)).
    + rewrite Nat.add_0_r. rewrite Z.add_0_l. f_equal.
      apply filter_ext_length. intros x.
      unfold Got.got_entry. rewrite Hpic.
      destruct (is_imported (symtab (sym x))); cbn [andb Got.ent_r_type].
      * apply Z.eqb_neq in Hdyn. rewrite Hdyn. reflexivity.
      * reflexivity.
    + intros x. unfold Got.gotpage_entry. rewrite Hpic. reflexivity.
Qed.

End WithHeap.
End GotContents.

(** ** More on the relocations of allocated sections *)

Module ApplyFrame.
Section WithCollaborators.

Variable E : Target.
Variable symtab : SymPtr -> Symbol.
Variable apply_toc_rel :
  ApplyState -> InputSection -> SymPtr -> ElfRel ->
  Z -> Z -> Z -> Z -> ApplyState.

Abbreviation apply_reloc := (Reloc.apply_reloc E symtab apply_toc_rel).
Abbreviation word loc m := (Mem.load (big_endian E) 4 loc m).

Lemma hi16_range val : 0 <= Reloc.hi16 val < 2 ^ 16.
Proof.
  unfold Reloc.hi16. change 65535 with (Z.ones 16).
  rewrite Z.land_ones by lia. apply Z.mod_pos_bound. lia.
Qed.

Lemma or32_outside loc bits m a :
  a < loc \/ loc + 4 <= a -> Reloc.or32 E loc bits m a = m a.
Proof.
  intros Ha. unfold Reloc.or32. apply MemFrame.store_outside.
  change (Z.of_nat 4) with 4. exact Ha.
Qed.

Lemma or32_zero loc m a : Reloc.or32 E loc 0 m a = m a.
Proof.
  unfold Reloc.or32. rewrite Z.lor_0_r. apply MemFrame.store_load_same.
Qed.

Lemma or32_high_half loc bits m :
  0 <= bits < 2 ^ 16 ->
  Z.shiftr (word loc (Reloc.or32 E loc bits m)) 16 = Z.shiftr (word loc m) 16.
Proof.
  intros Hb. rewrite RelocFacts.or32_load by lia.
  rewrite Z.shiftr_lor.
  rewrite (Z.shiftr_div_pow2 bits) by lia.
  rewrite (Z.div_small bits) by lia.
  apply Z.lor_0_r.
Qed.

(** A step that ORs a 16-bit quantity into the word at [loc], touches no
    other byte, leaves the cursor alone and only adds to the errors. *)
Abbreviation ors_field loc st st' :=
  ((exists bits,
      0 <= bits < 2 ^ 16
      /\ word loc (ap_image st') = Z.lor (word loc (ap_image st)) bits)
   /\ (forall a, a < loc \/ loc + 4 <= a -> ap_image st' a = ap_image st a)
   /\ ap_dynrel st' = ap_dynrel st
   /\ exists errs, errors (ap_ctx st') = errors (ap_ctx st) ++ errs).

Lemma check_appends isec rel s val lo hi ctx :
  exists errs, errors (Reloc.check isec rel s val lo hi ctx)
               = errors ctx ++ errs.
Proof.
  unfold Reloc.check. destruct (_ || _).
  - eexists. reflexivity.
  - exists []. rewrite app_nil_r. reflexivity.
Qed.

Lemma write_hi16_ors isec rel s loc val st :
  ors_field loc st (Reloc.write_hi16 E isec rel s loc val st).
Proof.
  split; [|split; [|split]].
  - exists (Reloc.hi16 val). split; [apply hi16_range|].
    apply RelocFacts.or32_load. pose proof (hi16_range val). lia.
  - intros a Ha. apply or32_outside. exact Ha.
  - reflexivity.
  - apply check_appends.
Qed.

Lemma write_lo16_ors isec rel s loc val st :
  ors_field loc st (Reloc.write_lo16 E isec rel s loc val st).
Proof.
  split; [|split; [|split]].
  - exists (Reloc.lo16 val). split; [apply RelocFacts.lo16_range|].
    apply RelocFacts.or32_load. pose proof (RelocFacts.lo16_range val). lia.
  - intros a Ha. apply or32_outside. exact Ha.
  - reflexivity.
  - apply check_appends.
Qed.

Lemma write_lo16_nc_ors loc val st :
  ors_field loc st (Reloc.write_lo16_nc E loc val st).
Proof.
  split; [|split; [|split]].
  - exists (Reloc.lo16 val). split; [apply RelocFacts.lo16_range|].
    apply RelocFacts.or32_load. pose proof (RelocFacts.lo16_range val). lia.
  - intros a Ha. apply or32_outside. exact Ha.
  - reflexivity.
  - exists []. rewrite app_nil_r. reflexivity.
Qed.

Lemma ors_field_refl loc st : ors_field loc st st.
Proof.
  split; [|split; [|split]].
  - exists 0. split; [lia|]. rewrite Z.lor_0_r. reflexivity.
  - intros a Ha. reflexivity.
  - reflexivity.
  - exists []. rewrite app_nil_r. reflexivity.
Qed.

(** X10.  Every relocation of an allocated section other than
    [R_MIPS_64] and [R_MIPS_GPREL32 | R_MIPS_64 << 8] patches a 16-bit
    immediate: it ORs a 16-bit quantity into the 32-bit word at the
    place of the relocation, so the upper half of the word (the opcode
    and the registers) is kept, no byte outside the word changes, the
    cursor into the dynamic relocations does not move and the reported
    errors only grow. *)
Theorem field_relocation_keeps_opcode_and_rest_of_image
        (isec : InputSection) (base : Z) (st st' : ApplyState)
        (rel : ElfRel) :
  Reloc.apply_dispatch (r_type rel) <> Reloc.AC_64 ->
  Reloc.apply_dispatch (r_type rel) <> Reloc.AC_GPREL32_64 ->
  apply_reloc isec base st rel = Ok st' ->
  let loc := base + r_offset rel in
  (exists bits,
     0 <= bits < 2 ^ 16
     /\ word loc (ap_image st') = Z.lor (word loc (ap_image st)) bits)
  /\ Z.shiftr (word loc (ap_image st')) 16
     = Z.shiftr (word loc (ap_image st)) 16
  /\ (forall a, a < loc \/ loc + 4 <= a -> ap_image st' a = ap_image st a)
  /\ ap_dynrel st' = ap_dynrel st
  /\ exists errs, errors (ap_ctx st') = errors (ap_ctx st) ++ errs.
Proof.
  intros H64 H32 Happ loc.
  assert (Hors : ors_field loc st st').
  { unfold Reloc.apply_reloc in Happ. fold loc in Happ.
    destruct (r_type rel =? R_NONE).
    { injection Happ as <-. apply ors_field_refl. }
    destruct (Reloc.apply_dispatch (r_type rel)).
    - congruence.
    - injection Happ as <-. apply write_hi16_ors.
    - injection Happ as <-. apply write_lo16_nc_ors.
    - congruence.
    - destruct (Int.u64 (r_addend rel) =? 0).
      + injection Happ as <-. apply write_lo16_ors.
      + destruct (Got.get_got_addr symtab (ap_ctx st) (extra_got (ap_ctx st))
                    (file_symbols (isec_file isec) (r_sym rel))
                    (Int.i64 (Int.u64 (r_addend rel))));
          cbn [bind] in Happ; [|discriminate|discriminate].
        injection Happ as <-. apply write_lo16_ors.
    - injection Happ as <-. apply write_hi16_ors.
    - injection Happ as <-. apply write_lo16_ors.
    - destruct (Got.get_gotpage_got_addr symtab (ap_ctx st)
                  (extra_got (ap_ctx st))
                  (file_symbols (isec_file isec) (r_sym rel))
                  (Int.i64 (Int.u64 (r_addend rel))));
        cbn [bind] in Happ; [|discriminate|discriminate].
      injection Happ as <-. apply write_lo16_ors.
    - injection Happ as <-. apply write_lo16_ors.
    - injection Happ as <-. apply ors_field_refl.
    - injection Happ as <-. apply write_hi16_ors.
    - injection Happ as <-. apply write_lo16_nc_ors.
    - injection Happ as <-. apply write_lo16_ors.
    - injection Happ as <-. apply write_hi16_ors.
    - injection Happ as <-. apply write_lo16_nc_ors.
    - injection Happ as <-. apply write_lo16_ors.
    - injection Happ as <-. apply write_lo16_ors.
    - discriminate. }
  destruct Hors as [[bits [Hb Hw]] [Hout [Hdyn Herr]]].
  split; [exists bits; split; [exact Hb|exact Hw]|].
  split; [|split; [exact Hout|split; [exact Hdyn|exact Herr]]].
  rewrite Hw, Z.shiftr_lor.
  rewrite (Z.shiftr_div_pow2 bits) by lia.
  rewrite (Z.div_small bits) by lia.
  apply Z.lor_0_r.
Qed.

(** What [write_hi16] does: the diagnostic exactly when the value, read
    as an [i64], is outside [-2^31, 2^31), and the field ORed into the
    word in either case. *)
Lemma write_hi16_effect isec rel s loc val st :
  let st' := Reloc.write_hi16 E isec rel s loc val st in
  (- 2 ^ 31 <= Int.i64 val < 2 ^ 31 -> ap_ctx st' = ap_ctx st)
  /\ (~ (- 2 ^ 31 <= Int.i64 val < 2 ^ 31) ->
        ap_ctx st'
        = report (ap_ctx st)
                 (OutOfRange rel s (Int.i64 val) (- 2 ^ 31) (2 ^ 31)))
  /\ word loc (ap_image st')
     = Z.lor (word loc (ap_image st)) (Reloc.hi16 val).
Proof.
  intros st'. subst st'. unfold Reloc.write_hi16, Reloc.check.
  cbn [ap_ctx ap_image].
  split; [|split].
  - intros Hr.
    destruct (Z.ltb_spec (Int.i64 val) (- 2 ^ 31)); [lia|].
    destruct (Z.leb_spec (2 ^ 31) (Int.i64 val)); [lia|].
    reflexivity.
  - intros Hr.
    destruct (Z.ltb_spec (Int.i64 val) (- 2 ^ 31)); [reflexivity|].
    destruct (Z.leb_spec (2 ^ 31) (Int.i64 val)); [reflexivity|lia].
  - apply RelocFacts.or32_load. pose proof (hi16_range val). lia.
Qed.

Lemma hi16_of_i64 u :
  0 <= u < 2 ^ 64 ->
  Reloc.hi16 u = ((Int.i64 u + 32768) / 2 ^ 16) mod 2 ^ 16.
Proof.
  intros Hu.
  assert (Hu' : Int.u64 (Int.i64 u) = u).
  { rewrite IntFacts.u64_i64. apply IntFacts.u64_small. exact Hu. }
  rewrite <- Hu' at 1. apply SplitFacts.hi16_u64.
Qed.

(** X11.  [R_MIPS_CALL_HI16] and [R_MIPS_GOT_HI16] write the high half
    of [G + GOT - GP], biased by [0x8000]; the out-of-range error is
    reported if and only if that value, read as a signed 64-bit number,
    is outside [-2^31, 2^31), and the field is written in both cases. *)
Theorem got_hi16_overflow_reported_iff_out_of_range
        (isec : InputSection) (base : Z) (st : ApplyState) (rel : ElfRel) :
  r_type rel = R_MIPS_CALL_HI16 \/ r_type rel = R_MIPS_GOT_HI16 ->
  let s := file_symbols (isec_file isec) (r_sym rel) in
  let loc := base + r_offset rel in
  let val := Int.u64 (Int.u64 (got_idx (symtab s) * Int.word_size)
                      + got_sh_addr (ap_ctx st) - gp_addr (ap_ctx st)) in
  let in_range := - 2 ^ 31 <= Int.i64 val < 2 ^ 31 in
  exists st',
    apply_reloc isec base st rel = Ok st'
    /\ (in_range -> ap_ctx st' = ap_ctx st)
    /\ (~ in_range ->
          ap_ctx st'
          = report (ap_ctx st)
                   (OutOfRange rel s (Int.i64 val) (- 2 ^ 31) (2 ^ 31)))
    /\ word loc (ap_image st')
       = Z.lor (word loc (ap_image st))
               (((Int.i64 val + 32768) / 2 ^ 16) mod 2 ^ 16).
Proof.
  intros Hty s loc val in_range.
  exists (Reloc.write_hi16 E isec rel s loc val st).
  split.
  - unfold Reloc.apply_reloc.
    destruct Hty as [Hty|Hty]; rewrite Hty; reflexivity.
  - pose proof (write_hi16_effect isec rel s loc val st) as [Hin [Hout Hw]].
    split; [exact Hin|]. split; [exact Hout|].
    rewrite Hw. f_equal.
    apply hi16_of_i64. subst val. apply IntFacts.u64_range.
Qed.

(** X12.  The forms that are written without a range check
    ([R_MIPS_GPREL16] with [R_MIPS_SUB] and [R_MIPS_LO16],
    [R_MIPS_TLS_TPREL_LO16], [R_MIPS_TLS_DTPREL_LO16]) and the 64-bit
    [R_MIPS_GPREL32] form never report anything, whatever the value:
    the context comes out as it went in. *)
Theorem unchecked_forms_report_nothing
        (isec : InputSection) (base : Z) (st : ApplyState) (rel : ElfRel) :
  In (r_type rel)
     [R_GPREL16_SUB_LO16; R_MIPS_TLS_TPREL_LO16; R_MIPS_TLS_DTPREL_LO16;
      R_GPREL32_64] ->
  exists st',
    apply_reloc isec base st rel = Ok st'
    /\ ap_ctx st' = ap_ctx st
    /\ ap_dynrel st' = ap_dynrel st.
Proof.
  intros Hty. unfold Reloc.apply_reloc.
  destruct Hty as [Hty|[Hty|[Hty|[Hty|[]]]]]; rewrite <- Hty;
    eexists; (split; [reflexivity|]); split; reflexivity.
Qed.

(** X13.  [R_MIPS_GOT_OFST] and [R_MIPS_JALR] change nothing: no byte of
    the image, nothing in the context, not the cursor. *)
Theorem got_ofst_and_jalr_change_nothing
        (isec : InputSection) (base : Z) (st : ApplyState) (rel : ElfRel) :
  r_type rel = R_MIPS_GOT_OFST \/ r_type rel = R_MIPS_JALR ->
  exists st',
    apply_reloc isec base st rel = Ok st'
    /\ (forall a, ap_image st' a = ap_image st a)
    /\ ap_ctx st' = ap_ctx st
    /\ ap_dynrel st' = ap_dynrel st.
Proof.
  intros Hty. unfold Reloc.apply_reloc.
  destruct Hty as [Hty|Hty]; rewrite Hty.
  - eexists. split; [reflexivity|].
    split; [|split; reflexivity].
    intros a. cbn [Reloc.write_lo16 ap_image].
    change (Reloc.lo16 0) with 0. apply or32_zero.
  - eexists. split; [reflexivity|].
    split; [reflexivity|]. split; reflexivity.
Qed.

(** The processor's reading of the two fields gives back the value they
    were made from. *)
Lemma fields_reconstruct u :
  0 <= u < 2 ^ 64 ->
  - 2 ^ 31 <= Int.i64 u < 2 ^ 31 ->
  Int.sign_extend32
    (Z.shiftl (Reloc.hi16 u) 16 + Int.sign_extend16 (Reloc.lo16 u))
  = Int.i64 u.
Proof.
  intros Hu Hr.
  assert (Hu' : u = Int.u64 (Int.i64 u)).
  { rewrite IntFacts.u64_i64. symmetry. apply IntFacts.u64_small. exact Hu. }
  set (val := Int.i64 u) in *. rewrite Hu'.
  rewrite SplitFacts.hi16_u64, SplitFacts.lo16_u64.
  rewrite Z.shiftl_mul_pow2 by lia.
  unfold Int.sign_extend16, Int.sign_extend32, Reloc.BIAS.
  rewrite Zplus_mod_idemp_l.
  pose proof (Z.div_mod val (2 ^ 16) ltac:(lia)) as Hv.
  pose proof (Z.mod_pos_bound val (2 ^ 16) ltac:(lia)) as Hb.
  set (q := val / 2 ^ 16) in *. set (r := val mod 2 ^ 16) in *.
  assert (Hhi : (val + 32768) / 2 ^ 16 = if r <? 32768 then q else q + 1).
  { destruct (Z.ltb_spec r 32768).
    - symmetry. apply Z.div_unique with (r := r + 32768); lia.
    - symmetry. apply Z.div_unique with (r := r - 32768); lia. }
  assert (Hlo : (val + 2 ^ 15) mod 2 ^ 16 - 2 ^ 15
                = if r <? 32768 then r else r - 2 ^ 16).
  { destruct (Z.ltb_spec r 32768).
    - rewrite <- (Z.mod_unique (val + 2 ^ 15) (2 ^ 16) q (r + 2 ^ 15));
        lia.
    - rewrite <- (Z.mod_unique (val + 2 ^ 15) (2 ^ 16) (q + 1)
                               (r - 2 ^ 15)); lia. }
  rewrite Hhi, Hlo.
  set (h := if r <? 32768 then q else q + 1) in *.
  set (l := if r <? 32768 then r else r - 2 ^ 16) in *.
  assert (Hsum : h * 2 ^ 16 + l = val).
  { subst h l. destruct (r <? 32768); lia. }
  pose proof (Z.div_mod h (2 ^ 16) ltac:(lia)) as Hh.
  pose proof (Z.mod_pos_bound h (2 ^ 16) ltac:(lia)) as Hhb.
  rewrite <- (Z.mod_unique (h mod 2 ^ 16 * 2 ^ 16 + l + 2 ^ 31) (2 ^ 32)
                           (- (h / 2 ^ 16)) (val + 2 ^ 31)); lia.
Qed.

Lemma field_of_or w bits :
  Z.land w 65535 = 0 -> 0 <= bits < 2 ^ 16 ->
  Z.land (Z.lor w bits) 65535 = bits.
Proof.
  intros Hw Hb. rewrite Z.land_lor_distr_l, Hw, Z.lor_0_l.
  change 65535 with (Z.ones 16). rewrite Z.land_ones by lia.
  apply Z.mod_small. exact Hb.
Qed.

(** X14.  A thread-pointer relative pair: when the instruction that
    carries [R_MIPS_TLS_TPREL_HI16] and the one that carries
    [R_MIPS_TLS_TPREL_LO16] (or the [DTPREL] pair) refer to the same
    symbol and addend, start with empty immediate fields and the offset
    [S + A - TP] fits 32 bits, then after both are applied the two
    fields, read as the processor reads them ([hi << 16] plus the
    sign-extended [lo]), give exactly [S + A - TP], and nothing is
    reported. *)
Theorem tls_hi_lo_pair_encodes_offset
        (isec : InputSection) (base : Z) (st : ApplyState)
        (rel_hi rel_lo : ElfRel) (tbase : Z) :
  (r_type rel_hi = R_MIPS_TLS_TPREL_HI16
   /\ r_type rel_lo = R_MIPS_TLS_TPREL_LO16
   /\ tbase = tp_addr (ap_ctx st))
  \/ (r_type rel_hi = R_MIPS_TLS_DTPREL_HI16
      /\ r_type rel_lo = R_MIPS_TLS_DTPREL_LO16
      /\ tbase = dtp_addr (ap_ctx st)) ->
  r_sym rel_lo = r_sym rel_hi ->
  r_addend rel_lo = r_addend rel_hi ->
  let s := file_symbols (isec_file isec) (r_sym rel_hi) in
  let loc_hi := base + r_offset rel_hi in
  let loc_lo := base + r_offset rel_lo in
  let v := Int.u64 (addr (symtab s) + Int.u64 (r_addend rel_hi) - tbase) in
  - 2 ^ 31 <= Int.i64 v < 2 ^ 31 ->
  loc_hi + 4 <= loc_lo \/ loc_lo + 4 <= loc_hi ->
  Z.land (word loc_hi (ap_image st)) 65535 = 0 ->
  Z.land (word loc_lo (ap_image st)) 65535 = 0 ->
  exists st1 st2,
    apply_reloc isec base st rel_hi = Ok st1
    /\ apply_reloc isec base st1 rel_lo = Ok st2
    /\ ap_ctx st2 = ap_ctx st
    /\ Int.sign_extend32
         (Z.shiftl (Z.land (word loc_hi (ap_image st2)) 65535) 16
          + Int.sign_extend16 (Z.land (word loc_lo (ap_image st2)) 65535))
       = Int.i64 v.
Proof.
  intros Hkind Hsym Hadd s loc_hi loc_lo v Hr Hdisj Hz_hi Hz_lo.
  set (st1 := Reloc.write_hi16 E isec rel_hi s loc_hi v st).
  set (st2 := Reloc.write_lo16_nc E loc_lo v st1).
  pose proof (write_hi16_effect isec rel_hi s loc_hi v st) as [Hctx [_ Hw1]].
  fold st1 in Hctx, Hw1. specialize (Hctx Hr).
  assert (Happ1 : apply_reloc isec base st rel_hi = Ok st1).
  { unfold Reloc.apply_reloc.
    destruct Hkind as [[Hh [_ Hb]]|[Hh [_ Hb]]]; rewrite Hh; subst tbase;
      reflexivity. }
  assert (Happ2 : apply_reloc isec base st1 rel_lo = Ok st2).
  { unfold Reloc.apply_reloc. rewrite Hctx, Hsym, Hadd.
    destruct Hkind as [[_ [Hl Hb]]|[_ [Hl Hb]]]; rewrite Hl; subst tbase;
      reflexivity. }
  exists st1, st2.
  split; [exact Happ1|]. split; [exact Happ2|]. split; [exact Hctx|].
  assert (Hv : 0 <= v < 2 ^ 64) by (subst v; apply IntFacts.u64_range).
  assert (Hlo_st1 : word loc_lo (ap_image st1) = word loc_lo (ap_image st)).
  { subst st1. cbn [Reloc.write_hi16 ap_image]. unfold Reloc.or32.
    apply MemFrame.load_store_disjoint. change (Z.of_nat 4) with 4. lia. }
  assert (Hhi_st2 : word loc_hi (ap_image st2) = word loc_hi (ap_image st1)).
  { subst st2. cbn [Reloc.write_lo16_nc ap_image]. unfold Reloc.or32.
    apply MemFrame.load_store_disjoint. change (Z.of_nat 4) with 4. lia. }
  assert (Hlo_st2 : word loc_lo (ap_image st2)
                    = Z.lor (word loc_lo (ap_image st1)) (Reloc.lo16 v)).
  { subst st2. cbn [Reloc.write_lo16_nc ap_image].
    apply RelocFacts.or32_load.
    pose proof (RelocFacts.lo16_range v). lia. }
  rewrite Hhi_st2, Hw1, Hlo_st2, Hlo_st1.
  rewrite (field_of_or _ _ Hz_hi (hi16_range v)).
  rewrite (field_of_or _ _ Hz_lo (RelocFacts.lo16_range v)).
  apply fields_reconstruct; assumption.
Qed.

(** X15.  The pass over an allocated section never ends in a fatal
    error of its own: whatever the records, and whatever the routine
    shared with the other backends does to the state for [R_MIPS_64],
    [apply_reloc_alloc] either completes (errors being reported in the
    context) or leaves the defined behaviour (an assertion,
    [unreachable()]). *)
Theorem apply_reloc_alloc_never_fatal
        (isec : InputSection) (base : Z) (ctx : Context) (m : Mem.image)
        (d : diag) :
  Reloc.apply_reloc_alloc E symtab apply_toc_rel isec base ctx m <> Fatal d.
Proof.
  unfold Reloc.apply_reloc_alloc.
  generalize (mkApply ctx m
                match reldyn_sh_offset ctx with
                | Some off =>
                    Some (off + file_reldyn_offset (isec_file isec)
                          + isec_reldyn_offset isec)
                | None => None
                end).
  induction (isec_rels isec) as [|rel rels IH]; intros st;
    cbn [Reloc.apply_loop]; [discriminate|].
  assert (Hstep : forall d', apply_reloc isec base st rel <> Fatal d').
  { intros d'. unfold Reloc.apply_reloc.
    destruct (r_type rel =? R_NONE); [discriminate|].
    destruct (Reloc.apply_dispatch (r_type rel)); try discriminate.
    - destruct (Int.u64 (r_addend rel) =? 0); [discriminate|].
      unfold Got.get_got_addr. destruct (Nat.ltb _ _); discriminate.
    - unfold Got.get_gotpage_got_addr. destruct (Nat.ltb _ _); discriminate. }
  destruct (apply_reloc isec base st rel) as [st1|d'|u]; cbn [bind].
  - apply IH.
  - exfalso. apply (Hstep d'). reflexivity.
  - discriminate.
Qed.

End WithCollaborators.
End ApplyFrame.

(** ** More on scanning *)

Module ScanFacts.
Section WithCollaborators.

Variables NEEDS_GOT NEEDS_GOTTP NEEDS_TLSGD : Z.
Variable record_undef_error :
  Context -> InputSection -> ElfRel -> bool * Context.
Variable scan_toc_rel :
  Context -> InputSection -> SymPtr -> ElfRel -> Context.
Variable check_tlsle :
  Context -> InputSection -> SymPtr -> ElfRel -> Context.

Abbreviation scan_switch :=
  (Reloc.scan_switch NEEDS_GOT NEEDS_GOTTP NEEDS_TLSGD scan_toc_rel
                     check_tlsle).
Abbreviation scan_loop :=
  (Reloc.scan_loop NEEDS_GOT NEEDS_GOTTP NEEDS_TLSGD record_undef_error
                   scan_toc_rel check_tlsle).

Lemma land_lor_absorb a b : Z.land (Z.lor a b) a = a.
Proof.
  apply Z.bits_inj'. intros n Hn.
  rewrite Z.land_spec, Z.lor_spec.
  destruct (Z.testbit a n), (Z.testbit b n); reflexivity.
Qed.

(** A context that differs from [ctx] only by what scanning may add:
    pairs at the end of the pools, bits in the flags of symbols, errors
    at the end of the list, the request for the module slot. *)
Abbreviation grown ctx ctx' :=
  ((exists l, got_syms (extra_got ctx') = got_syms (extra_got ctx) ++ l)
   /\ (exists l, gotpage_syms (extra_got ctx')
                 = gotpage_syms (extra_got ctx) ++ l)
   /\ (forall q, Z.land (sym_flags ctx' q) (sym_flags ctx q)
                 = sym_flags ctx q)
   /\ (exists l, errors ctx' = errors ctx ++ l)
   /\ (needs_tlsld ctx = true -> needs_tlsld ctx' = true)
   /\ sh_addr (extra_got ctx') = sh_addr (extra_got ctx)
   /\ sh_size (extra_got ctx') = sh_size (extra_got ctx)
   /\ dynsym_symbols ctx' = dynsym_symbols ctx
   /\ gp_addr ctx' = gp_addr ctx).

Lemma grown_refl ctx : grown ctx ctx.
Proof.
  split; [exists []; rewrite app_nil_r; reflexivity|].
  split; [exists []; rewrite app_nil_r; reflexivity|].
  split; [intros q; apply Z.land_diag|].
  split; [exists []; rewrite app_nil_r; reflexivity|].
  split; [intros H; exact H|].
  split; [reflexivity|]. split; [reflexivity|]. split; reflexivity.
Qed.

Lemma grown_or_flags ctx s bits : grown ctx (or_flags ctx s bits).
Proof.
  split; [exists []; rewrite app_nil_r; reflexivity|].
  split; [exists []; rewrite app_nil_r; reflexivity|].
  split.
  { intros q. unfold or_flags, set_sym_flags. cbn [sym_flags].
    destruct (Nat.eqb_spec q s) as [->|Hne].
    - apply land_lor_absorb.
    - apply Z.land_diag. }
  split; [exists []; rewrite app_nil_r; reflexivity|].
  split; [intros H; exact H|].
  split; [reflexivity|]. split; [reflexivity|]. split; reflexivity.
Qed.

(** X16.  Apart from the two arms handed to routines shared with the
    other backends ([R_MIPS_64] and the [TPREL] pair), scanning a record
    only adds: a pair at the end of a pool, bits to the flags of the
    symbol, an error at the end of the list, the request for the module
    slot.  Nothing is removed or cleared, and the layout of the section
    is not touched. *)
Theorem scan_switch_only_adds
        (isec : InputSection) (ctx ctx' : Context) (s : SymPtr)
        (rel : ElfRel) :
  Reloc.scan_dispatch (r_type rel) <> Reloc.SC_64 ->
  Reloc.scan_dispatch (r_type rel) <> Reloc.SC_TLS_TPREL ->
  scan_switch isec ctx s rel = Ok ctx' ->
  (exists l, got_syms (extra_got ctx') = got_syms (extra_got ctx) ++ l)
  /\ (exists l, gotpage_syms (extra_got ctx')
                = gotpage_syms (extra_got ctx) ++ l)
  /\ (forall q, Z.land (sym_flags ctx' q) (sym_flags ctx q)
                = sym_flags ctx q)
  /\ (exists l, errors ctx' = errors ctx ++ l)
  /\ (needs_tlsld ctx = true -> needs_tlsld ctx' = true)
  /\ sh_addr (extra_got ctx') = sh_addr (extra_got ctx)
  /\ sh_size (extra_got ctx') = sh_size (extra_got ctx)
  /\ dynsym_symbols ctx' = dynsym_symbols ctx
  /\ gp_addr ctx' = gp_addr ctx.
Proof.
  intros H64 Htp Hscan. unfold Reloc.scan_switch in Hscan.
  destruct (Reloc.scan_dispatch (r_type rel)).
  - congruence.
  - destruct (r_addend rel =? 0); injection Hscan as <-.
    + apply grown_or_flags.
    + split; [eexists; reflexivity|].
      split; [exists []; rewrite app_nil_r; reflexivity|].
      split; [intros q; apply Z.land_diag|].
      split; [exists []; rewrite app_nil_r; reflexivity|].
      split; [intros H; exact H|].
      split; [reflexivity|]. split; [reflexivity|]. split; reflexivity.
  - destruct (r_addend rel =? 0); cbn [assert bind] in Hscan;
      [|discriminate].
    injection Hscan as <-. apply grown_or_flags.
  - injection Hscan as <-.
    split; [exists []; rewrite app_nil_r; reflexivity|].
    split; [eexists; reflexivity|].
    split; [intros q; apply Z.land_diag|].
    split; [exists []; rewrite app_nil_r; reflexivity|].
    split; [intros H; exact H|].
    split; [reflexivity|]. split; [reflexivity|]. split; reflexivity.
  - destruct (r_addend rel =? 0); cbn [assert bind] in Hscan;
      [|discriminate].
    injection Hscan as <-. apply grown_or_flags.
  - congruence.
  - destruct (r_addend rel =? 0); cbn [assert bind] in Hscan;
      [|discriminate].
    injection Hscan as <-. apply grown_or_flags.
  - injection Hscan as <-.
    split; [exists []; rewrite app_nil_r; reflexivity|].
    split; [exists []; rewrite app_nil_r; reflexivity|].
    split; [intros q; apply Z.land_diag|].
    split; [exists []; rewrite app_nil_r; reflexivity|].
    split; [intros _; reflexivity|].
    split; [reflexivity|]. split; [reflexivity|]. split; reflexivity.
  - injection Hscan as <-. apply grown_refl.
  - injection Hscan as <-.
    split; [exists []; rewrite app_nil_r; reflexivity|].
    split; [exists []; rewrite app_nil_r; reflexivity|].
    split; [intros q; apply Z.land_diag|].
    split; [eexists; reflexivity|].
    split; [intros H; exact H|].
    split; [reflexivity|]. split; [reflexivity|]. split; reflexivity.
Qed.

(** X17.  The relocations that ask for a slot through a flag of the
    symbol (the call and GOT high/low forms, [R_MIPS_TLS_GOTTPREL],
    [R_MIPS_TLS_GD]) are scanned under the assertion that their addend
    is zero: with another addend the assertion fails and nothing is
    recorded; with a zero addend the flag is set and neither the pools
    nor the errors change. *)
Theorem flag_relocations_assert_zero_addend
        (isec : InputSection) (ctx : Context) (s : SymPtr) (rel : ElfRel) :
  In (r_type rel)
     [R_MIPS_CALL16; R_MIPS_CALL_HI16; R_MIPS_CALL_LO16; R_MIPS_GOT_HI16;
      R_MIPS_GOT_LO16; R_MIPS_TLS_GOTTPREL; R_MIPS_TLS_GD] ->
  (r_addend rel <> 0 ->
     scan_switch isec ctx s rel = Undefined AssertionFailed)
  /\ (r_addend rel = 0 ->
      exists ctx' flag,
        scan_switch isec ctx s rel = Ok ctx'
        /\ (flag = NEEDS_GOT \/ flag = NEEDS_GOTTP \/ flag = NEEDS_TLSGD)
        /\ sym_flags ctx' s = Z.lor (sym_flags ctx s) flag
        /\ (forall q, q <> s -> sym_flags ctx' q = sym_flags ctx q)
        /\ extra_got ctx' = extra_got ctx
        /\ errors ctx' = errors ctx).
Proof.
  intros Hty. unfold Reloc.scan_switch.
  assert (Hflags : forall bits,
             sym_flags (or_flags ctx s bits) s = Z.lor (sym_flags ctx s) bits
             /\ (forall q, q <> s ->
                   sym_flags (or_flags ctx s bits) q = sym_flags ctx q)).
  { intros bits. unfold or_flags, set_sym_flags. cbn [sym_flags]. split.
    - rewrite Nat.eqb_refl. reflexivity.
    - intros q Hq. apply Nat.eqb_neq in Hq. rewrite Hq. reflexivity. }
  destruct Hty as [Hty|[Hty|[Hty|[Hty|[Hty|[Hty|[Hty|[]]]]]]]];
    rewrite <- Hty;
    match goal with
    | |- context [Reloc.scan_dispatch ?t] =>
        let c := eval vm_compute in (Reloc.scan_dispatch t) in
        change (Reloc.scan_dispatch t) with c
    end;
    cbv beta iota;
    (split;
     [ intros Hn; apply Z.eqb_neq in Hn; rewrite Hn; reflexivity
     | intros H0; rewrite H0; cbn [assert bind Z.eqb];
       eexists; eexists; split; [reflexivity|];
       (split;
        [
        | split; [apply (proj1 (Hflags _))|];
          split; [apply (proj2 (Hflags _))|]; split; reflexivity ]);
       first [ left; reflexivity | right; left; reflexivity
             | right; right; reflexivity ] ]).
Qed.

(** X18.  Unknown relocation types do not stop the scanner: in a
    section without undefined symbols, when every record has a type
    outside the [switch], each one is reported, in the order of the
    records, and the pools, the flags and the rest of the context are as
    before. *)
Theorem unknown_relocations_all_reported
        (isec : InputSection) (rels : list ElfRel) (ctx : Context) :
  (forall c r, record_undef_error c isec r = (false, c)) ->
  Forall (fun r => r_type r <> R_NONE
                   /\ Reloc.scan_dispatch (r_type r) = Reloc.SC_default)
         rels ->
  exists ctx',
    scan_loop isec rels ctx = Ok ctx'
    /\ errors ctx' = errors ctx ++ map UnknownRelocation rels
    /\ extra_got ctx' = extra_got ctx
    /\ sym_flags ctx' = sym_flags ctx
    /\ needs_tlsld ctx' = needs_tlsld ctx.
Proof.
  intros Hundef Hall. revert ctx.
  induction Hall as [|r rels [Hnone Hdef] _ IH]; intros ctx.
  - exists ctx. cbn [Reloc.scan_loop map]. rewrite app_nil_r.
    split; [reflexivity|]. split; [reflexivity|].
    split; [reflexivity|]. split; reflexivity.
  - destruct (IH (report ctx (UnknownRelocation r)))
      as [ctx' [Hloop [Herr [Hgot [Hfl Hld]]]]].
    exists ctx'. split.
    + cbn [Reloc.scan_loop]. unfold Reloc.scan_reloc.
      apply Z.eqb_neq in Hnone. rewrite Hnone, Hundef.
      unfold Reloc.scan_switch. rewrite Hdef. cbn [bind]. exact Hloop.
    + split; [|split; [exact Hgot|split; [exact Hfl|exact Hld]]].
      rewrite Herr. cbn [report errors map].
      rewrite <- app_assoc. reflexivity.
Qed.

End WithCollaborators.
End ScanFacts.

(** ** More on sections that are not allocated, and on [.eh_frame] *)

Module NonallocFrame.
Section WithCollaborators.

Variable E : Target.
Variable symtab : SymPtr -> Symbol.
Variable record_undef_error :
  Context -> InputSection -> ElfRel -> bool * Context.
Variable get_fragment :
  Context -> InputSection -> ElfRel -> option SectionFragment * Z.
Variable get_tombstone :
  InputSection -> SymPtr -> option SectionFragment -> option Z.
Variable get_addend : Mem.image -> Z -> ElfRel -> Z.

Abbreviation apply_nonalloc_reloc :=
  (Reloc.apply_nonalloc_reloc E symtab record_undef_error get_fragment
                              get_tombstone get_addend).
Abbreviation apply_nonalloc_loop :=
  (Reloc.apply_nonalloc_loop E symtab record_undef_error get_fragment
                             get_tombstone get_addend).

Lemma absolute_step isec base st rel :
  r_type rel = R_NONE \/ r_type rel = R_MIPS_64 \/ r_type rel = R_MIPS_32 ->
  exists st',
    apply_nonalloc_reloc isec base st rel = Ok st'
    /\ forall a,
         a < base + r_offset rel \/ base + r_offset rel + 8 <= a ->
         snd st' a = snd st a.
Proof.
  intros Hty. destruct st as [ctx m]. unfold Reloc.apply_nonalloc_reloc.
  destruct (Z.eqb_spec (r_type rel) R_NONE) as [Hn|Hn].
  { eexists. split; [reflexivity|]. intros a _. reflexivity. }
  destruct (record_undef_error ctx isec rel) as [undef ctx1].
  destruct undef.
  { eexists. split; [reflexivity|]. intros a _. reflexivity. }
  destruct (get_fragment ctx1 isec rel) as [frag fa].
  destruct Hty as [Hty|[Hty|Hty]]; [contradiction| |]; rewrite Hty.
  - change (R_MIPS_64 =? R_MIPS_64) with true. cbv iota.
    destruct (get_tombstone isec _ frag);
      (eexists; split; [reflexivity|]);
      intros a Ha; cbn [snd]; apply MemFrame.store_outside;
      change (Z.of_nat 8) with 8; lia.
  - change (R_MIPS_32 =? R_MIPS_64) with false.
    change (R_MIPS_32 =? R_MIPS_32) with true. cbv iota.
    eexists. split; [reflexivity|].
    intros a Ha. cbn [snd]. apply MemFrame.store_outside.
    change (Z.of_nat 4) with 4. lia.
Qed.

(** X19.  A section that is not allocated and has only [R_NONE],
    [R_MIPS_64] and [R_MIPS_32] records is relocated without a fatal
    error, whether or not some of its symbols are undefined, and the
    pass changes no byte outside the cells the records point to. *)
Theorem absolute_only_section_is_relocated
        (isec : InputSection) (base : Z) (rels : list ElfRel)
        (st : Context * Mem.image) :
  Forall (fun r => r_type r = R_NONE \/ r_type r = R_MIPS_64
                   \/ r_type r = R_MIPS_32) rels ->
  exists st',
    apply_nonalloc_loop isec base rels st = Ok st'
    /\ forall a,
         Forall (fun r => a < base + r_offset r
                          \/ base + r_offset r + 8 <= a) rels ->
         snd st' a = snd st a.
Proof.
  intros Hall. revert st.
  induction Hall as [|r rels Hr _ IH]; intros st.
  - exists st. split; [reflexivity|]. intros a _. reflexivity.
  - destruct (absolute_step isec base st r Hr) as [st1 [Hstep Hframe]].
    destruct (IH st1) as [st' [Hloop Hrest]].
    exists st'. split.
    + cbn [Reloc.apply_nonalloc_loop]. rewrite Hstep. cbn [bind].
      exact Hloop.
    + intros a Ha. inversion Ha as [|? ? Hhead Htail]; subst.
      rewrite (Hrest a Htail). apply Hframe. exact Hhead.
Qed.

(** X20.  In [.eh_frame] an [R_MIPS_64] record is applied relative to
    its own place: the cell receives [val - sh_addr - offset], so that
    adding the address of the cell to what it holds gives [val] again
    (in 64-bit arithmetic), and no other byte changes.  [R_NONE] does
    nothing and any other type is fatal. *)
Theorem eh_reloc_is_relative_to_its_place
        (eh_offset eh_addr : Z) (rel : ElfRel) (offset val : Z)
        (m : Mem.image) :
  let r := Reloc.apply_eh_reloc E eh_offset eh_addr rel offset val m in
  let loc := eh_offset + offset in
  (r_type rel = R_NONE -> r = Ok m)
  /\ (r_type rel = R_MIPS_64 ->
      exists m',
        r = Ok m'
        /\ Int.u64 (Mem.load (big_endian E) 8 loc m' + (eh_addr + offset))
           = Int.u64 val
        /\ forall a, a < loc \/ loc + 8 <= a -> m' a = m a)
  /\ (r_type rel <> R_NONE -> r_type rel <> R_MIPS_64 ->
      r = Fatal (UnsupportedEhFrameRelocation rel)).
Proof.
  intros r loc. subst r. unfold Reloc.apply_eh_reloc. fold loc.
  split; [|split].
  - intros ->. reflexivity.
  - intros ->. eexists. split; [reflexivity|]. split.
    + rewrite MemFacts.load_store. change (Z.of_nat 8 * 8) with 64.
      fold (Int.u64 (Int.u64 (val - eh_addr - offset))).
      rewrite IntFacts.u64_idem, IntFacts.u64_add_l. f_equal. lia.
    + intros a Ha. apply MemFrame.store_outside.
      change (Z.of_nat 8) with 8. exact Ha.
  - intros Hn H64. apply Z.eqb_neq in Hn, H64. rewrite Hn, H64.
    reflexivity.
Qed.

End WithCollaborators.
End NonallocFrame.

(** ** More on the CIE rewriter *)

Module CieFrame.

Lemma nth_error_write_other buf : forall i j v,
  i <> j -> nth_error (Cie.write buf i v) j = nth_error buf j.
Proof.
  induction buf as [|b buf IH]; intros i j v Hij; [destruct i; reflexivity|].
  destruct i as [|i], j as [|j]; cbn [Cie.write nth_error];
    try reflexivity; try congruence.
  apply IH. congruence.
Qed.

Lemma nth_error_write_same buf : forall i v,
  (i < length buf)%nat -> nth_error (Cie.write buf i v) i = Some v.
Proof.
  induction buf as [|b buf IH]; intros i v Hi; [simpl in Hi; lia|].
  destruct i as [|i]; cbn [Cie.write nth_error]; [reflexivity|].
  apply IH. simpl in Hi. lia.
Qed.

(** The byte [rewrite] puts in place of an absolute encoding [b] of a
    value of [sz] bytes. *)
Abbreviation pcrel_form b sz :=
  (byte.of_Z (Z.lor (Z.lor (Z.land b 128) DW_EH_PE_pcrel)
                    (if sz =? 4 then DW_EH_PE_sdata4
                     else DW_EH_PE_sdata8))).

(** What [rewrite] returns, in terms of the byte it finds. *)
Lemma rewrite_result buf ptr buf' sz :
  Cie.rewrite buf ptr = Ok (buf', sz) ->
  exists x,
    nth_error buf ptr = Some x
    /\ Cie.pointer_size (byte.unsigned x) = Ok sz
    /\ buf' = if Z.land (byte.unsigned x) 112 =? DW_EH_PE_absptr
              then Cie.write buf ptr (pcrel_form (byte.unsigned x) sz)
              else buf.
Proof.
  unfold Cie.rewrite, Cie.read. intros H.
  destruct (nth_error buf ptr) as [x|]; cbn [bind] in H; [|discriminate].
  exists x. split; [reflexivity|].
  destruct (Cie.pointer_size (byte.unsigned x)) as [sz'| |]; cbn [bind] in H;
    try discriminate.
  destruct (Z.land (byte.unsigned x) 112 =? DW_EH_PE_absptr).
  - destruct (sz' =? 4) eqn:H4; injection H as <- <-; rewrite H4;
      split; reflexivity.
  - injection H as <- <-. split; reflexivity.
Qed.

(** The 256 encodings, one by one: the byte that replaces an absolute
    encoding is PC-relative, has the indirection bit and the size of the
    byte it replaces, and is left alone by a second [rewrite]. *)
Lemma pcrel_form_facts (x : byte) (sz : Z) :
  Cie.pointer_size (byte.unsigned x) = Ok sz ->
  Z.land (byte.unsigned x) 112 = DW_EH_PE_absptr ->
  let x' := pcrel_form (byte.unsigned x) sz in
  Z.land (byte.unsigned x') 112 = DW_EH_PE_pcrel
  /\ Z.land (byte.unsigned x') 128 = Z.land (byte.unsigned x) 128
  /\ Cie.pointer_size (byte.unsigned x') = Ok sz.
Proof.
  intros Hsz Habs.
  destruct x; vm_compute in Habs; try discriminate Habs;
    vm_compute in Hsz; try discriminate Hsz;
    injection Hsz as <-; vm_compute; repeat split; reflexivity.
Qed.

(** X21.  What the lambda [rewrite] does to the encoding byte at [ptr]:
    an encoding that is not absolute is left as it is; an absolute one
    becomes PC-relative with the same indirection bit; in both cases the
    size of the encoded value is the one [rewrite] returns, before and
    after, no other byte changes, and a second [rewrite] at the same
    place changes nothing and returns the same size. *)
Theorem rewrite_makes_encoding_relative_and_keeps_size
        (buf buf' : list byte) (ptr : nat) (sz : Z) :
  Cie.rewrite buf ptr = Ok (buf', sz) ->
  exists x x',
    nth_error buf ptr = Some x
    /\ nth_error buf' ptr = Some x'
    /\ Cie.pointer_size (byte.unsigned x) = Ok sz
    /\ Cie.pointer_size (byte.unsigned x') = Ok sz
    /\ Z.land (byte.unsigned x') 128 = Z.land (byte.unsigned x) 128
    /\ Z.land (byte.unsigned x') 112 <> DW_EH_PE_absptr
    /\ (Z.land (byte.unsigned x) 112 <> DW_EH_PE_absptr -> buf' = buf)
    /\ (Z.land (byte.unsigned x) 112 = DW_EH_PE_absptr ->
        Z.land (byte.unsigned x') 112 = DW_EH_PE_pcrel)
    /\ length buf' = length buf
    /\ (forall i, i <> ptr -> nth_error buf' i = nth_error buf i)
    /\ Cie.rewrite buf' ptr = Ok (buf', sz).
Proof.
  intros H. destruct (rewrite_result _ _ _ _ H) as [x [Hx [Hsz Hbuf]]].
  assert (Hlt : (ptr < length buf)%nat) by (apply nth_error_Some; congruence).
  destruct (Z.eqb_spec (Z.land (byte.unsigned x) 112) DW_EH_PE_absptr)
    as [Habs|Hrel].
  - destruct (pcrel_form_facts x sz Hsz Habs) as [Hpc [Hind Hsz']].
    exists x, (pcrel_form (byte.unsigned x) sz).
    assert (Hx' : nth_error buf' ptr
                  = Some (pcrel_form (byte.unsigned x) sz)).
    { rewrite Hbuf. apply nth_error_write_same. exact Hlt. }
    split; [exact Hx|]. split; [exact Hx'|].
    split; [exact Hsz|]. split; [exact Hsz'|]. split; [exact Hind|].
    split; [rewrite Hpc; discriminate|].
    split; [intros Hn; contradiction|].
    split; [intros _; exact Hpc|].
    split; [rewrite Hbuf; apply CieFacts.write_length|].
    split; [intros i Hi; rewrite Hbuf; apply nth_error_write_other;
            congruence|].
    unfold Cie.rewrite, Cie.read. rewrite Hx'. cbn [bind].
    rewrite Hsz'. cbn [bind]. rewrite Hpc. reflexivity.
  - subst buf'. exists x, x.
    split; [exact Hx|]. split; [exact Hx|].
    split; [exact Hsz|]. split; [exact Hsz|]. split; [reflexivity|].
    split; [exact Hrel|].
    split; [reflexivity|].
    split; [intros Habs; contradiction|].
    split; [reflexivity|].
    split; [reflexivity|].
    exact H.
Qed.

(** [x'] is [x], or [x] was an absolute encoding and [x'] is the
    PC-relative encoding of a value of the same size, with the same
    indirection bit. *)
Abbreviation made_relative x x' :=
  (x' = x
   \/ (Z.land (byte.unsigned x) 112 = DW_EH_PE_absptr
       /\ Z.land (byte.unsigned x') 112 = DW_EH_PE_pcrel
       /\ Z.land (byte.unsigned x') 128 = Z.land (byte.unsigned x) 128
       /\ Cie.pointer_size (byte.unsigned x')
          = Cie.pointer_size (byte.unsigned x))).

Lemma rewrite_frame buf ptr buf1 sz :
  Cie.rewrite buf ptr = Ok (buf1, sz) ->
  length buf1 = length buf
  /\ (forall i, i <> ptr -> nth_error buf1 i = nth_error buf i)
  /\ (forall x, nth_error buf ptr = Some x ->
      exists x', nth_error buf1 ptr = Some x' /\ made_relative x x').
Proof.
  intros H. destruct (rewrite_result _ _ _ _ H) as [x [Hx [Hsz Hbuf]]].
  assert (Hlt : (ptr < length buf)%nat) by (apply nth_error_Some; congruence).
  destruct (Z.eqb_spec (Z.land (byte.unsigned x) 112) DW_EH_PE_absptr)
    as [Habs|Hrel]; subst buf1.
  - destruct (pcrel_form_facts x sz Hsz Habs) as [Hpc [Hind Hsz']].
    split; [apply CieFacts.write_length|].
    split; [intros i Hi; apply nth_error_write_other; congruence|].
    intros y Hy. assert (y = x) by congruence. subst y.
    eexists. split; [apply nth_error_write_same; exact Hlt|].
    right. split; [exact Habs|]. split; [exact Hpc|].
    split; [exact Hind|]. rewrite Hsz, Hsz'. reflexivity.
  - split; [reflexivity|]. split; [reflexivity|].
    intros y Hy. exists y. split; [exact Hy|left; reflexivity].
Qed.

(** The loop writes at the cursor [p] only, and the cursor never moves
    back: bytes before it are final. *)
Lemma aug_loop_frame fuel : forall ctx buf aug p ctx' buf',
  Cie.aug_loop fuel ctx buf aug p = Ok (ctx', buf') ->
  length buf' = length buf
  /\ (forall i, (i < p)%nat -> nth_error buf' i = nth_error buf i)
  /\ (forall i x, nth_error buf i = Some x ->
      exists x', nth_error buf' i = Some x' /\ made_relative x x')
  /\ exists errs, ctx' = fold_left report errs ctx.
Proof.
  induction fuel as [|fuel IH]; intros ctx buf aug p ctx' buf' H;
    [discriminate H|].
  cbn [Cie.aug_loop] in H.
  destruct (Cie.read buf aug) as [c| |u]; cbn [bind] in H; try discriminate H.
  assert (Hstop : forall c0 b0, Ok (c0, b0) = Ok (ctx', buf') ->
            c0 = ctx -> b0 = buf ->
            length buf' = length buf
            /\ (forall i, (i < p)%nat -> nth_error buf' i = nth_error buf i)
            /\ (forall i x, nth_error buf i = Some x ->
                exists x', nth_error buf' i = Some x' /\ made_relative x x')
            /\ exists errs, ctx' = fold_left report errs ctx).
  { intros c0 b0 He -> ->. injection He as <- <-.
    split; [reflexivity|]. split; [reflexivity|].
    split; [intros i x Hx; exists x; split; [exact Hx|left; reflexivity]|].
    exists []. reflexivity. }
  assert (Hrw : forall k : list byte * Z -> nat,
            (forall r, (p < k r)%nat) ->
            (r <- Cie.rewrite buf p ;;
             Cie.aug_loop fuel ctx (fst r) (S aug) (k r)) = Ok (ctx', buf') ->
            length buf' = length buf
            /\ (forall i, (i < p)%nat -> nth_error buf' i = nth_error buf i)
            /\ (forall i x, nth_error buf i = Some x ->
                exists x', nth_error buf' i = Some x' /\ made_relative x x')
            /\ exists errs, ctx' = fold_left report errs ctx).
  { intros k Hk Hr.
    destruct (Cie.rewrite buf p) as [[buf1 sz]| |] eqn:Hrew;
      cbn [bind fst] in Hr; try discriminate Hr.
    destruct (rewrite_frame _ _ _ _ Hrew) as [Hl1 [Ho1 Hp1]].
    destruct (IH _ _ _ _ _ _ Hr) as [Hl [Hb [Hc He]]].
    specialize (Hk (buf1, sz)).
    split; [congruence|].
    split; [intros i Hi; rewrite Hb by lia; apply Ho1; lia|].
    split; [|exact He].
    intros i x Hx. destruct (Nat.eq_dec i p) as [->|Hne].
    - destruct (Hp1 x Hx) as [x' [Hx' Hrel]].
      exists x'. split; [rewrite Hb by lia; exact Hx'|exact Hrel].
    - apply Hc. rewrite Ho1 by exact Hne. exact Hx. }
  destruct (c =? 0); [apply (Hstop _ _ H); reflexivity|].
  destruct (_ || _); [apply (Hrw (fun _ => S p)); [intros; lia|exact H]|].
  destruct (c =? 80);
    [apply (Hrw (fun r => (p + Z.to_nat (snd r) + 1)%nat));
     [intros; lia|exact H]|].
  destruct (_ || _); [exact (IH _ _ _ _ _ _ H)|].
  destruct (IH _ _ _ _ _ _ H) as [Hl [Hb [Hc [errs He]]]].
  split; [exact Hl|]. split; [exact Hb|]. split; [exact Hc|].
  exists (UnknownAugmentation (byte.of_Z c) :: errs). exact He.
Qed.

Lemma skipn_cons {A} (l : list A) : forall n x,
  nth_error l n = Some x -> skipn n l = x :: skipn (S n) l.
Proof.
  induction l as [|a l IH]; intros n x H; [destruct n; discriminate H|].
  destruct n as [|n]; [injection H as ->; reflexivity|].
  cbn [nth_error] in H. cbn [skipn]. rewrite (IH _ _ H). reflexivity.
Qed.

Lemma read_uleb_advances buf p q :
  Cie.read_uleb buf p = Ok q -> (p < q)%nat.
Proof.
  unfold Cie.read_uleb.
  destruct (Cie.uleb_length (skipn p buf)) as [n| |] eqn:Hn; cbn [bind];
    intros H; try discriminate H.
  injection H as <-. enough (0 < n)%nat by lia.
  destruct (skipn p buf) as [|b s]; cbn [Cie.uleb_length] in Hn;
    [discriminate Hn|].
  destruct (Z.testbit _ 7).
  - destruct (Cie.uleb_length s); cbn [bind] in Hn; try discriminate Hn.
    injection Hn as <-. lia.
  - injection Hn as <-. lia.
Qed.

(** X22.  What [mips_rewrite_cie] may change in a record it accepts:
    the record keeps its length; the nine bytes of the length, CIE id
    and version fields and the augmentation string with its terminator
    are untouched; every other byte is either untouched or was an
    absolute encoding and now is the PC-relative encoding of a value of
    the same size with the same indirection bit; and the context only
    gains diagnostics. *)
Theorem mips_rewrite_cie_changes_only_absolute_encodings
        (ctx ctx' : Context) (buf buf' : list byte) :
  Cie.mips_rewrite_cie ctx buf = Ok (ctx', buf') ->
  length buf' = length buf
  /\ (forall i, (i <= 9)%nat -> nth_error buf' i = nth_error buf i)
  /\ (forall n i, Cie.strlen (skipn 9 buf) = Ok n -> (i <= 9 + n)%nat ->
      nth_error buf' i = nth_error buf i)
  /\ (forall i x, nth_error buf i = Some x ->
      exists x', nth_error buf' i = Some x' /\ made_relative x x')
  /\ exists errs, ctx' = fold_left report errs ctx.
Proof.
  unfold Cie.mips_rewrite_cie. intros H.
  destruct (Cie.read buf 9) as [c| |] eqn:Hc; cbn [bind] in H;
    try discriminate H.
  destruct (c =? 122) eqn:Hz; cbn [negb] in H.
  2: { injection H as <- <-.
       split; [reflexivity|]. split; [reflexivity|]. split; [reflexivity|].
       split; [intros i x Hx; exists x; split; [exact Hx|left; reflexivity]|].
       exists []. reflexivity. }
  destruct (Cie.strlen (skipn 10 buf)) as [m| |] eqn:Hm; cbn [bind] in H;
    try discriminate H.
  destruct (Cie.read_uleb buf (10 + m + 1)) as [p1| |] eqn:H1; cbn [bind] in H;
    try discriminate H.
  destruct (Cie.read_uleb buf p1) as [p2| |] eqn:H2; cbn [bind] in H;
    try discriminate H.
  destruct (Cie.read_uleb buf (S p2)) as [p3| |] eqn:H3; cbn [bind] in H;
    try discriminate H.
  apply read_uleb_advances in H1, H2, H3.
  destruct (aug_loop_frame _ _ _ _ _ _ _ H) as [Hl [Hb [Hrel He]]].
  split; [exact Hl|].
  split; [intros i Hi; apply Hb; lia|].
  split; [|split; [exact Hrel|exact He]].
  intros n i Hn Hi. apply Hb.
  unfold Cie.read in Hc.
  destruct (nth_error buf 9) as [x|] eqn:Hx; [|discriminate Hc].
  injection Hc as Hc.
  rewrite (skipn_cons _ _ _ Hx) in Hn. cbn [Cie.strlen] in Hn.
  rewrite Hc in Hn.
  apply Z.eqb_eq in Hz. rewrite Hz in Hn.
  change (122 =? 0) with false in Hn.
  rewrite Hm in Hn. cbn [bind] in Hn. injection Hn as <-. lia.
Qed.

(** After [rewrite], the byte at [ptr] is not an absolute encoding and
    has the size [rewrite] returned. *)
Lemma rewrite_leaves_relative buf ptr buf1 sz :
  Cie.rewrite buf ptr = Ok (buf1, sz) ->
  exists x', nth_error buf1 ptr = Some x'
             /\ Z.land (byte.unsigned x') 112 <> DW_EH_PE_absptr
             /\ Cie.pointer_size (byte.unsigned x') = Ok sz.
Proof.
  intros H. destruct (rewrite_result _ _ _ _ H) as [x [Hx [Hsz Hbuf]]].
  assert (Hlt : (ptr < length buf)%nat) by (apply nth_error_Some; congruence).
  destruct (Z.eqb_spec (Z.land (byte.unsigned x) 112) DW_EH_PE_absptr)
    as [Habs|Hrel]; subst buf1.
  - destruct (pcrel_form_facts x sz Hsz Habs) as [Hpc [_ Hsz']].
    eexists. split; [apply nth_error_write_same; exact Hlt|].
    split; [rewrite Hpc; discriminate|exact Hsz'].
  - exists x. split; [exact Hx|]. split; [exact Hrel|exact Hsz].
Qed.

Lemma rewrite_fixed buf ptr x sz :
  nth_error buf ptr = Some x ->
  Z.land (byte.unsigned x) 112 <> DW_EH_PE_absptr ->
  Cie.pointer_size (byte.unsigned x) = Ok sz ->
  Cie.rewrite buf ptr = Ok (buf, sz).
Proof.
  intros Hx Hrel Hsz. unfold Cie.rewrite, Cie.read.
  rewrite Hx. cbn [bind]. rewrite Hsz. cbn [bind].
  destruct (Z.eqb_spec (Z.land (byte.unsigned x) 112) DW_EH_PE_absptr);
    [contradiction|reflexivity].
Qed.

(** A second pass over the result of the loop follows the same path and
    finds nothing to change. *)
Lemma aug_loop_replay fuel : forall ctx buf aug p ctx' buf' z,
  Cie.aug_loop fuel ctx buf aug p = Ok (ctx', buf') ->
  (aug <= z < p)%nat -> Cie.read buf z = Ok 0 ->
  exists errs,
    ctx' = fold_left report errs ctx
    /\ forall ctx2,
         Cie.aug_loop fuel ctx2 buf' aug p
         = Ok (fold_left report errs ctx2, buf').
Proof.
  induction fuel as [|fuel IH]; intros ctx buf aug p ctx' buf' z H Hz Hnul;
    [discriminate H|].
  destruct (aug_loop_frame _ _ _ _ _ _ _ H) as [_ [Hbelow _]].
  cbn [Cie.aug_loop] in H |- *.
  assert (Hread : Cie.read buf' aug = Cie.read buf aug).
  { unfold Cie.read. rewrite Hbelow by lia. reflexivity. }
  destruct (Cie.read buf aug) as [c| |u] eqn:Hc; cbn [bind] in H;
    try discriminate H.
  destruct (c =? 0) eqn:Hc0.
  { injection H as <- <-. exists []. split; [reflexivity|].
    intros ctx2. rewrite Hc. cbn [bind]. rewrite Hc0. reflexivity. }
  assert (Hz' : (S aug <= z)%nat).
  { destruct (Nat.eq_dec aug z) as [->|]; [|lia].
    rewrite Hc in Hnul. injection Hnul as ->. discriminate Hc0. }
  assert (Hrw : forall k : list byte * Z -> nat,
            (forall r, (p < k r)%nat) ->
            (forall b1 b2 sz, k (b1, sz) = k (b2, sz)) ->
            (r <- Cie.rewrite buf p ;;
             Cie.aug_loop fuel ctx (fst r) (S aug) (k r)) = Ok (ctx', buf') ->
            exists errs,
              ctx' = fold_left report errs ctx
              /\ forall ctx2,
                   (r <- Cie.rewrite buf' p ;;
                    Cie.aug_loop fuel ctx2 (fst r) (S aug) (k r))
                   = Ok (fold_left report errs ctx2, buf')).
  { intros k Hk Hksz Hr.
    destruct (Cie.rewrite buf p) as [[buf1 sz]| |] eqn:Hrew;
      cbn [bind fst] in Hr; try discriminate Hr.
    destruct (rewrite_frame _ _ _ _ Hrew) as [_ [Ho1 _]].
    destruct (rewrite_leaves_relative _ _ _ _ Hrew) as [x' [Hx' [Hrel Hsz]]].
    destruct (aug_loop_frame _ _ _ _ _ _ _ Hr) as [_ [Hb1 _]].
    assert (Hnul1 : Cie.read buf1 z = Ok 0).
    { unfold Cie.read in Hnul |- *. rewrite Ho1 by lia. exact Hnul. }
    assert (Hk1 := Hk (buf1, sz)).
    destruct (IH _ _ _ _ _ _ z Hr) as [errs [He Hrun]];
      [lia|exact Hnul1|].
    exists errs. split; [exact He|]. intros ctx2.
    rewrite (rewrite_fixed buf' p x' sz);
      [|rewrite Hb1 by exact Hk1; exact Hx'|exact Hrel|exact Hsz].
    cbn [bind fst]. rewrite (Hksz buf' buf1 sz). apply Hrun. }
  destruct ((c =? 76) || (c =? 82)) eqn:HLR.
  { destruct (Hrw (fun _ => S p)) as [errs [He Hrun]];
      [intros; lia|reflexivity|exact H|].
    exists errs. split; [exact He|]. intros ctx2.
    rewrite Hread. cbn [bind]. rewrite Hc0, HLR. apply Hrun. }
  destruct (c =? 80) eqn:HP.
  { destruct (Hrw (fun r => (p + Z.to_nat (snd r) + 1)%nat))
      as [errs [He Hrun]]; [intros; lia|reflexivity|exact H|].
    exists errs. split; [exact He|]. intros ctx2.
    rewrite Hread. cbn [bind]. rewrite Hc0, HLR, HP. apply Hrun. }
  destruct ((c =? 83) || (c =? 66)) eqn:HSB.
  { destruct (IH _ _ _ _ _ _ z H) as [errs [He Hrun]]; [lia|exact Hnul|].
    exists errs. split; [exact He|]. intros ctx2.
    rewrite Hread. cbn [bind]. rewrite Hc0, HLR, HP, HSB. apply Hrun. }
  destruct (IH _ _ _ _ _ _ z H) as [errs [He Hrun]]; [lia|exact Hnul|].
  exists (UnknownAugmentation (byte.of_Z c) :: errs).
  split; [exact He|]. intros ctx2.
  rewrite Hread. cbn [bind]. rewrite Hc0, HLR, HP, HSB. apply Hrun.
Qed.

Lemma strlen_nul s : forall n,
  Cie.strlen s = Ok n ->
  exists b, nth_error s n = Some b /\ byte.unsigned b = 0.
Proof.
  induction s as [|b s IH]; intros n H; cbn [Cie.strlen] in H;
    [discriminate H|].
  destruct (Z.eqb_spec (byte.unsigned b) 0) as [Hb|Hb].
  - injection H as <-. exists b. split; [reflexivity|exact Hb].
  - destruct (Cie.strlen s) as [m| |]; cbn [bind] in H; try discriminate H.
    injection H as <-. apply (IH m). reflexivity.
Qed.

Lemma strlen_ext s : forall s' n,
  Cie.strlen s = Ok n ->
  (forall i, (i <= n)%nat -> nth_error s' i = nth_error s i) ->
  Cie.strlen s' = Ok n.
Proof.
  induction s as [|b s IH]; intros s' n H Hs; cbn [Cie.strlen] in H;
    [discriminate H|].
  assert (H0 := Hs 0%nat (Nat.le_0_l n)).
  destruct s' as [|b' s']; [discriminate H0|]. injection H0 as ->.
  cbn [Cie.strlen]. destruct (byte.unsigned b =? 0); [exact H|].
  destruct (Cie.strlen s) as [m| |]; cbn [bind] in H; try discriminate H.
  injection H as <-. rewrite (IH s' m eq_refl); [reflexivity|].
  intros i Hi. apply (Hs (S i)). lia.
Qed.

Lemma uleb_length_ext s : forall s' n,
  Cie.uleb_length s = Ok n ->
  (forall i, (i < n)%nat -> nth_error s' i = nth_error s i) ->
  Cie.uleb_length s' = Ok n.
Proof.
  induction s as [|b s IH]; intros s' n H Hs; cbn [Cie.uleb_length] in H;
    [discriminate H|].
  assert (Hn : (0 < n)%nat).
  { destruct (Z.testbit _ 7); [|injection H as <-; lia].
    destruct (Cie.uleb_length s); cbn [bind] in H; try discriminate H.
    injection H as <-. lia. }
  assert (H0 := Hs 0%nat Hn).
  destruct s' as [|b' s']; [discriminate H0|]. injection H0 as ->.
  cbn [Cie.uleb_length]. destruct (Z.testbit _ 7); [|exact H].
  destruct (Cie.uleb_length s) as [m| |]; cbn [bind] in H; try discriminate H.
  injection H as <-. rewrite (IH s' m eq_refl); [reflexivity|].
  intros i Hi. apply (Hs (S i)). lia.
Qed.

Lemma read_uleb_ext buf buf' p q :
  Cie.read_uleb buf p = Ok q ->
  (forall i, (i < q)%nat -> nth_error buf' i = nth_error buf i) ->
  Cie.read_uleb buf' p = Ok q.
Proof.
  unfold Cie.read_uleb. intros H Hs.
  destruct (Cie.uleb_length (skipn p buf)) as [n| |] eqn:Hn; cbn [bind] in H;
    try discriminate H.
  injection H as <-.
  rewrite (uleb_length_ext _ (skipn p buf') n Hn); [reflexivity|].
  intros i Hi. rewrite !nth_error_skipn. apply Hs. lia.
Qed.

(** X23.  A record that [mips_rewrite_cie] has rewritten is a fixed
    point: running the rewriter again on its result accepts it, leaves
    every byte as it is and reports the same diagnostics. *)
Theorem mips_rewrite_cie_is_idempotent
        (ctx ctx' : Context) (buf buf' : list byte) :
  Cie.mips_rewrite_cie ctx buf = Ok (ctx', buf') ->
  exists errs,
    ctx' = fold_left report errs ctx
    /\ forall ctx2,
         Cie.mips_rewrite_cie ctx2 buf'
         = Ok (fold_left report errs ctx2, buf').
Proof.
  unfold Cie.mips_rewrite_cie. intros H.
  destruct (Cie.read buf 9) as [c| |] eqn:Hc; cbn [bind] in H;
    try discriminate H.
  destruct (c =? 122) eqn:Hz; cbn [negb] in H.
  2: { injection H as <- <-. exists []. split; [reflexivity|].
       intros ctx2. rewrite Hc. cbn [bind]. rewrite Hz. reflexivity. }
  destruct (Cie.strlen (skipn 10 buf)) as [m| |] eqn:Hm; cbn [bind] in H;
    try discriminate H.
  destruct (Cie.read_uleb buf (10 + m + 1)) as [p1| |] eqn:H1; cbn [bind] in H;
    try discriminate H.
  destruct (Cie.read_uleb buf p1) as [p2| |] eqn:H2; cbn [bind] in H;
    try discriminate H.
  destruct (Cie.read_uleb buf (S p2)) as [p3| |] eqn:H3; cbn [bind] in H;
    try discriminate H.
  assert (A1 := read_uleb_advances _ _ _ H1).
  assert (A2 := read_uleb_advances _ _ _ H2).
  assert (A3 := read_uleb_advances _ _ _ H3).
  destruct (aug_loop_frame _ _ _ _ _ _ _ H) as [Hl [Hb _]].
  destruct (strlen_nul _ _ Hm) as [b [Hb0 Hb1]].
  rewrite nth_error_skipn in Hb0.
  destruct (aug_loop_replay _ _ _ _ _ _ _ (10 + m)%nat H) as [errs [He Hrun]];
    [lia|unfold Cie.read; rewrite Hb0, Hb1; reflexivity|].
  exists errs. split; [exact He|]. intros ctx2.
  assert (Hc' : Cie.read buf' 9 = Ok c).
  { unfold Cie.read in Hc |- *. rewrite Hb by lia. exact Hc. }
  rewrite Hc'. cbn [bind]. rewrite Hz. cbn [negb].
  rewrite (strlen_ext _ (skipn 10 buf') m Hm).
  2: { intros i Hi. rewrite !nth_error_skipn. apply Hb. lia. }
  cbn [bind].
  rewrite (read_uleb_ext buf buf' _ _ H1) by (intros; apply Hb; lia).
  cbn [bind].
  rewrite (read_uleb_ext buf buf' _ _ H2) by (intros; apply Hb; lia).
  cbn [bind].
  rewrite (read_uleb_ext buf buf' _ _ H3) by (intros; apply Hb; lia).
  cbn [bind]. rewrite Hl. apply Hrun.
Qed.

End CieFrame.

(** ** The further properties on the sample link *)

Module FurtherExamples.

Lemma sample_pool_sorted :
  Got.sorted Sample.symtab (got_syms (extra_got Sample.ctx_final)).
Proof.
  change (got_syms (extra_got Sample.ctx_final))
    with (got_syms (Got.update_shdr Sample.symtab Sample.ctx Sample.got)).
  rewrite GotFacts.update_shdr_got_syms. apply PoolFacts.finalize_sorted.
Qed.

Lemma get_got_addr_defined_iff_not_all_smaller_witness :
  Got.get_got_addr Sample.symtab Sample.ctx_final
                   (extra_got Sample.ctx_final) 3%nat 100
  = Undefined AssertionFailed.
Proof.
  apply (proj1 (PoolLookup.get_got_addr_defined_iff_not_all_smaller
                  Sample.symtab Sample.ctx_final
                  (extra_got Sample.ctx_final) 3%nat 100
                  sample_pool_sorted)).
  intros y Hy. vm_compute in Hy.
  destruct Hy as [<-|[<-|[<-|[]]]]; reflexivity.
Defined.

Lemma appended_pair_found_in_its_region_witness :
  exists a,
    Got.get_got_addr Sample.symtab Sample.ctx
      (Got.update_shdr Sample.symtab Sample.ctx Sample.got) 2%nat 8 = Ok a
    /\ 131072 + 5 * 8 <= a < 131072 + 8 * 8.
Proof.
  destruct (PoolRoundTrip.appended_pair_found_in_its_region
              Sample.symtab Sample.ctx Sample.got
              ltac:(simpl; lia) ltac:(vm_compute; reflexivity))
    as [Hgot _].
  destruct (Hgot (mkSymbolAddend 2 8) (or_introl eq_refl)) as [a [Ha Hr]].
  exists a. split; [exact Ha|exact Hr].
Defined.

Lemma page_addr_of_appended_pair_witness :
  Got.get_gotpage_page_addr Sample.symtab Sample.ctx
    (Got.update_shdr Sample.symtab Sample.ctx Sample.got) 3%nat 0
  = Ok 65584.
Proof.
  exact (proj2 (PoolRoundTrip.page_addr_of_appended_pair
                  Sample.symtab Sample.ctx Sample.got (mkSymbolAddend 3 0)
                  (or_introl eq_refl))
               GotExamples.sample_gotpage_identified).
Defined.

Lemma copy_buf_stores_entries_in_order_witness :
  Mem.load false 8 (4096 + 8 * (2 + 3 + 2))
    (Got.cs_image
       (Got.copy_buf Sample.E Sample.symtab Sample.ctx_final
                     (extra_got Sample.ctx_final) Sample.image))
  = 65576.
Proof.
  exact (GotImage.copy_buf_stores_entries_in_order
           Sample.E Sample.symtab Sample.ctx_final
           (extra_got Sample.ctx_final) Sample.image 2
           (Got.got_entry Sample.E Sample.symtab Sample.ctx_final
                          (mkSymbolAddend 2 8))
           eq_refl).
Defined.

Lemma copy_buf_mirrors_dynsym_witness :
  Mem.load false 8 (4096 + 8 * (2 + 1))
    (Got.cs_image
       (Got.copy_buf Sample.E Sample.symtab Sample.ctx_final
                     (extra_got Sample.ctx_final) Sample.image))
  = 65536.
Proof.
  exact (GotImage.copy_buf_mirrors_dynsym
           Sample.E Sample.symtab Sample.ctx_final
           (extra_got Sample.ctx_final) Sample.image 1 (Some 0%nat)
           eq_refl ltac:(vm_compute; discriminate)).
Defined.

Lemma slot_found_holds_content_of_pair_witness :
  exists a,
    Got.get_got_addr Sample.symtab Sample.ctx
      (Got.update_shdr Sample.symtab Sample.ctx Sample.got) 2%nat 8 = Ok a
    /\ Mem.load false 8 (4096 + (a - 131072))
         (Got.cs_image
            (Got.copy_buf Sample.E Sample.symtab Sample.ctx
               (Got.update_shdr Sample.symtab Sample.ctx Sample.got)
               Sample.image))
       = 65576.
Proof.
  destruct (GotContents.slot_found_holds_content_of_pair
              Sample.E Sample.symtab Sample.ctx Sample.got Sample.image
              ltac:(simpl; lia) ltac:(vm_compute; reflexivity))
    as [Hgot _].
  exact (Hgot GotExamples.sample_got_identified (mkSymbolAddend 2 8)
              (or_introl eq_refl)).
Defined.

Lemma field_relocation_keeps_opcode_and_rest_of_image_witness :
  exists st',
    Reloc.apply_reloc Sample.E Sample.symtab Sample.apply_toc_rel
                      Sample.isec 0 Sample.state Sample.rel_call16 = Ok st'
    /\ Z.shiftr (Mem.load false 4 16 (ap_image st')) 16
       = Z.shiftr (Mem.load false 4 16 (ap_image Sample.state)) 16
    /\ ap_image st' 20 = ap_image Sample.state 20
    /\ ap_dynrel st' = ap_dynrel Sample.state.
Proof.
  destruct (Reloc.apply_reloc Sample.E Sample.symtab Sample.apply_toc_rel
                              Sample.isec 0 Sample.state Sample.rel_call16)
    as [st'|d|u] eqn:Happ;
    [|vm_compute in Happ; discriminate Happ
     |vm_compute in Happ; discriminate Happ].
  destruct (ApplyFrame.field_relocation_keeps_opcode_and_rest_of_image
              Sample.E Sample.symtab Sample.apply_toc_rel
              Sample.isec 0 Sample.state st' Sample.rel_call16
              ltac:(vm_compute; discriminate)
              ltac:(vm_compute; discriminate) Happ)
    as [_ [Hop [Hrest [Hdyn _]]]].
  exists st'. split; [reflexivity|]. split; [exact Hop|].
  split; [apply Hrest; right; vm_compute; discriminate|exact Hdyn].
Defined.

Lemma got_hi16_overflow_reported_iff_out_of_range_witness :
  exists st',
    Reloc.apply_reloc Sample.E Sample.symtab Sample.apply_toc_rel
                      Sample.isec 0 Sample.state
                      (mkRel 40 R_MIPS_GOT_HI16 2 0) = Ok st'
    /\ ap_ctx st' = ap_ctx Sample.state.
Proof.
  destruct (ApplyFrame.got_hi16_overflow_reported_iff_out_of_range
              Sample.E Sample.symtab Sample.apply_toc_rel
              Sample.isec 0 Sample.state (mkRel 40 R_MIPS_GOT_HI16 2 0)
              (or_intror eq_refl))
    as [st' [Happ [Hin _]]].
  exists st'. split; [exact Happ|].
  apply Hin. split; vm_compute; [discriminate|reflexivity].
Defined.

Lemma unchecked_forms_report_nothing_witness :
  exists st',
    Reloc.apply_reloc Sample.E Sample.symtab Sample.apply_toc_rel
                      Sample.isec 0 Sample.state
                      (mkRel 44 R_MIPS_TLS_TPREL_LO16 2 0) = Ok st'
    /\ ap_ctx st' = ap_ctx Sample.state
    /\ ap_dynrel st' = ap_dynrel Sample.state.
Proof.
  exact (ApplyFrame.unchecked_forms_report_nothing
           Sample.E Sample.symtab Sample.apply_toc_rel
           Sample.isec 0 Sample.state (mkRel 44 R_MIPS_TLS_TPREL_LO16 2 0)
           (or_intror (or_introl eq_refl))).
Defined.

Lemma got_ofst_and_jalr_change_nothing_witness :
  exists st',
    Reloc.apply_reloc Sample.E Sample.symtab Sample.apply_toc_rel
                      Sample.isec 0 Sample.state
                      (mkRel 56 R_MIPS_JALR 2 0) = Ok st'
    /\ (forall a, ap_image st' a = ap_image Sample.state a)
    /\ ap_ctx st' = ap_ctx Sample.state
    /\ ap_dynrel st' = ap_dynrel Sample.state.
Proof.
  exact (ApplyFrame.got_ofst_and_jalr_change_nothing
           Sample.E Sample.symtab Sample.apply_toc_rel
           Sample.isec 0 Sample.state (mkRel 56 R_MIPS_JALR 2 0)
           (or_intror eq_refl)).
Defined.

Lemma tls_hi_lo_pair_encodes_offset_witness :
  exists st1 st2,
    Reloc.apply_reloc Sample.E Sample.symtab Sample.apply_toc_rel
                      Sample.isec 0 Sample.state
                      (mkRel 48 R_MIPS_TLS_TPREL_HI16 2 4) = Ok st1
    /\ Reloc.apply_reloc Sample.E Sample.symtab Sample.apply_toc_rel
                         Sample.isec 0 st1
                         (mkRel 52 R_MIPS_TLS_TPREL_LO16 2 4) = Ok st2
    /\ Int.sign_extend32
         (Z.shiftl (Z.land (Mem.load false 4 48 (ap_image st2)) 65535) 16
          + Int.sign_extend16
              (Z.land (Mem.load false 4 52 (ap_image st2)) 65535))
       = 65568 + 4 - 196608.
Proof.
  destruct (ApplyFrame.tls_hi_lo_pair_encodes_offset
              Sample.E Sample.symtab Sample.apply_toc_rel
              Sample.isec 0 Sample.state
              (mkRel 48 R_MIPS_TLS_TPREL_HI16 2 4)
              (mkRel 52 R_MIPS_TLS_TPREL_LO16 2 4)
              196608
              (or_introl (conj eq_refl (conj eq_refl eq_refl)))
              eq_refl eq_refl
              ltac:(split; vm_compute; [discriminate|reflexivity])
              ltac:(left; vm_compute; discriminate)
              eq_refl eq_refl)
    as [st1 [st2 [H1 [H2 [_ Hv]]]]].
  exists st1, st2. split; [exact H1|]. split; [exact H2|exact Hv].
Defined.

Lemma scan_switch_only_adds_witness :
  exists ctx',
    Reloc.scan_switch Sample.NEEDS_GOT Sample.NEEDS_GOTTP Sample.NEEDS_TLSGD
                      Sample.scan_toc_rel Sample.check_tlsle Sample.isec
                      Sample.ctx 2%nat Sample.rel_got_disp_addend = Ok ctx'
    /\ (exists l, got_syms (extra_got ctx')
                  = got_syms (extra_got Sample.ctx) ++ l)
    /\ errors ctx' = errors Sample.ctx ++ [].
Proof.
  destruct (Reloc.scan_switch Sample.NEEDS_GOT Sample.NEEDS_GOTTP
              Sample.NEEDS_TLSGD Sample.scan_toc_rel Sample.check_tlsle
              Sample.isec Sample.ctx 2%nat Sample.rel_got_disp_addend)
    as [ctx'|d|u] eqn:Hscan;
    [|vm_compute in Hscan; discriminate Hscan
     |vm_compute in Hscan; discriminate Hscan].
  destruct (ScanFacts.scan_switch_only_adds
              Sample.NEEDS_GOT Sample.NEEDS_GOTTP Sample.NEEDS_TLSGD
              Sample.scan_toc_rel Sample.check_tlsle Sample.isec
              Sample.ctx ctx' 2%nat Sample.rel_got_disp_addend
              ltac:(vm_compute; discriminate)
              ltac:(vm_compute; discriminate) Hscan)
    as [Hgot _].
  exists ctx'. split; [reflexivity|]. split; [exact Hgot|].
  vm_compute in Hscan. injection Hscan as <-. reflexivity.
Defined.

Lemma flag_relocations_assert_zero_addend_witness :
  Reloc.scan_switch Sample.NEEDS_GOT Sample.NEEDS_GOTTP Sample.NEEDS_TLSGD
                    Sample.scan_toc_rel Sample.check_tlsle Sample.isec
                    Sample.ctx 2%nat (mkRel 16 R_MIPS_CALL16 2 4)
  = Undefined AssertionFailed.
Proof.
  apply (proj1 (ScanFacts.flag_relocations_assert_zero_addend
                  Sample.NEEDS_GOT Sample.NEEDS_GOTTP Sample.NEEDS_TLSGD
                  Sample.scan_toc_rel Sample.check_tlsle Sample.isec
                  Sample.ctx 2%nat (mkRel 16 R_MIPS_CALL16 2 4)
                  (or_introl eq_refl))).
  discriminate.
Defined.

Lemma unknown_relocations_all_reported_witness :
  exists ctx',
    Reloc.scan_loop Sample.NEEDS_GOT Sample.NEEDS_GOTTP Sample.NEEDS_TLSGD
                    Sample.record_undef_error Sample.scan_toc_rel
                    Sample.check_tlsle Sample.isec
                    [mkRel 0 R_MIPS_HI16 0 0; mkRel 4 R_MIPS_LO16 0 0]
                    Sample.ctx = Ok ctx'
    /\ errors ctx'
       = errors Sample.ctx
         ++ map UnknownRelocation
                [mkRel 0 R_MIPS_HI16 0 0; mkRel 4 R_MIPS_LO16 0 0].
Proof.
  destruct (ScanFacts.unknown_relocations_all_reported
              Sample.NEEDS_GOT Sample.NEEDS_GOTTP Sample.NEEDS_TLSGD
              Sample.record_undef_error Sample.scan_toc_rel
              Sample.check_tlsle Sample.isec
              [mkRel 0 R_MIPS_HI16 0 0; mkRel 4 R_MIPS_LO16 0 0]
              Sample.ctx (fun c r => eq_refl)
              ltac:(apply Forall_cons;
                    [split; [vm_compute; discriminate|reflexivity]|];
                    apply Forall_cons;
                    [split; [vm_compute; discriminate|reflexivity]
                    |apply Forall_nil]))
    as [ctx' [Hloop [Herr _]]].
  exists ctx'. split; [exact Hloop|exact Herr].
Defined.

Lemma absolute_only_section_is_relocated_witness :
  exists st',
    Reloc.apply_nonalloc_loop Sample.E Sample.symtab
      Sample.record_undef_error Sample.get_fragment Sample.get_tombstone
      Sample.get_addend Sample.isec 0
      [Sample.rel_abs64; mkRel 48 R_NONE 0 0] (Sample.ctx, Sample.image)
    = Ok st'
    /\ snd st' 100 = Sample.image 100.
Proof.
  destruct (NonallocFrame.absolute_only_section_is_relocated
              Sample.E Sample.symtab
              Sample.record_undef_error Sample.get_fragment
              Sample.get_tombstone Sample.get_addend Sample.isec 0
              [Sample.rel_abs64; mkRel 48 R_NONE 0 0]
              (Sample.ctx, Sample.image)
              ltac:(apply Forall_cons;
                    [right; left; reflexivity
                    |apply Forall_cons;
                     [left; reflexivity|apply Forall_nil]]))
    as [st' [Hloop Hframe]].
  exists st'. split; [exact Hloop|].
  apply Hframe.
  apply Forall_cons; [right; vm_compute; discriminate|].
  apply Forall_cons; [right; vm_compute; discriminate|apply Forall_nil].
Defined.

Lemma rewrite_makes_encoding_relative_and_keeps_size_witness :
  Cie.rewrite (Cie.write Sample.cie_zR 16 (byte.of_Z 28)) 16
  = Ok (Cie.write Sample.cie_zR 16 (byte.of_Z 28), 8).
Proof.
  destruct (CieFrame.rewrite_makes_encoding_relative_and_keeps_size
              Sample.cie_zR (Cie.write Sample.cie_zR 16 (byte.of_Z 28))
              16 8 eq_refl)
    as [x [x' [_ [_ [_ [_ [_ [_ [_ [_ [_ [_ Hidem]]]]]]]]]]]].
  exact Hidem.
Defined.

Lemma mips_rewrite_cie_changes_only_absolute_encodings_witness :
  length (Cie.write Sample.cie_zR 16 (byte.of_Z 28)) = length Sample.cie_zR
  /\ nth_error (Cie.write Sample.cie_zR 16 (byte.of_Z 28)) 10
     = nth_error Sample.cie_zR 10.
Proof.
  destruct (CieFrame.mips_rewrite_cie_changes_only_absolute_encodings
              Sample.ctx Sample.ctx Sample.cie_zR
              (Cie.write Sample.cie_zR 16 (byte.of_Z 28)) eq_refl)
    as [Hlen [_ [Haug _]]].
  split; [exact Hlen|].
  apply (Haug 2%nat 10%nat eq_refl). lia.
Defined.

Lemma mips_rewrite_cie_is_idempotent_witness :
  exists errs,
    report Sample.ctx (UnknownAugmentation (byte.of_Z 88))
    = fold_left report errs Sample.ctx
    /\ Cie.mips_rewrite_cie Sample.ctx
         (Cie.write Sample.cie_zXR 17 (byte.of_Z 28))
       = Ok (fold_left report errs Sample.ctx,
             Cie.write Sample.cie_zXR 17 (byte.of_Z 28)).
Proof.
  destruct (CieFrame.mips_rewrite_cie_is_idempotent
              Sample.ctx
              (report Sample.ctx (UnknownAugmentation (byte.of_Z 88)))
              Sample.cie_zXR
              (Cie.write Sample.cie_zXR 17 (byte.of_Z 28)) eq_refl)
    as [errs [He Hrun]].
  exists errs. split; [exact He|apply Hrun].
Defined.

End FurtherExamples.
